(** * Dubins paths: a shallow embedding of [dubins.c]

    The C source computes with [double].  A [double] is modelled by Rocq's
    primitive binary64 [float]: [+], [-], [*], [/], [sqrt] and the
    comparisons are the IEEE 754 operations (round to nearest, ties to even),
    NaN and the two infinities and the two zeros included.  C expressions are
    evaluated left to right in plain double precision, without fused
    multiply-add.

    Functions that write through a pointer are written in state-passing
    style: they take the pointed-to object as it is before the call and
    return it as it is after the call, next to the [int] result. *)

From Stdlib Require Import ZArith List Bool Lia.
From Stdlib Require Import Floats.
Import ListNotations.

Local Open Scope float_scope.

(** ** C library *)

(** [floor] of <math.h>: exact on a binary64 number.  A number whose
    exponent is not negative is an integer already; otherwise the integer part
    has fewer than 53 bits, so that converting it back is exact. *)
Definition floor (x : float) : float :=
  match Prim2SF x with
  | S754_finite s m e =>
      if (0 <=? e)%Z then x
      else
        match Z.shiftr (cond_Zopp s (Zpos m)) (- e) with
        | Z0 => zero
        | n => SF2Prim (binary_normalize prec emax n 0 false)
        end
  | _ => x
  end.

(** [fabs] of <math.h>. *)
Definition fabs (x : float) : float := abs x.

(** [fmin].  Under [_MSC_VER] the source defines it itself,
    [static double fmin(double a, double b) { return (a < b) ? a : b; }]:
    of two equal numbers, and whenever an operand is NaN, this is the second
    operand. *)
Definition fmin_msc (a b : float) : float := if a <? b then a else b.

(** Otherwise [fmin] is the one of <math.h>: the smaller number, a NaN
    operand being treated as missing data.  C does not fix which of two
    zeros of opposite sign it returns; this one returns the first of two
    equal operands, as the GNU C library does. *)
Definition fmin_math (a b : float) : float :=
  if a <=? b then a
  else if b <? a then b
  else if is_nan b then a else b.

(** The [fmin] of a build of the program returns, at each call, what one of
    the two definitions returns.  They differ on equal numbers (of two zeros
    of opposite sign one returns the first and the other the second, so that
    every C library is covered) and when only the second operand is NaN. *)
Class Fmin : Type := {
  fmin : float -> float -> float;
  fmin_build : forall a b : float, fmin a b = fmin_math a b \/ fmin a b = fmin_msc a b
}.

(** The two builds. *)
Definition math_fmin : Fmin :=
  {| fmin := fmin_math; fmin_build := fun a b => or_introl eq_refl |}.

Definition msc_fmin : Fmin :=
  {| fmin := fmin_msc; fmin_build := fun a b => or_intror eq_refl |}.

(** The transcendental functions of <math.h> are not fixed by IEEE 754: the
    program is linked against some implementation of them. *)
Class Libm : Type := {
  sin : float -> float;
  cos : float -> float;
  acos : float -> float;
  atan2 : float -> float -> float
}.

(** ** Constants of the source *)

(** Modelled from the spec: the header [dubins.h] is not part of the sources;
    it declares the error codes, the [DubinsPath] record and the two function
    pointer types.  The spec names the error kinds InvalidRadius,
    NoFeasiblePath and ParameterOutOfRange; the numbers are those of the
    header, and success is the [0] that [dubins_path_sample] returns. *)
Definition EDUBOK : Z := 0.
Definition EDUBCOCONFIGS : Z := 1.
Definition EDUBPARAM : Z := 2.
Definition EDUBBADRHO : Z := 3.
Definition EDUBNOPATH : Z := 4.

Definition EPSILON : float := 0x1.12e0be826d695p-30.   (* 10e-10 *)

Definition LSL : Z := 0.
Definition LSR : Z := 1.
Definition RSL : Z := 2.
Definition RSR : Z := 3.
Definition RLR : Z := 4.
Definition LRL : Z := 5.

Definition L_SEG : Z := 0.
Definition S_SEG : Z := 1.
Definition R_SEG : Z := 2.

Definition M_PI : float := 0x1.921fb54442d18p+1.   (* 3.14159265358979323846 *)
Definition INFINITY : float := infinity.

(** ** Data *)

(** [double a[3]]. *)
Definition double3 : Type := float * float * float.

Definition get0 (a : double3) : float := fst (fst a).
Definition get1 (a : double3) : float := snd (fst a).
Definition get2 (a : double3) : float := snd a.

(** [a[i]] for an index inside the array; reading outside it has no meaning
    in C. *)
Definition get (a : double3) (i : Z) : option float :=
  match i with
  | 0%Z => Some (get0 a)
  | 1%Z => Some (get1 a)
  | 2%Z => Some (get2 a)
  | _ => None
  end.

(** Modelled from the spec: [DubinsPath] of the missing header, with the
    fields the source reads and writes. *)
Record DubinsPath : Type := mkDubinsPath {
  qi : double3;        (* the initial configuration *)
  param : double3;     (* the lengths of the three segments *)
  rho : float;         (* model forward velocity / model angular velocity *)
  type : Z             (* path type, one of LSL, LSR, ... *)
}.

Definition set_qi (p : DubinsPath) (v : double3) : DubinsPath :=
  mkDubinsPath v (param p) (rho p) (type p).
Definition set_param (p : DubinsPath) (v : double3) : DubinsPath :=
  mkDubinsPath (qi p) v (rho p) (type p).
Definition set_rho (p : DubinsPath) (v : float) : DubinsPath :=
  mkDubinsPath (qi p) (param p) v (type p).
Definition set_type (p : DubinsPath) (v : Z) : DubinsPath :=
  mkDubinsPath (qi p) (param p) (rho p) v.

(** The segment types for each of the path types. *)
Definition DIRDATA : list (Z * Z * Z) :=
  [ (L_SEG, S_SEG, L_SEG);
    (L_SEG, S_SEG, R_SEG);
    (R_SEG, S_SEG, L_SEG);
    (R_SEG, S_SEG, R_SEG);
    (R_SEG, L_SEG, R_SEG);
    (L_SEG, R_SEG, L_SEG) ].

(** [DIRDATA[ty]]; [None] when [ty] is not an index of the table. *)
Definition DIRDATA_at (ty : Z) : option (Z * Z * Z) :=
  if (ty <? 0)%Z then None else nth_error DIRDATA (Z.to_nat ty).

(** ** Angle utilities *)

(** Floating point modulus suitable for rings. *)
Definition fmodr (x y : float) : float := x - y * floor (x / y).

Definition mod2pi (theta : float) : float := fmodr theta (2 * M_PI).

(** How a run of a loop ends: with a result, without a meaning in C, or
    not within the given number of iterations. *)
Inductive run (A : Type) : Type :=
  | Ret (a : A)
  | Abort
  | Timeout.
Arguments Ret {A} a.
Arguments Abort {A}.
Arguments Timeout {A}.

Section Dubins.

Context {libm : Libm}.
Context {build : Fmin}.

(** ** Word solvers *)

(** A solver reads [alpha], [beta] and [d] and writes its three results to
    [outputs] when it succeeds. *)
Definition DubinsWord : Type := float -> float -> float -> double3 -> Z * double3.

Definition dubins_LSL : DubinsWord := fun alpha beta d outputs =>
  let sa := sin alpha in
  let sb := sin beta in
  let ca := cos alpha in
  let cb := cos beta in
  let c_ab := cos (alpha - beta) in
  let tmp0 := d + sa - sb in
  let p_squared := 2 + (d * d) - (2 * c_ab) + (2 * d * (sa - sb)) in
  if p_squared <? 0 then (EDUBNOPATH, outputs)
  else
    let tmp1 := atan2 (cb - ca) tmp0 in
    let t := mod2pi (- alpha + tmp1) in
    let p := sqrt p_squared in
    let q := mod2pi (beta - tmp1) in
    (EDUBOK, (t, p, q)).

Definition dubins_RSR : DubinsWord := fun alpha beta d outputs =>
  let sa := sin alpha in
  let sb := sin beta in
  let ca := cos alpha in
  let cb := cos beta in
  let c_ab := cos (alpha - beta) in
  let tmp0 := d - sa + sb in
  let p_squared := 2 + (d * d) - (2 * c_ab) + (2 * d * (sb - sa)) in
  if p_squared <? 0 then (EDUBNOPATH, outputs)
  else
    let tmp1 := atan2 (ca - cb) tmp0 in
    let t := mod2pi (alpha - tmp1) in
    let p := sqrt p_squared in
    let q := mod2pi (- beta + tmp1) in
    (EDUBOK, (t, p, q)).

Definition dubins_LSR : DubinsWord := fun alpha beta d outputs =>
  let sa := sin alpha in
  let sb := sin beta in
  let ca := cos alpha in
  let cb := cos beta in
  let c_ab := cos (alpha - beta) in
  let p_squared := - (2) + (d * d) + (2 * c_ab) + (2 * d * (sa + sb)) in
  if p_squared <? 0 then (EDUBNOPATH, outputs)
  else
    let p := sqrt p_squared in
    let tmp2 := atan2 (- ca - cb) (d + sa + sb) - atan2 (- (2)) p in
    let t := mod2pi (- alpha + tmp2) in
    let q := mod2pi (- mod2pi beta + tmp2) in
    (EDUBOK, (t, p, q)).

Definition dubins_RSL : DubinsWord := fun alpha beta d outputs =>
  let sa := sin alpha in
  let sb := sin beta in
  let ca := cos alpha in
  let cb := cos beta in
  let c_ab := cos (alpha - beta) in
  let p_squared := (d * d) - 2 + (2 * c_ab) - (2 * d * (sa + sb)) in
  if p_squared <? 0 then (EDUBNOPATH, outputs)
  else
    let p := sqrt p_squared in
    let tmp2 := atan2 (ca + cb) (d - sa - sb) - atan2 2 p in
    let t := mod2pi (alpha - tmp2) in
    let q := mod2pi (beta - tmp2) in
    (EDUBOK, (t, p, q)).

Definition dubins_RLR : DubinsWord := fun alpha beta d outputs =>
  let sa := sin alpha in
  let sb := sin beta in
  let ca := cos alpha in
  let cb := cos beta in
  let c_ab := cos (alpha - beta) in
  let tmp_rlr := (6 - d * d + 2 * c_ab + 2 * d * (sa - sb)) / 8 in
  if 1 <? fabs tmp_rlr then (EDUBNOPATH, outputs)
  else
    let p := mod2pi (2 * M_PI - acos tmp_rlr) in
    let t := mod2pi (alpha - atan2 (ca - cb) (d - sa + sb) + mod2pi (p / 2)) in
    let q := mod2pi (alpha - beta - t + mod2pi p) in
    (EDUBOK, (t, p, q)).

Definition dubins_LRL : DubinsWord := fun alpha beta d outputs =>
  let sa := sin alpha in
  let sb := sin beta in
  let ca := cos alpha in
  let cb := cos beta in
  let c_ab := cos (alpha - beta) in
  let tmp_lrl := (6 - d * d + 2 * c_ab + 2 * d * (- sa + sb)) / 8 in
  if 1 <? fabs tmp_lrl then (EDUBNOPATH, outputs)
  else
    let p := mod2pi (2 * M_PI - acos tmp_lrl) in
    let t := mod2pi (- alpha - atan2 (ca - cb) (d + sa - sb) + p / 2) in
    let q := mod2pi (mod2pi beta - alpha - t + mod2pi p) in
    (EDUBOK, (t, p, q)).

Definition dubins_words : list DubinsWord :=
  [ dubins_LSL; dubins_LSR; dubins_RSL; dubins_RSR; dubins_RLR; dubins_LRL ].

(** ** Path synthesizer *)

(** The local variables of [dubins_init_normalised] that live across the
    iterations of its loop, together with the path it writes to. *)
Record search : Type := mkSearch {
  s_params : double3;
  s_best_cost : float;
  s_best_word : Z;
  s_path : DubinsPath
}.

(** One iteration of the loop, for the solver [w = dubins_words[i]]. *)
Definition search_step (alpha beta d : float) (w : DubinsWord) (i : Z) (s : search) : search :=
  let '(err, params) := w alpha beta d (s_params s) in
  if (err =? EDUBOK)%Z then
    let cost := get0 params + get1 params + get2 params in
    if cost <? s_best_cost s then
      mkSearch params cost i (set_type (set_param (s_path s) params) i)
    else mkSearch params (s_best_cost s) (s_best_word s) (s_path s)
  else mkSearch params (s_best_cost s) (s_best_word s) (s_path s).

(** [for( i = ...; i < 6; i++ )] over the rest [ws] of the table. *)
Fixpoint search_loop (alpha beta d : float) (ws : list DubinsWord) (i : Z) (s : search) : search :=
  match ws with
  | [] => s
  | w :: ws' => search_loop alpha beta d ws' (i + 1)%Z (search_step alpha beta d w i s)
  end.

(** [params0] is what the uninitialised local array [params] holds. *)
Definition dubins_init_normalised (params0 : double3) (alpha beta d : float) (path : DubinsPath)
  : Z * DubinsPath :=
  let s := search_loop alpha beta d dubins_words 0 (mkSearch params0 INFINITY (-1) path) in
  if (s_best_word s =? -1)%Z then (EDUBNOPATH, s_path s)
  else (EDUBOK, set_type (s_path s) (s_best_word s)).

Definition dubins_init (params0 : double3) (q0 q1 : double3) (rho : float) (path : DubinsPath)
  : Z * DubinsPath :=
  let dx := get0 q1 - get0 q0 in
  let dy := get1 q1 - get1 q0 in
  let D := sqrt (dx * dx + dy * dy) in
  let d := D / rho in
  if rho <=? 0 then (EDUBBADRHO, path)
  else
    let theta := mod2pi (atan2 dy dx) in
    let alpha := mod2pi (get2 q0 - theta) in
    let beta := mod2pi (get2 q1 - theta) in
    let path := set_qi path q0 in
    let path := set_rho path rho in
    dubins_init_normalised params0 alpha beta d path.

(** ** Lengths *)

Definition dubins_path_length (path : DubinsPath) : float :=
  let length := 0 in
  let length := length + get0 (param path) in
  let length := length + get1 (param path) in
  let length := length + get2 (param path) in
  let length := length * rho path in
  length.

(** The index is checked before the array is read, so that the read is
    always inside the array. *)
Definition dubins_segment_length (path : DubinsPath) (i : Z) : float :=
  if ((i <? 0) || (2 <? i))%Z then INFINITY
  else
    match get (param path) i with
    | Some v => v * rho path
    | None => INFINITY
    end.

Definition dubins_segment_length_normalized (path : DubinsPath) (i : Z) : float :=
  if ((i <? 0) || (2 <? i))%Z then INFINITY
  else
    match get (param path) i with
    | Some v => v
    | None => INFINITY
    end.

Definition dubins_path_type (path : DubinsPath) : Z := type path.

(** ** Segment propagator *)

(** [qt] is written in full in each of the three cases; [None] is the failed
    assertion on [type]. *)
Definition dubins_segment (t : float) (qi : double3) (type : Z) : option double3 :=
  if negb ((type =? L_SEG) || (type =? S_SEG) || (type =? R_SEG))%Z then None
  else if (type =? L_SEG)%Z then
    Some (get0 qi + sin (get2 qi + t) - sin (get2 qi),
          get1 qi - cos (get2 qi + t) + cos (get2 qi),
          get2 qi + t)
  else if (type =? R_SEG)%Z then
    Some (get0 qi - sin (get2 qi - t) + sin (get2 qi),
          get1 qi + cos (get2 qi - t) - cos (get2 qi),
          get2 qi - t)
  else
    Some (get0 qi + cos (get2 qi) * t,
          get1 qi + sin (get2 qi) * t,
          get2 qi).

(** ** Sampler *)

(** The result is the returned code with the contents of [q] after the
    call; [None] stands for a run that has no meaning in C (the table
    [DIRDATA] read outside its bounds) or that stops at the assertion of
    [dubins_segment]. *)
Definition dubins_path_sample (path : DubinsPath) (t : float) (q : double3)
  : option (Z * double3) :=
  if (t <? 0) || (dubins_path_length path <=? t) then
    (* error, parameter out of bounds *)
    Some (EDUBPARAM, q)
  else
    (* tprime is the normalised variant of the parameter t *)
    let tprime := t / rho path in
    (* The translated initial configuration *)
    let qi' := (0, 0, get2 (qi path)) in
    (* Generate the target configuration *)
    match DIRDATA_at (type path) with
    | None => None
    | Some (types0, types1, types2) =>
      let p1 := get0 (param path) in
      let p2 := get1 (param path) in
      match dubins_segment p1 qi' types0 with
      | None => None
      | Some q1 =>
        match dubins_segment p2 q1 types1 with
        | None => None
        | Some q2 =>
          let target :=
            if tprime <? p1 then dubins_segment tprime qi' types0
            else if tprime <? p1 + p2 then dubins_segment (tprime - p1) q1 types1
            else dubins_segment (tprime - p1 - p2) q2 types2 in
          match target with
          | None => None
          | Some q =>
            (* scale the target configuration, translate back to the
               original starting point *)
            Some (0%Z, (get0 q * rho path + get0 (qi path),
                        get1 q * rho path + get1 (qi path),
                        mod2pi (get2 q)))
          end
        end
      end
    end.

(** The visitor is called with the sample, the parameter and the user data
    [u], which it may update. *)
Definition DubinsPathSamplingCallback (U : Type) : Type :=
  double3 -> float -> U -> Z * U.

(** The [while] loop of [dubins_path_sample_many], for at most [fuel]
    evaluations of its condition.  The code returned by
    [dubins_path_sample] is dropped, as in the source; the statement
    [q[3];] of the source computes nothing. *)
Fixpoint sample_many_loop {U : Type} (fuel : nat) (path : DubinsPath)
    (cb : DubinsPathSamplingCallback U) (stepSize length : float)
    (x : float) (q : double3) (u : U) : run (Z * U) :=
  match fuel with
  | O => Timeout
  | S fuel' =>
    if x <? length then
      match dubins_path_sample path x q with
      | None => Abort
      | Some (_, q) =>
        let '(retcode, u) := cb q x u in
        if negb (retcode =? 0)%Z then Ret (retcode, u)
        else sample_many_loop fuel' path cb stepSize length (x + stepSize) q u
      end
    else Ret (0%Z, u)
  end.

(** [q0] is what the uninitialised local array [q] holds. *)
Definition dubins_path_sample_many {U : Type} (fuel : nat) (q0 : double3) (path : DubinsPath)
    (cb : DubinsPathSamplingCallback U) (stepSize : float) (user_data : U) : run (Z * U) :=
  let x := 0 in
  let length := dubins_path_length path in
  sample_many_loop fuel path cb stepSize length x q0 user_data.

Definition dubins_path_endpoint (path : DubinsPath) (q : double3) : option (Z * double3) :=
  dubins_path_sample path (dubins_path_length path - EPSILON) q.

Definition dubins_extract_subpath (path : DubinsPath) (t : float) (newpath : DubinsPath)
  : Z * DubinsPath :=
  (* calculate the true parameter *)
  let tprime := t / rho path in
  (* copy most of the data *)
  let newpath := set_qi newpath (get0 (qi path), get1 (qi path), get2 (qi path)) in
  let newpath := set_rho newpath (rho path) in
  let newpath := set_type newpath (type path) in
  (* fix the parameters *)
  let np0 := fmin (get0 (param path)) tprime in
  let np1 := fmin (get1 (param path)) (tprime - np0) in
  let np2 := fmin (get2 (param path)) (tprime - np0 - np1) in
  (0%Z, set_param newpath (np0, np1, np2)).

End Dubins.

(** ** A reference implementation of the transcendental functions

    It is used to run the model on concrete inputs.  Every theorem below
    that is stated for all inputs holds for every [Libm]; what a theorem
    needs from the library is among its hypotheses.  The special values
    (zeros, infinities, NaN) follow Annex F of the C standard; elsewhere the
    functions are evaluated by argument reduction and truncated series. *)
Module RefLibm.

Definition PIO2_hi : float := 0x1.921fb54442d18p+0.
Definition PIO2_lo : float := 0x1.1a62633145c07p-54.
Definition PIO4 : float := 0x1.921fb54442d18p-1.

(** [1 - z/d1 * (1 - z/d2 * (1 - ...))] *)
Fixpoint nest (z : float) (ds : list float) : float :=
  match ds with
  | [] => 1
  | d :: ds' => 1 - z / d * nest z ds'
  end.

Definition sin_divisors : list float := [6; 20; 42; 72; 110; 156; 210; 272; 342; 420].
Definition cos_divisors : list float := [2; 12; 30; 56; 90; 132; 182; 240; 306; 380].

Definition ksin (r : float) : float := r * nest (r * r) sin_divisors.
Definition kcos (r : float) : float := nest (r * r) cos_divisors.

(** [x = k * pi/2 + r] with [r] in [[-pi/4, pi/4]]; returns [k mod 4] and [r]. *)
Definition reduce (x : float) : float * float :=
  let k := floor (x / PIO2_hi + 0.5) in
  let r := x - k * PIO2_hi - k * PIO2_lo in
  (k - 4 * floor (k / 4), r).

Definition sin (x : float) : float :=
  if is_nan x || is_infinity x then nan
  else if is_zero x then x
  else
    let '(k, r) := reduce x in
    if k =? 0 then ksin r
    else if k =? 1 then kcos r
    else if k =? 2 then - ksin r
    else - kcos r.

Definition cos (x : float) : float :=
  if is_nan x || is_infinity x then nan
  else
    let '(k, r) := reduce x in
    if k =? 0 then kcos r
    else if k =? 1 then - ksin r
    else if k =? 2 then - kcos r
    else ksin r.

(** [1/k - z * (1/(k+2) - z * (...))] *)
Fixpoint atan_sum (z : float) (n : nat) (k : float) : float :=
  match n with
  | O => 1 / k
  | S n' => 1 / k - z * atan_sum z n' (k + 2)
  end.

Definition katan (y : float) : float := y * atan_sum (y * y) 24 1.

(** The arctangent on [[0, 1]]. *)
Definition atan_unit (x : float) : float :=
  if 0x1.a827999fcef32p-2 <? x then PIO4 + katan ((x - 1) / (x + 1))
  else katan x.

(** The arctangent of [a / x] for finite [a > 0] and [x > 0]. *)
Definition atan_ratio (a x : float) : float :=
  if x <? a then PIO2_hi - atan_unit (x / a) + PIO2_lo
  else atan_unit (a / x).

(** [atan2 a x] for [a >= 0]. *)
Definition atan2_abs (a x : float) : float :=
  if is_infinity x then
    if get_sign x then (if is_infinity a then 3 * PIO4 else M_PI)
    else (if is_infinity a then PIO4 else 0)
  else if is_infinity a then PIO2_hi
  else if is_zero x then
    if is_zero a then (if get_sign x then M_PI else 0) else PIO2_hi
  else if is_zero a then (if get_sign x then M_PI else 0)
  else if 0 <? x then atan_ratio a x
  else M_PI - atan_ratio a (- x).

Definition atan2 (y x : float) : float :=
  if is_nan y || is_nan x then nan
  else
    let r := atan2_abs (abs y) x in
    if get_sign y then - r else r.

Definition acos (x : float) : float :=
  if is_nan x || (1 <? abs x) then nan
  else if x =? 1 then 0
  else atan2 (sqrt ((1 - x) * (1 + x))) x.

End RefLibm.

Definition ref_libm : Libm :=
  {| sin := RefLibm.sin; cos := RefLibm.cos; acos := RefLibm.acos; atan2 := RefLibm.atan2 |}.

(** ** Paths and solver results *)

(** The path types of the table [DIRDATA]. *)
Definition valid_type (ty : Z) : Prop := (0 <= ty <= 5)%Z.

(** The invariant the spec gives for a path: the three parameters are
    [>= 0], [rho > 0] and the type is one of the six words. *)
Definition valid_path (p : DubinsPath) : Prop :=
  (0 <=? get0 (param p)) = true /\
  (0 <=? get1 (param p)) = true /\
  (0 <=? get2 (param p)) = true /\
  (0 <? rho p) = true /\
  valid_type (type p).

Definition segment_type (ty : Z) : Prop := ty = L_SEG \/ ty = S_SEG \/ ty = R_SEG.

(** The cost of a word: the sum the synthesizer compares. *)
Definition cost (ps : double3) : float := get0 ps + get1 ps + get2 ps.

(** A solver either reports no path and leaves [outputs] alone, or succeeds
    with results that do not depend on what [outputs] held. *)
Definition well_behaved (w : float -> float -> float -> double3 -> Z * double3) : Prop :=
  forall alpha beta d,
    (forall o, w alpha beta d o = (EDUBNOPATH, o)) \/
    (exists ps, forall o, w alpha beta d o = (EDUBOK, ps)).

(** The solver [w] succeeds on [(alpha, beta, d)] with the results [ps]. *)
Definition succeeds (w : float -> float -> float -> double3 -> Z * double3)
    (alpha beta d : float) (ps : double3) : Prop :=
  forall o, w alpha beta d o = (EDUBOK, ps).

(** The solver of index [i] in [dubins_words] succeeds with the results [ps]. *)
Definition word_succeeds {libm : Libm} (alpha beta d : float) (i : Z) (ps : double3) : Prop :=
  (0 <= i)%Z /\
  exists w, nth_error dubins_words (Z.to_nat i) = Some w /\ succeeds w alpha beta d ps.

(** The condition under which [dubins_path_sample] refuses [t]. *)
Definition out_of_range (path : DubinsPath) (t : float) : Prop :=
  (t <? 0) = true \/ (dubins_path_length path <=? t) = true.

(** The same number: identical, or two zeros (of any signs). *)
Definition same_number (x y : float) : Prop :=
  x = y \/ (exists s s', Prim2SF x = S754_zero s /\ Prim2SF y = S754_zero s').

Definition SFzero (x : spec_float) : Prop := exists s, x = S754_zero s.

Definition SFsame (x y : spec_float) : Prop := x = y \/ (SFzero x /\ SFzero y).

(** A sign and a magnitude: never NaN. *)
Definition SFsigned (s : bool) (x : spec_float) : Prop :=
  match x with
  | S754_zero s' | S754_infinity s' | S754_finite s' _ _ => s' = s
  | S754_nan => False
  end.

(** Zero or finite. *)
Definition SFfinite (x : spec_float) : Prop :=
  match x with
  | S754_zero _ | S754_finite _ _ _ => True
  | _ => False
  end.

(** At the origin of the path's own frame, with the heading [h]. *)
Definition at_origin (h : float) (q : double3) : Prop :=
  SFzero (Prim2SF (get0 q)) /\ SFzero (Prim2SF (get1 q)) /\ same_number (get2 q) h.

(** A distance whose square overflows. *)
Definition huge : float := 0x1p+600.

(** The smallest positive binary64 number. *)
Definition tiny : float := 0x1p-1074.

(** The numbers that the running sum [0 + tiny + tiny + ...] takes. *)
Definition tiny_sum (x : float) : Prop :=
  x = 0 \/
  (exists n, Prim2SF x = S754_finite false n (-1074) /\ (Zpos n < 2 ^ 53)%Z) \/
  x = 0x1p-1021.

(** *** The rounds of [dubins_path_sample_many] *)

Section Rounds.

Context {libm : Libm}.
Context {U : Type}.
Variables (path : DubinsPath) (cb : DubinsPathSamplingCallback U) (stepSize : float).

(** One round of the loop body, from the parameter [x], the sample array
    [q] and the user data [u]: the code the visitor returns, with the array
    and the user data after the round. *)
Definition visit (x : float) (q : double3) (u : U) : Z * (double3 * U) :=
  match dubins_path_sample path x q with
  | Some (_, q') => let '(retcode, u') := cb q' x u in (retcode, (q', u'))
  | None => (0%Z, (q, u))
  end.

(** The parameter, the array and the user data after [n] rounds. *)
Fixpoint round (n : nat) (x : float) (q : double3) (u : U) : float * (double3 * U) :=
  match n with
  | O => (x, (q, u))
  | S n' =>
      let '(_, (q', u')) := visit x q u in
      round n' (x + stepSize) q' u'
  end.

(** [x + stepSize + ... + stepSize] with [n] additions, summed from the
    left in double arithmetic. *)
Fixpoint sample_x (n : nat) (x : float) : float :=
  match n with
  | O => x
  | S n' => sample_x n' (x + stepSize)
  end.

(** The code the visitor returns in round [n]. *)
Definition round_code (n : nat) (x : float) (q : double3) (u : U) : Z :=
  let '(x', (q', u')) := round n x q u in fst (visit x' q' u').

(** The user data after [n] rounds. *)
Definition user_data_after (n : nat) (x : float) (q : double3) (u : U) : U :=
  snd (snd (round n x q u)).

(** The first [n] rounds go on: their parameters are below [length] and
    the visitor returns 0 in each of them. *)
Definition quiet (length : float) (n : nat) (x : float) (q : double3) (u : U) : Prop :=
  forall k, (k < n)%nat ->
    (sample_x k x <? length) = true /\ round_code k x q u = 0%Z.

End Rounds.

(** The visitor that never asks to stop. *)
Definition keep_going : DubinsPathSamplingCallback unit := fun _ _ u => (0%Z, u).

(** A visitor that counts its calls and asks to stop, with code 7, at the
    first sample whose parameter is [>= 3]. *)
Definition stop_at_three : DubinsPathSamplingCallback nat :=
  fun _ x u => (if 3 <=? x then 7%Z else 0%Z, S u).

(** *** Paths used as examples *)

(** A path whose fields hold arbitrary old contents. *)
Definition stale_path : DubinsPath := mkDubinsPath (7, 7, 7) (8, 8, 8) 9 (-7).

(** From [(0, 0, 0)] straight ahead to [(4, 0, 0)]. *)
Definition straight_path : DubinsPath := mkDubinsPath (0, 0, 0) (0, 4, 0) 1 LSL.

Definition rounded_path : DubinsPath := mkDubinsPath (0, 0, 0) (1, 0x1p-60, 0) 1 LSL.

Definition unit_path : DubinsPath := mkDubinsPath (0, 0, 0) (1, 1, 1) 2 LSL.

(** A first segment of [5 * 2^-1074] with a turning radius of 1/2. *)
Definition tiny_path : DubinsPath := mkDubinsPath (0, 0, 0) (0x1.4p-1072, 0, 0) 0.5 LSL.

(** Straight ahead with a turning radius of 2. *)
Definition wide_path : DubinsPath := mkDubinsPath (0, 0, 0) (0, 4, 0) 2 LSL.

(** The path from a configuration to itself. *)
Definition zero_path : DubinsPath := mkDubinsPath (0, 0, 0) (0, 0, 0) 1 LSL.

(** A number [>= 0] as a multiple of [2^-1074], the positive infinity
    counting as [2^1024]; 0 for the other numbers. *)
Definition rank (x : float) : Z :=
  match Prim2SF x with
  | S754_finite false m e => Zpos m * 2 ^ (e + 1074)
  | S754_infinity false => 2 ^ 2098
  | _ => 0
  end.

(** The same for the specification of a number. *)
Definition SFrank (x : spec_float) : Z :=
  match x with
  | S754_finite false m e => Zpos m * 2 ^ (e + 1074)
  | S754_infinity false => 2 ^ 2098
  | _ => 0
  end.

(** The multiples of [2^-1074] that a number can be: at most 53 bits,
    times a power of 2. *)
Definition representable (c : Z) : Prop :=
  exists m k : Z, c = (m * 2 ^ k)%Z /\ (0 <= m <= 2 ^ 53)%Z /\ (0 <= k)%Z.

(** The factor by which [t] is to exceed the length of a path for the whole
    path to be extracted: [1 + 2^-49]. *)
Definition margin : float := 0x1.0000000000008p+0.

(** A path of length [2^25]. *)
Definition long_path : DubinsPath := mkDubinsPath (0, 0, 0) (0, 0x1p+25, 0) 1 LSL.
(** ** Comparisons of binary64 numbers *)

Section Order.

Ltac cmp_cases :=
  repeat match goal with
  | s : bool |- _ => destruct s
  end;
  simpl in *;
  repeat match goal with
  | |- context [ (?a ?= ?b)%Z ] => destruct (Z.compare_spec a b); simpl in *
  | H : context [ (?a ?= ?b)%Z ] |- _ => destruct (Z.compare_spec a b); simpl in *
  | |- context [ Pos.compare_cont Eq ?a ?b ] =>
      change (Pos.compare_cont Eq a b) with (Pos.compare a b);
      destruct (Pos.compare_spec a b); simpl in *
  | H : context [ Pos.compare_cont Eq ?a ?b ] |- _ =>
      change (Pos.compare_cont Eq a b) with (Pos.compare a b) in H;
      destruct (Pos.compare_spec a b); simpl in *
  end;
  try discriminate; try congruence; try lia.

Ltac by_cases3 x y z :=
  unfold SFltb, SFleb, SFeqb;
  destruct x, y, z; simpl; try discriminate; try reflexivity; cmp_cases.

Lemma SFltb_trans x y z : SFltb x y = true -> SFltb y z = true -> SFltb x z = true.
Proof. by_cases3 x y z. Qed.

Lemma SFeqb_ltb_trans x y z : SFeqb x y = true -> SFltb y z = true -> SFltb x z = true.
Proof. by_cases3 x y z. Qed.

Lemma SFleb_ltb_trans x y z : SFleb x y = true -> SFltb y z = true -> SFltb x z = true.
Proof. by_cases3 x y z. Qed.

Lemma SFltb_leb_trans x y z : SFltb x y = true -> SFleb y z = true -> SFltb x z = true.
Proof. by_cases3 x y z. Qed.

Lemma SFleb_trans x y z : SFleb x y = true -> SFleb y z = true -> SFleb x z = true.
Proof. by_cases3 x y z. Qed.

Lemma SFltb_leb_false x y : SFltb x y = true -> SFleb y x = false.
Proof.
  unfold SFltb, SFleb. destruct x, y; simpl; try discriminate; try reflexivity; cmp_cases.
Qed.

Lemma SFleb_ltb_false x y : SFleb x y = true -> SFltb y x = false.
Proof.
  unfold SFltb, SFleb. destruct x, y; simpl; try discriminate; try reflexivity; cmp_cases.
Qed.

Lemma ltb_trans a b c : (a <? b) = true -> (b <? c) = true -> (a <? c) = true.
Proof. rewrite !ltb_spec. apply SFltb_trans. Qed.

Lemma eqb_ltb_trans a b c : (a =? b) = true -> (b <? c) = true -> (a <? c) = true.
Proof. rewrite !ltb_spec, eqb_spec. apply SFeqb_ltb_trans. Qed.

Lemma leb_ltb_trans a b c : (a <=? b) = true -> (b <? c) = true -> (a <? c) = true.
Proof. rewrite !ltb_spec, leb_spec. apply SFleb_ltb_trans. Qed.

Lemma ltb_leb_trans a b c : (a <? b) = true -> (b <=? c) = true -> (a <? c) = true.
Proof. rewrite !ltb_spec, leb_spec. apply SFltb_leb_trans. Qed.

Lemma leb_trans a b c : (a <=? b) = true -> (b <=? c) = true -> (a <=? c) = true.
Proof. rewrite !leb_spec. apply SFleb_trans. Qed.

Lemma ltb_leb_false a b : (a <? b) = true -> (b <=? a) = false.
Proof. rewrite ltb_spec, leb_spec. apply SFltb_leb_false. Qed.

Lemma leb_ltb_false a b : (a <=? b) = true -> (b <? a) = false.
Proof. rewrite ltb_spec, leb_spec. apply SFleb_ltb_false. Qed.

Lemma ltb_irrefl a : (a <? a) = false.
Proof.
  destruct (a <? a) eqn:E; [ | reflexivity ].
  pose proof (ltb_leb_false _ _ E) as H.
  rewrite leb_spec in H. rewrite ltb_spec in E.
  unfold SFltb in E. unfold SFleb in H.
  destruct (SFcompare (Prim2SF a) (Prim2SF a)) as [ [ | | ] | ]; discriminate.
Qed.

End Order.

Lemma ltb_asym a b : (a <? b) = true -> (b <? a) = false.
Proof.
  intros H. destruct (b <? a) eqn:E; [ | reflexivity ].
  pose proof (ltb_trans _ _ _ H E) as F. rewrite ltb_irrefl in F. discriminate.
Qed.

(** ** Special values *)

Lemma SFcompare_refl x : x <> S754_nan -> SFcompare x x = Some Eq.
Proof.
  destruct x as [ [ | ] | [ | ] | | [ | ] m e ]; simpl; try reflexivity; try congruence;
    intros _; rewrite Z.compare_refl; change (Pos.compare_cont Eq m m) with (Pos.compare m m);
    rewrite Pos.compare_refl; reflexivity.
Qed.

Lemma SFeqb_true x y :
  SFeqb x y = true ->
  x = y \/ (exists s s', x = S754_zero s /\ y = S754_zero s').
Proof.
  unfold SFeqb.
  destruct x as [ sx | sx | | sx mx ex ], y as [ sy | sy | | sy my ey ]; simpl;
    try discriminate;
    try (intros _; right; eauto; fail);
    try (destruct sx; discriminate);
    try (destruct sy; discriminate).
  - destruct sx, sy; try discriminate; auto.
  - destruct sx, sy; try discriminate;
      destruct (Z.compare_spec ex ey); try discriminate;
      change (Pos.compare_cont Eq mx my) with (Pos.compare mx my);
      destruct (Pos.compare_spec mx my); try discriminate; subst; auto.
Qed.

Lemma eqb_same_number x y : (x =? y) = true -> same_number x y.
Proof.
  rewrite eqb_spec. intros H. apply SFeqb_true in H.
  destruct H as [ H | (s & s' & H1 & H2) ].
  - left. now apply Prim2SF_inj.
  - right. eauto.
Qed.

Lemma is_nan_spec x : is_nan x = true <-> Prim2SF x = S754_nan.
Proof.
  unfold is_nan. rewrite eqb_spec. unfold SFeqb.
  destruct (Prim2SF x) eqn:E.
  - simpl. split; discriminate.
  - rewrite SFcompare_refl by discriminate. split; discriminate.
  - simpl. split; reflexivity.
  - rewrite SFcompare_refl by discriminate. split; discriminate.
Qed.

Lemma is_nan_false x : is_nan x = false <-> Prim2SF x <> S754_nan.
Proof.
  rewrite <- is_nan_spec. destruct (is_nan x); split; congruence.
Qed.

Lemma same_number_eqb x y : same_number x y -> is_nan x = false -> (x =? y) = true.
Proof.
  intros [ <- | (s & s' & H1 & H2) ] Hn.
  - apply is_nan_false in Hn. rewrite eqb_spec. unfold SFeqb.
    now rewrite SFcompare_refl.
  - rewrite eqb_spec, H1, H2. reflexivity.
Qed.

Lemma same_number_refl x : same_number x x.
Proof. now left. Qed.

Lemma same_number_sym x y : same_number x y -> same_number y x.
Proof.
  intros [ -> | (s & s' & H1 & H2) ]; [ now left | right; eauto ].
Qed.

Lemma same_number_trans x y z : same_number x y -> same_number y z -> same_number x z.
Proof.
  intros [ -> | (s & s' & H1 & H2) ] [ <- | (t & t' & H3 & H4) ].
  - now left.
  - right; eauto.
  - right; eauto.
  - right; eauto.
Qed.

Lemma leb_nan a b : (a <=? b) = true -> is_nan a = false /\ is_nan b = false.
Proof.
  rewrite leb_spec, !is_nan_false. unfold SFleb.
  destruct (Prim2SF a), (Prim2SF b); simpl; try discriminate; split; discriminate.
Qed.

Lemma SFleb_false_ltb x y :
  x <> S754_nan -> y <> S754_nan -> SFleb x y = false -> SFltb y x = true.
Proof.
  unfold SFleb, SFltb.
  destruct x as [ sx | sx | | sx mx ex ], y as [ sy | sy | | sy my ey ]; simpl;
    try congruence; intros _ _;
    repeat match goal with s : bool |- _ => destruct s end; simpl;
    try discriminate; try reflexivity;
    destruct (Z.compare_spec ex ey), (Z.compare_spec ey ex); simpl;
    try discriminate; try reflexivity; try lia;
    change (Pos.compare_cont Eq mx my) with (Pos.compare mx my);
    change (Pos.compare_cont Eq my mx) with (Pos.compare my mx);
    destruct (Pos.compare_spec mx my), (Pos.compare_spec my mx); simpl;
    try discriminate; try reflexivity; try lia.
Qed.

Lemma leb_false_ltb a b :
  is_nan a = false -> is_nan b = false -> (a <=? b) = false -> (b <? a) = true.
Proof.
  rewrite !is_nan_false, leb_spec, ltb_spec. apply SFleb_false_ltb.
Qed.

Lemma is_finite_not_nan x : is_finite x = true -> is_nan x = false.
Proof.
  unfold is_finite. rewrite negb_true_iff, orb_false_iff. tauto.
Qed.

Lemma leb_cases a b : (a <=? b) = (a <? b) || (a =? b).
Proof.
  rewrite leb_spec, ltb_spec, eqb_spec. unfold SFleb, SFltb, SFeqb.
  destruct (SFcompare _ _) as [ [ | | ] | ]; reflexivity.
Qed.

(** ** [fmin]: what holds in every build *)

Lemma fmin_lt {build : Fmin} a b : (a <? b) = true -> fmin a b = a.
Proof.
  intros H. destruct (fmin_build a b) as [ -> | -> ].
  - unfold fmin_math. rewrite leb_cases, H. reflexivity.
  - unfold fmin_msc. rewrite H. reflexivity.
Qed.

Lemma fmin_gt {build : Fmin} a b : (b <? a) = true -> fmin a b = b.
Proof.
  intros H. destruct (fmin_build a b) as [ -> | -> ].
  - unfold fmin_math. rewrite (ltb_leb_false _ _ H), H. reflexivity.
  - unfold fmin_msc. rewrite (ltb_asym _ _ H). reflexivity.
Qed.

(** The result is one of the two operands. *)
Lemma fmin_operand {build : Fmin} a b : fmin a b = a \/ fmin a b = b.
Proof.
  destruct (fmin_build a b) as [ -> | -> ]; [ unfold fmin_math | unfold fmin_msc ].
  - destruct (a <=? b); [ now left | ].
    destruct (b <? a); [ now right | ]. destruct (is_nan b); auto.
  - destruct (a <? b); auto.
Qed.

Lemma fmin_lower {build : Fmin} a b : (b <=? a) = true -> same_number (fmin a b) b.
Proof.
  rewrite leb_cases. destruct (b <? a) eqn:Hlt; simpl; intros H.
  - rewrite (fmin_gt _ _ Hlt). apply same_number_refl.
  - apply eqb_same_number in H.
    destruct (fmin_operand a b) as [ -> | -> ];
      [ now apply same_number_sym | apply same_number_refl ].
Qed.

Lemma fmin_upper {build : Fmin} a b : (a <=? b) = true -> same_number (fmin a b) a.
Proof.
  rewrite leb_cases. destruct (a <? b) eqn:Hlt; simpl; intros H.
  - rewrite (fmin_lt _ _ Hlt). apply same_number_refl.
  - apply eqb_same_number in H.
    destruct (fmin_operand a b) as [ -> | -> ];
      [ apply same_number_refl | now apply same_number_sym ].
Qed.

(** ** Arithmetic on special values *)

Lemma same_number_SF x y : same_number x y <-> SFsame (Prim2SF x) (Prim2SF y).
Proof.
  unfold same_number, SFsame, SFzero. split.
  - intros [ -> | (s & s' & H1 & H2) ]; [ now left | right; eauto ].
  - intros [ H | ((s & H1) & (s' & H2)) ]; [ left; now apply Prim2SF_inj | right; eauto ].
Qed.

Ltac sf_zero :=
  repeat match goal with
  | H : SFzero _ |- _ => destruct H as (? & ->)
  | H : _ /\ _ |- _ => destruct H
  end.

Lemma SFsub_same a b x y :
  SFsame a b -> SFsame x y -> SFsame (SF64sub a x) (SF64sub b y).
Proof.
  unfold SFsame.
  intros [ -> | Hab ] [ -> | Hxy ]; sf_zero.
  - now left.
  - destruct b as [ [ | ] | | | ]; simpl;
      repeat match goal with s : bool |- _ => destruct s end; simpl;
      (now left) || (right; split; eexists; reflexivity).
  - destruct y as [ [ | ] | | | ]; simpl;
      repeat match goal with s : bool |- _ => destruct s end; simpl;
      (now left) || (right; split; eexists; reflexivity).
  - repeat match goal with s : bool |- _ => destruct s end; simpl;
      (now left) || (right; split; eexists; reflexivity).
Qed.

Lemma same_number_sub a b x y :
  same_number a b -> same_number x y -> same_number (a - x) (b - y).
Proof.
  rewrite !same_number_SF, !sub_spec. apply SFsub_same.
Qed.

Lemma SFcompare_same_r c x y : SFsame x y -> SFcompare c x = SFcompare c y.
Proof.
  intros [ -> | Hxy ]; [ reflexivity | ]. sf_zero.
  destruct c; reflexivity.
Qed.

Lemma same_number_leb_r c x y : same_number x y -> (c <=? x) = (c <=? y).
Proof.
  rewrite same_number_SF, !leb_spec. intros H. unfold SFleb.
  now rewrite (SFcompare_same_r _ _ _ H).
Qed.

Lemma same_number_ltb_r c x y : same_number x y -> (c <? x) = (c <? y).
Proof.
  rewrite same_number_SF, !ltb_spec. intros H. unfold SFltb.
  now rewrite (SFcompare_same_r _ _ _ H).
Qed.

Lemma same_number_is_nan x y : same_number x y -> is_nan x = is_nan y.
Proof.
  intros [ -> | (s & s' & H1 & H2) ]; [ reflexivity | ].
  assert (Hx : is_nan x = false) by (apply is_nan_false; rewrite H1; discriminate).
  assert (Hy : is_nan y = false) by (apply is_nan_false; rewrite H2; discriminate).
  congruence.
Qed.

(** A sum with an infinite middle term is not below infinity. *)
Lemma cost_infinite t q : (cost (t, infinity, q) <? INFINITY) = false.
Proof.
  unfold cost, get0, get1, get2, INFINITY. simpl.
  rewrite ltb_spec, !add_spec.
  change (Prim2SF infinity) with (S754_infinity false).
  destruct (Prim2SF t) as [ [ | ] | [ | ] | | [ | ] ? ? ],
           (Prim2SF q) as [ [ | ] | [ | ] | | [ | ] ? ? ]; reflexivity.
Qed.

(** ** The sign of a quotient *)

Lemma iter_pos_invariant {A : Type} (P : A -> Prop) (f : A -> A) :
  (forall x, P x -> P (f x)) -> forall n x, P x -> P (iter_pos f n x).
Proof.
  intros Hf. induction n as [ n IH | n IH | ]; intros x Hx; simpl; auto.
Qed.

Lemma shr_1_nonneg mrs : (0 <= shr_m mrs)%Z -> (0 <= shr_m (shr_1 mrs))%Z.
Proof.
  destruct mrs as [ [ | [ p | p | ] | p ] r s ]; simpl; lia.
Qed.

Lemma shr_nonneg mrs e n : (0 <= shr_m mrs)%Z -> (0 <= shr_m (fst (shr mrs e n)))%Z.
Proof.
  intros H. destruct n; simpl; auto.
  apply (iter_pos_invariant (fun r => (0 <= shr_m r)%Z)); auto using shr_1_nonneg.
Qed.

Lemma shr_fexp_nonneg p e m ex l :
  (0 <= m)%Z -> (0 <= shr_m (fst (shr_fexp p e m ex l)))%Z.
Proof.
  intros H. unfold shr_fexp. apply shr_nonneg.
  destruct l as [ | [ | | ] ]; simpl; exact H.
Qed.

Lemma round_nearest_even_nonneg m l : (0 <= m)%Z -> (0 <= round_nearest_even m l)%Z.
Proof.
  intros H. destruct l as [ | [ | | ] ]; simpl; try lia.
  destruct (Z.even m); lia.
Qed.

Lemma binary_round_aux_signed p e s m ex l :
  (0 <= m)%Z -> SFsigned s (binary_round_aux p e s m ex l).
Proof.
  intros H. unfold binary_round_aux.
  pose proof (shr_fexp_nonneg p e m ex l H) as H1.
  destruct (shr_fexp p e m ex l) as [ mrs' e' ]. simpl in H1.
  pose proof (shr_fexp_nonneg p e _ e' loc_Exact
                (round_nearest_even_nonneg (shr_m mrs') (loc_of_shr_record mrs') H1)) as H2.
  destruct (shr_fexp p e (round_nearest_even (shr_m mrs') (loc_of_shr_record mrs')) e' loc_Exact)
    as [ mrs'' e'' ]. simpl in H2.
  destruct (shr_m mrs'') as [ | q | q ]; simpl; try reflexivity; try lia.
  destruct (e'' <=? e - p)%Z; reflexivity.
Qed.

Lemma SFdiv_core_binary_nonneg p e m1 e1 m2 e2 :
  (0 <= fst (fst (SFdiv_core_binary p e (Zpos m1) e1 (Zpos m2) e2)))%Z.
Proof.
  unfold SFdiv_core_binary.
  set (s := (e1 - e2 - _)%Z).
  set (m' := match s with Zpos _ => Z.shiftl (Zpos m1) s | Z0 => Zpos m1 | Zneg _ => 0%Z end).
  assert (Hm : (0 <= m')%Z).
  { unfold m'. destruct s; try lia. apply Z.shiftl_nonneg. lia. }
  pose proof (Z.div_pos m' (Zpos m2) Hm eq_refl) as Hq.
  unfold Z.div in Hq.
  destruct (Z.div_eucl m' (Zpos m2)) as [ q r ]. exact Hq.
Qed.

Lemma SFdiv_signed x y sx sy :
  SFsigned sx x -> SFsigned sy y ->
  (match x, y with
   | S754_infinity _, S754_infinity _ => False
   | S754_zero _, S754_zero _ => False
   | _, _ => True
   end) ->
  SFsigned (xorb sx sy) (SF64div x y).
Proof.
  destruct x as [ ? | ? | | ? mx ex ], y as [ ? | ? | | ? my ey ]; simpl;
    try contradiction; try (intros -> -> _; reflexivity).
  intros -> -> _.
  pose proof (SFdiv_core_binary_nonneg prec emax mx ex my ey) as H.
  destruct (SFdiv_core_binary prec emax (Zpos mx) ex (Zpos my) ey) as [ [ mz ez ] lz ].
  simpl in H. now apply binary_round_aux_signed.
Qed.

Lemma ltb_zero_signed x : (x <? 0) = true -> SFsigned true (Prim2SF x) /\ ~ SFzero (Prim2SF x).
Proof.
  rewrite ltb_spec. change (Prim2SF 0) with (S754_zero false). unfold SFltb, SFzero.
  destruct (Prim2SF x) as [ s | [ | ] | | [ | ] m e ]; simpl; try discriminate;
    intros _; (split; [ reflexivity | intros (s' & F); discriminate ]).
Qed.

Lemma zero_ltb_signed x : (0 <? x) = true -> SFsigned false (Prim2SF x) /\ ~ SFzero (Prim2SF x).
Proof.
  rewrite ltb_spec. change (Prim2SF 0) with (S754_zero false). unfold SFltb, SFzero.
  destruct (Prim2SF x) as [ s | [ | ] | | [ | ] m e ]; simpl; try discriminate;
    intros _; (split; [ reflexivity | intros (s' & F); discriminate ]).
Qed.

Lemma is_infinity_spec x : is_infinity x = true <-> exists s, Prim2SF x = S754_infinity s.
Proof.
  unfold is_infinity. rewrite eqb_spec, abs_spec.
  change (Prim2SF infinity) with (S754_infinity false).
  destruct (Prim2SF x) as [ s | s | | s m e ]; simpl; unfold SFeqb; simpl.
  - split; [ discriminate | intros (s' & F); discriminate ].
  - split; eauto.
  - split; [ discriminate | intros (s' & F); discriminate ].
  - split; [ discriminate | intros (s' & F); discriminate ].
Qed.

Lemma SFsigned_true_le x :
  SFsigned true x -> SFltb x (S754_zero false) = true \/ x = S754_zero true.
Proof.
  destruct x as [ s | s | | s m e ]; simpl; try contradiction; intros ->; auto.
Qed.

(** A negative number divided by a positive one, unless both are infinite,
    is negative or the negative zero. *)
Lemma div_neg_pos t r :
  (t <? 0) = true -> (0 <? r) = true ->
  is_infinity t && is_infinity r = false ->
  (t / r <? 0) = true \/ t / r = neg_zero.
Proof.
  intros Ht Hr Hinf.
  destruct (ltb_zero_signed _ Ht) as (St & Zt).
  destruct (zero_ltb_signed _ Hr) as (Sr & Zr).
  assert (S : SFsigned true (Prim2SF (t / r))).
  { rewrite div_spec. apply (SFdiv_signed _ _ true false St Sr).
    destruct (Prim2SF t) as [ s | s | | s m e ] eqn:Et; try exact I;
      destruct (Prim2SF r) as [ s' | s' | | s' m' e' ] eqn:Er; try exact I.
    - apply Zt. eexists; reflexivity.
    - assert (H1 : is_infinity t = true) by (apply is_infinity_spec; eauto).
      assert (H2 : is_infinity r = true) by (apply is_infinity_spec; eauto).
      rewrite H1, H2 in Hinf. discriminate. }
  destruct (SFsigned_true_le _ S) as [ H | H ].
  - left. rewrite ltb_spec. exact H.
  - right. apply Prim2SF_inj. rewrite H. reflexivity.
Qed.

(** ** Arithmetic with zeros *)

Local Abbreviation Z0f x := (SFzero (Prim2SF x)).
Local Abbreviation Finf x := (SFfinite (Prim2SF x)).

Lemma is_finite_spec x : is_finite x = true -> SFfinite (Prim2SF x).
Proof.
  unfold is_finite. rewrite negb_true_iff, orb_false_iff. intros (Hn & Hi).
  apply is_nan_false in Hn.
  destruct (Prim2SF x) as [ s | s | | s m e ] eqn:E; simpl; auto.
  - assert (F : is_infinity x = true) by (apply is_infinity_spec; eauto). congruence.
Qed.

Lemma SFzero_cases x : SFzero (Prim2SF x) -> x = 0 \/ x = - 0.
Proof.
  intros ([ | ] & H); [ right | left ]; apply Prim2SF_inj; rewrite H; reflexivity.
Qed.

Ltac sf_unfold := unfold SF64add, SF64sub, SF64mul, SF64div, SFzero, SFsame, SFfinite in *.

Ltac sf_bools := repeat match goal with s : bool |- _ => destruct s end.

Lemma add_zero_r h z : Z0f z -> same_number (h + z) h.
Proof.
  rewrite same_number_SF, add_spec. intros (s & ->).
  destruct (Prim2SF h) as [ s' | s' | | s' m e ]; sf_bools; simpl;
    (now left) || (right; split; eexists; reflexivity).
Qed.

Lemma add_zero_l h z : Z0f z -> same_number (z + h) h.
Proof.
  rewrite same_number_SF, add_spec. intros (s & ->).
  destruct (Prim2SF h) as [ s' | s' | | s' m e ]; sf_bools; simpl;
    (now left) || (right; split; eexists; reflexivity).
Qed.

Lemma sub_zero_r h z : Z0f z -> same_number (h - z) h.
Proof.
  rewrite same_number_SF, sub_spec. intros (s & ->).
  destruct (Prim2SF h) as [ s' | s' | | s' m e ]; sf_bools; simpl;
    (now left) || (right; split; eexists; reflexivity).
Qed.

Lemma sub_zero_zero a b : Z0f a -> Z0f b -> Z0f (a - b).
Proof.
  rewrite sub_spec. intros (s & ->) (s' & ->). sf_bools; eexists; reflexivity.
Qed.

Lemma SFsub_diag x : SFfinite x -> SFzero (SF64sub x x).
Proof.
  destruct x as [ s | s | | s m e ]; intros H; try contradiction.
  - destruct s; eexists; reflexivity.
  - unfold SF64sub, SFsub. rewrite Z.sub_diag. eexists; reflexivity.
Qed.

Lemma SFadd_opp_diag x : SFfinite x -> SFzero (SF64add (SFopp x) x).
Proof.
  destruct x as [ s | s | | s m e ]; intros H; try contradiction.
  - destruct s; eexists; reflexivity.
  - unfold SF64add, SFadd, SFopp.
    replace (_ + _)%Z with 0%Z; [ eexists; reflexivity | ].
    destruct s; unfold cond_Zopp, negb; symmetry;
      [ apply Z.add_opp_diag_r | apply Z.add_opp_diag_l ].
Qed.

Lemma sub_diag x : is_finite x = true -> x - x = 0.
Proof.
  intros H. apply is_finite_spec in H. apply Prim2SF_inj. rewrite sub_spec.
  destruct (Prim2SF x) as [ [ | ] | s | | s m e ]; try contradiction; try reflexivity.
  unfold SF64sub, SFsub. rewrite Z.sub_diag. reflexivity.
Qed.

(** [(z + s') - s] for a zero [z] and the same finite number [s' = s]. *)
Lemma add_sub_cancel z s' s :
  Z0f z -> same_number s' s -> Finf s -> Z0f (z + s' - s).
Proof.
  intros Hz Hs Hf.
  assert (H1 : same_number (z + s') s).
  { apply same_number_trans with (y := s'); [ now apply add_zero_l | exact Hs ]. }
  assert (H2 : same_number (z + s' - s) (s - s)).
  { apply same_number_sub; [ exact H1 | apply same_number_refl ]. }
  assert (H3 : Z0f (s - s)) by (rewrite sub_spec; now apply SFsub_diag).
  destruct H2 as [ -> | (a & b & Ha & _) ]; [ exact H3 | eexists; exact Ha ].
Qed.

Lemma SFsub_zero_l s x : SF64sub (S754_zero s) x = SFopp x \/ (SFzero x /\ SFzero (SF64sub (S754_zero s) x)).
Proof.
  destruct x as [ s' | s' | | s' m e ]; simpl; auto.
  right. split; [ eexists; reflexivity | ]. sf_bools; eexists; reflexivity.
Qed.

(** [(z - s') + s] for a zero [z] and the same finite number [s' = s]. *)
Lemma sub_add_cancel z s' s :
  Z0f z -> same_number s' s -> Finf s -> Z0f (z - s' + s).
Proof.
  intros (sz & Hz) Hs Hf.
  rewrite add_spec, sub_spec, Hz.
  apply same_number_SF in Hs.
  destruct Hs as [ -> | ((a & Ha) & (b & Hb)) ].
  - destruct (SFsub_zero_l sz (Prim2SF s)) as [ -> | ((c & Hc) & (d & Hd)) ].
    + now apply SFadd_opp_diag.
    + rewrite Hd, Hc. sf_bools; eexists; reflexivity.
  - rewrite Ha, Hb. sf_bools; eexists; reflexivity.
Qed.

Lemma mul_zero_r c t : Finf c -> Z0f t -> Z0f (c * t).
Proof.
  rewrite mul_spec. intros Hc (s & ->).
  destruct (Prim2SF c) as [ s' | s' | | s' m e ]; simpl in *; try contradiction;
    eexists; reflexivity.
Qed.

Lemma mul_zero_l z r : Z0f z -> Finf r -> Z0f (z * r).
Proof.
  rewrite mul_spec. intros (s & ->) Hr.
  destruct (Prim2SF r) as [ s' | s' | | s' m e ]; simpl in *; try contradiction;
    eexists; reflexivity.
Qed.

Lemma add_zero_zero a b : Z0f a -> Z0f b -> Z0f (a + b).
Proof.
  rewrite add_spec. intros (s & ->) (s' & ->). sf_bools; eexists; reflexivity.
Qed.

Lemma div_zero_pos r : (0 <? r) = true -> Z0f (0 / r).
Proof.
  intros Hr. destruct (zero_ltb_signed _ Hr) as (S & Z).
  rewrite div_spec. change (Prim2SF 0) with (S754_zero false).
  destruct (Prim2SF r) as [ s | s | | s m e ]; simpl in *; try contradiction.
  - destruct Z. eexists; reflexivity.
  - eexists; reflexivity.
  - eexists; reflexivity.
Qed.

(** A number that is [>= 0] and not above a zero is a zero. *)
Lemma zero_of_bounds z p : Z0f z -> (0 <=? p) = true -> (z <? p) = false -> Z0f p.
Proof.
  rewrite leb_spec, ltb_spec. change (Prim2SF 0) with (S754_zero false).
  intros (s & ->). unfold SFleb, SFltb.
  destruct (Prim2SF p) as [ s' | [ | ] | | [ | ] m e ]; simpl; try discriminate.
  intros _ _. eexists; reflexivity.
Qed.

Lemma mod2pi_same a h : same_number a h -> mod2pi a = mod2pi h.
Proof.
  intros [ -> | (s & s' & Ha & Hh) ]; [ reflexivity | ].
  destruct (SFzero_cases a) as [ -> | -> ]; [ eexists; eassumption | | ];
    (destruct (SFzero_cases h) as [ -> | -> ]; [ eexists; eassumption | | ]); reflexivity.
Qed.

Lemma same_number_finite x y : same_number x y -> Finf y -> Finf x.
Proof.
  intros [ -> | (s & s' & Hx & Hy) ] H; [ exact H | ]. rewrite Hx. exact I.
Qed.

(** ** Adding the smallest positive number *)

Lemma digits2_pos_size m : digits2_pos m = Pos.size m.
Proof. induction m as [ m IH | m IH | ]; simpl; congruence. Qed.

Lemma digits2_pos_small m : (Zpos m < 2 ^ 53)%Z -> (Zpos (digits2_pos m) <= 53)%Z.
Proof.
  intros H. rewrite digits2_pos_size.
  destruct (Z.le_gt_cases (Zpos (Pos.size m)) 53) as [ Hle | Hgt ]; [ exact Hle | exfalso ].
  pose proof (Pos.size_le m) as Hs.
  assert (H54 : (2 ^ 54 <= 2 ^ Zpos (Pos.size m))%Z) by (apply Z.pow_le_mono_r; lia).
  assert (Hz : (2 ^ Zpos (Pos.size m) <= Zpos m~0)%Z).
  { rewrite <- Pos2Z.inj_pow. apply Pos2Z.pos_le_pos. exact Hs. }
  change (2 ^ 54)%Z with (2 * 2 ^ 53)%Z in H54.
  rewrite Pos2Z.inj_xO in Hz. lia.
Qed.

Lemma Prim2SF_tiny : Prim2SF tiny = S754_finite false 1 (-1074).
Proof. reflexivity. Qed.

(** Below [2^53] smallest units, adding one unit is exact. *)
Lemma SFadd_unit (n : positive) :
  (Zpos (n + 1) < 2 ^ 53)%Z ->
  SF64add (S754_finite false n (-1074)) (S754_finite false 1 (-1074))
    = S754_finite false (n + 1) (-1074).
Proof.
  intros H. apply digits2_pos_small in H.
  unfold SF64add, SFadd.
  change (Z.min (-1074) (-1074)) with (-1074)%Z.
  change (shl_align n (-1074) (-1074)) with (n, (-1074)%Z).
  change (shl_align 1 (-1074) (-1074)) with (1%positive, (-1074)%Z).
  cbn [fst cond_Zopp].
  change (Zpos n + 1)%Z with (Zpos (n + 1)).
  set (m := (n + 1)%positive) in *.
  unfold binary_normalize, binary_round.
  assert (Hf : fexp prec emax (Zpos (digits2_pos m) + -1074) = (-1074)%Z).
  { unfold fexp, SpecFloat.emin, prec, emax. lia. }
  rewrite Hf.
  change (shl_align m (-1074) (-1074)) with (m, (-1074)%Z).
  unfold binary_round_aux, shr_fexp.
  cbn [Zdigits2 shr_record_of_loc].
  rewrite Hf.
  change (-1074 - -1074)%Z with 0%Z.
  cbn [shr shr_m loc_of_shr_record round_nearest_even Zdigits2].
  rewrite Hf.
  change (-1074 - -1074)%Z with 0%Z.
  cbn [shr shr_m].
  reflexivity.
Qed.

Lemma tiny_sum_step x : tiny_sum x -> tiny_sum (x + tiny).
Proof.
  intros [ -> | [ (n & Hx & Hn) | -> ] ].
  - right; left. exists 1%positive. split; [ reflexivity | reflexivity ].
  - destruct (Z.lt_ge_cases (Zpos (n + 1)) (2 ^ 53)) as [ Hlt | Hge ].
    + right; left. exists (n + 1)%positive. split; [ | exact Hlt ].
      rewrite add_spec, Hx, Prim2SF_tiny. now apply SFadd_unit.
    + right; right.
      assert (En : n = 9007199254740991%positive).
      { apply Pos2Z.inj. rewrite Pos2Z.inj_add in Hge.
        change (2 ^ 53)%Z with 9007199254740992%Z in *. lia. }
      subst n.
      assert (Ex : x = 0x1.fffffffffffffp-1022).
      { apply Prim2SF_inj. rewrite Hx. reflexivity. }
      subst x. reflexivity.
  - right; right. reflexivity.
Qed.

Lemma tiny_sum_below_length x :
  tiny_sum x -> (x <? dubins_path_length straight_path) = true.
Proof.
  intros [ -> | [ (n & Hx & Hn) | -> ] ]; try reflexivity.
  rewrite ltb_spec, Hx. reflexivity.
Qed.

(** ** Properties of the program *)

Section Claims.

Context {libm : Libm}.

(** ** Synthesis *)

Lemma dubins_words_well_behaved : Forall well_behaved dubins_words.
Proof.
  unfold dubins_words.
  repeat (apply Forall_cons; [ intros alpha beta d | ]); [ .. | apply Forall_nil ].
  - unfold dubins_LSL. destruct (_ <? 0); [ left | right; eexists ]; intros o; reflexivity.
  - unfold dubins_LSR. destruct (_ <? 0); [ left | right; eexists ]; intros o; reflexivity.
  - unfold dubins_RSL. destruct (_ <? 0); [ left | right; eexists ]; intros o; reflexivity.
  - unfold dubins_RSR. destruct (_ <? 0); [ left | right; eexists ]; intros o; reflexivity.
  - unfold dubins_RLR. destruct (1 <? _); [ left | right; eexists ]; intros o; reflexivity.
  - unfold dubins_LRL. destruct (1 <? _); [ left | right; eexists ]; intros o; reflexivity.
Qed.


Lemma succeeds_functional w alpha beta d ps ps' :
  succeeds w alpha beta d ps -> succeeds w alpha beta d ps' -> ps = ps'.
Proof.
  intros H H'. specialize (H (0, 0, 0)). specialize (H' (0, 0, 0)). congruence.
Qed.

Section Search.

Variables alpha beta d : float.

Local Abbreviation ok w ps := (succeeds w alpha beta d ps).

(** What the loop of [dubins_init_normalised] does over the solvers [ws],
    the first of which has index [i0]. *)
Lemma search_loop_spec (ws : list DubinsWord) :
  Forall well_behaved ws ->
  forall (i0 : Z) (s : search),
  let s' := search_loop alpha beta d ws i0 s in
  (s_best_cost s' = s_best_cost s /\ s_best_word s' = s_best_word s /\
   s_path s' = s_path s /\
   forall k w ps, nth_error ws k = Some w -> ok w ps ->
     (cost ps <? s_best_cost s) = false)
  \/
  (exists k w ps,
     nth_error ws k = Some w /\ ok w ps /\
     (cost ps <? s_best_cost s) = true /\
     s_best_cost s' = cost ps /\
     s_best_word s' = (i0 + Z.of_nat k)%Z /\
     s_path s' = set_type (set_param (s_path s) ps) (i0 + Z.of_nat k) /\
     (forall k' w' ps', nth_error ws k' = Some w' -> ok w' ps' ->
        (cost ps' <? cost ps) = false) /\
     (forall k' w' ps', nth_error ws k' = Some w' -> ok w' ps' -> (k' < k)%nat ->
        (cost ps' =? cost ps) = false)).
Proof.
  induction 1 as [ | w ws Hw Hws IH ]; intros i0 s; simpl.
  - left. repeat split. intros [ | k ] w ps; discriminate.
  - destruct (Hw alpha beta d) as [ Hfail | [ ps Hok ] ].
    + (* the solver reports no path *)
      assert (E : search_step alpha beta d w i0 s
                  = mkSearch (s_params s) (s_best_cost s) (s_best_word s) (s_path s)).
      { unfold search_step. rewrite Hfail. reflexivity. }
      assert (Hno : forall ps', ~ ok w ps').
      { intros ps' H'. specialize (H' (0, 0, 0)). rewrite Hfail in H'. discriminate. }
      rewrite E. specialize (IH (i0 + 1)%Z (mkSearch (s_params s) (s_best_cost s) (s_best_word s) (s_path s))).
      simpl in IH.
      destruct IH as [ (E1 & E2 & E3 & Hall) | (k & w' & ps & Hk & Hps & Hlt & E1 & E2 & E3 & Hmin & Hfirst) ].
      * left. repeat split; try assumption.
        intros [ | k ] w' ps' Hn Hs; simpl in Hn.
        -- injection Hn as <-. now destruct (Hno ps').
        -- eauto.
      * right. exists (S k), w', ps. simpl.
        replace (i0 + Z.pos (Pos.of_succ_nat k))%Z with (i0 + 1 + Z.of_nat k)%Z by lia.
        repeat split; try assumption.
        -- intros [ | k' ] w'' ps' Hn Hs; simpl in Hn.
           ++ injection Hn as <-. now destruct (Hno ps').
           ++ eauto.
        -- intros [ | k' ] w'' ps' Hn Hs Hlt'; simpl in Hn.
           ++ injection Hn as <-. now destruct (Hno ps').
           ++ apply (Hfirst k' w'' ps'); auto. lia.
    + (* the solver succeeds with [ps] *)
      destruct (cost ps <? s_best_cost s) eqn:Hc.
      * (* and is the best so far *)
        assert (E : search_step alpha beta d w i0 s
                    = mkSearch ps (cost ps) i0 (set_type (set_param (s_path s) ps) i0)).
        { unfold search_step. rewrite (Hok (s_params s)). simpl. fold (cost ps). rewrite Hc. reflexivity. }
        rewrite E.
        specialize (IH (i0 + 1)%Z (mkSearch ps (cost ps) i0 (set_type (set_param (s_path s) ps) i0))).
        simpl in IH.
        destruct IH as [ (E1 & E2 & E3 & Hall) | (k & w' & ps1 & Hk & Hps & Hlt & E1 & E2 & E3 & Hmin & Hfirst) ].
        -- right. exists 0%nat, w, ps. simpl.
           replace (i0 + 0)%Z with i0 by lia.
           repeat split; try assumption.
           ++ intros [ | k' ] w'' ps' Hn Hs; simpl in Hn.
              ** injection Hn as <-. rewrite (succeeds_functional _ _ _ _ _ _ Hs Hok). apply ltb_irrefl.
              ** eauto.
           ++ intros k' w'' ps' _ _ Hlt'. lia.
        -- right. exists (S k), w', ps1. simpl.
           replace (i0 + Z.pos (Pos.of_succ_nat k))%Z with (i0 + 1 + Z.of_nat k)%Z by lia.
           repeat split; try assumption.
           ++ apply (ltb_trans _ _ _ Hlt Hc).
           ++ intros [ | k' ] w'' ps' Hn Hs; simpl in Hn.
              ** injection Hn as <-. rewrite (succeeds_functional _ _ _ _ _ _ Hs Hok).
                 now apply ltb_asym.
              ** eauto.
           ++ intros [ | k' ] w'' ps' Hn Hs Hlt'; simpl in Hn.
              ** injection Hn as <-. rewrite (succeeds_functional _ _ _ _ _ _ Hs Hok).
                 destruct (cost ps =? cost ps1) eqn:Heq; [ | reflexivity ].
                 pose proof (eqb_ltb_trans _ _ _ Heq Hlt) as F.
                 rewrite ltb_irrefl in F. discriminate.
              ** apply (Hfirst k' w'' ps'); auto. lia.
      * (* but is not better than the best so far *)
        assert (E : search_step alpha beta d w i0 s
                    = mkSearch ps (s_best_cost s) (s_best_word s) (s_path s)).
        { unfold search_step. rewrite (Hok (s_params s)). simpl. fold (cost ps). rewrite Hc. reflexivity. }
        rewrite E.
        specialize (IH (i0 + 1)%Z (mkSearch ps (s_best_cost s) (s_best_word s) (s_path s))).
        simpl in IH.
        destruct IH as [ (E1 & E2 & E3 & Hall) | (k & w' & ps1 & Hk & Hps & Hlt & E1 & E2 & E3 & Hmin & Hfirst) ].
        -- left. repeat split; try assumption.
           intros [ | k' ] w'' ps' Hn Hs; simpl in Hn.
           ++ injection Hn as <-. now rewrite (succeeds_functional _ _ _ _ _ _ Hs Hok).
           ++ eauto.
        -- right. exists (S k), w', ps1. simpl.
           replace (i0 + Z.pos (Pos.of_succ_nat k))%Z with (i0 + 1 + Z.of_nat k)%Z by lia.
           repeat split; try assumption.
           ++ intros [ | k' ] w'' ps' Hn Hs; simpl in Hn.
              ** injection Hn as <-. rewrite (succeeds_functional _ _ _ _ _ _ Hs Hok).
                 destruct (cost ps <? cost ps1) eqn:Hlt1; [ | reflexivity ].
                 pose proof (ltb_trans _ _ _ Hlt1 Hlt) as F. congruence.
              ** eauto.
           ++ intros [ | k' ] w'' ps' Hn Hs Hlt'; simpl in Hn.
              ** injection Hn as <-. rewrite (succeeds_functional _ _ _ _ _ _ Hs Hok).
                 destruct (cost ps =? cost ps1) eqn:Heq; [ | reflexivity ].
                 pose proof (eqb_ltb_trans _ _ _ Heq Hlt) as F. congruence.
              ** apply (Hfirst k' w'' ps'); auto. lia.
Qed.

End Search.

(** What [dubins_init_normalised] returns, in full. *)
Lemma dubins_init_normalised_spec (params0 : double3) (alpha beta d : float) (path : DubinsPath) :
  ((forall i ps, word_succeeds alpha beta d i ps -> (cost ps <? INFINITY) = false) /\
   dubins_init_normalised params0 alpha beta d path = (EDUBNOPATH, path))
  \/
  (exists i ps,
     word_succeeds alpha beta d i ps /\
     (cost ps <? INFINITY) = true /\
     dubins_init_normalised params0 alpha beta d path
       = (EDUBOK, mkDubinsPath (qi path) ps (rho path) i) /\
     (forall j ps', word_succeeds alpha beta d j ps' -> (cost ps' <? cost ps) = false) /\
     (forall j ps', word_succeeds alpha beta d j ps' -> (j < i)%Z ->
        (cost ps' =? cost ps) = false)).
Proof.
  unfold dubins_init_normalised.
  destruct (search_loop_spec alpha beta d dubins_words dubins_words_well_behaved 0
              (mkSearch params0 INFINITY (-1) path))
    as [ (E1 & E2 & E3 & Hall) | (k & w & ps & Hk & Hps & Hlt & E1 & E2 & E3 & Hmin & Hfirst) ];
    simpl in *.
  - left. split.
    + intros i ps (Hi & w & Hn & Hs). eauto.
    + rewrite E2, E3. reflexivity.
  - right. exists (Z.of_nat k), ps.
    assert (Hw : word_succeeds alpha beta d (Z.of_nat k) ps).
    { split; [ lia | ]. exists w. rewrite Nat2Z.id. auto. }
    repeat split; try assumption; try lia.
    + exists w. rewrite Nat2Z.id. auto.
    + rewrite E2, E3.
      destruct (Z.of_nat k =? -1)%Z eqn:Hm; [ apply Z.eqb_eq in Hm; lia | ].
      reflexivity.
    + intros j ps' (Hj & w' & Hn & Hs). eauto.
    + intros j ps' (Hj & w' & Hn & Hs) Hlt'.
      apply (Hfirst (Z.to_nat j) w' ps'); auto. lia.
Qed.

Lemma word_succeeds_valid_type alpha beta d i ps :
  word_succeeds alpha beta d i ps -> valid_type i.
Proof.
  intros (Hi & w & Hn & _). unfold valid_type.
  assert (Hlt : (Z.to_nat i < length dubins_words)%nat).
  { apply nth_error_Some. rewrite Hn. discriminate. }
  simpl in Hlt. lia.
Qed.

(** What a successful synthesis stores. *)
Lemma dubins_init_success (params0 q0 q1 : double3) (r : float) (path0 path : DubinsPath) :
  dubins_init params0 q0 q1 r path0 = (EDUBOK, path) ->
  qi path = q0 /\ rho path = r /\ (r <=? 0) = false /\ valid_type (type path) /\
  (cost (param path) <? INFINITY) = true.
Proof.
  unfold dubins_init. destruct (r <=? 0) eqn:Hr; [ discriminate | ].
  match goal with
  | |- context [ dubins_init_normalised ?p0 ?a ?b ?d ?p ] =>
      destruct (dubins_init_normalised_spec p0 a b d p)
        as [ (_ & E) | (i & ps & Hs & Hc & E & _) ]; rewrite E
  end.
  - discriminate.
  - intros H. injection H as <-. simpl.
    repeat split; try assumption.
    + eapply word_succeeds_valid_type; eassumption.
    + eapply word_succeeds_valid_type; eassumption.
Qed.

(** C1, amended.  For every input [(alpha, beta, d)] on which at least one
    of the six solvers succeeds with a cost [t + p + q] that compares below
    [INFINITY], [dubins_init_normalised] returns [EDUBOK] and a path whose
    type [i] and three parameters are those of a succeeding solver; no
    succeeding solver has a smaller cost, and no succeeding solver of a
    smaller index (LSL, LSR, RSL, RSR, RLR, LRL is the order of the
    indices) has an equal cost.  The initial configuration and [rho] of the
    path are untouched.  A solver that succeeds with a cost that is
    infinite or NaN is passed over: when no solver succeeds with a cost
    below [INFINITY], the result is [EDUBNOPATH] and the path is returned as
    it was. *)
Theorem dubins_init_normalised_selects (params0 : double3) (alpha beta d : float) (path : DubinsPath) :
  ((exists i ps, word_succeeds alpha beta d i ps /\ (cost ps <? INFINITY) = true) ->
   exists i ps,
     word_succeeds alpha beta d i ps /\
     dubins_init_normalised params0 alpha beta d path
       = (EDUBOK, mkDubinsPath (qi path) ps (rho path) i) /\
     (forall j ps', word_succeeds alpha beta d j ps' -> (cost ps' <? cost ps) = false) /\
     (forall j ps', word_succeeds alpha beta d j ps' -> (j < i)%Z ->
        (cost ps' =? cost ps) = false)) /\
  ((forall i ps, word_succeeds alpha beta d i ps -> (cost ps <? INFINITY) = false) ->
   dubins_init_normalised params0 alpha beta d path = (EDUBNOPATH, path)).
Proof.
  destruct (dubins_init_normalised_spec params0 alpha beta d path)
    as [ (Hall & E) | (i & ps & Hs & Hc & E & Hmin & Hfirst) ].
  - split.
    + intros (i0 & ps0 & Hs0 & Hc0). rewrite (Hall _ _ Hs0) in Hc0. discriminate.
    + intros _. exact E.
  - split.
    + intros _. exists i, ps. auto.
    + intros Hall. rewrite (Hall _ _ Hs) in Hc. discriminate.
Qed.

(** *** A distance whose square overflows *)

Section Overflow.

Hypothesis sin_zero : sin 0 = 0.
Hypothesis cos_zero : cos 0 = 1.

Ltac at_zero := cbv beta zeta delta [dubins_LSL dubins_LSR dubins_RSL dubins_RSR dubins_RLR dubins_LRL];
  change (0 - 0) with 0; rewrite ?sin_zero, ?cos_zero.

Lemma dubins_words_huge (w : DubinsWord) (ps : double3) :
  In w dubins_words -> succeeds w 0 0 huge ps -> (cost ps <? INFINITY) = false.
Proof.
  unfold dubins_words. simpl.
  intros [ <- | [ <- | [ <- | [ <- | [ <- | [ <- | [] ] ] ] ] ] ] H;
    specialize (H (0, 0, 0)); revert H; at_zero.
  - intros H. injection H as <-. apply cost_infinite.
  - intros H. injection H as <-. apply cost_infinite.
  - intros H. injection H as <-. apply cost_infinite.
  - intros H. injection H as <-. apply cost_infinite.
  - intros H. discriminate.
  - intros H. discriminate.
Qed.

Lemma dubins_init_normalised_huge (params0 : double3) (path : DubinsPath) :
  dubins_init_normalised params0 0 0 huge path = (EDUBNOPATH, path).
Proof.
  destruct (dubins_init_normalised_spec params0 0 0 huge path)
    as [ (_ & E) | (i & ps & (Hi & w & Hn & Hs) & Hc & _) ]; [ exact E | ].
  apply nth_error_In in Hn.
  rewrite (dubins_words_huge w ps Hn Hs) in Hc. discriminate.
Qed.

Lemma dubins_LSL_huge (o : double3) :
  atan2 0 huge = 0 -> dubins_LSL 0 0 huge o = (EDUBOK, (0, infinity, 0)).
Proof.
  intros Ha. at_zero. change (1 - 1) with 0. change (huge + 0 - 0) with huge.
  rewrite Ha. reflexivity.
Qed.

End Overflow.

(** C4.  For every pair of configurations and every [rho <= 0] (zero and
    the negative zero included), [dubins_init] returns [EDUBBADRHO] and the
    output path is returned as it was: the quotient [D / rho], which is
    computed before the check and may be infinite or NaN, is not stored. *)
Theorem dubins_init_bad_rho (params0 q0 q1 : double3) (rho : float) (path : DubinsPath) :
  (rho <=? 0) = true ->
  dubins_init params0 q0 q1 rho path = (EDUBBADRHO, path).
Proof.
  intros Hrho. unfold dubins_init. rewrite Hrho. reflexivity.
Qed.

(** C10.  [dubins_init] is not atomic when it fails with [EDUBNOPATH]: for
    every [q0], [q1] and every [r > 0] the returned path has [qi = q0] and
    [rho = r], and when the code is [EDUBNOPATH] the path is the old one
    with just these two fields overwritten ([param] and [type] hold what
    they held).  For [r <= 0] the code is [EDUBBADRHO] and the path is the
    old one, untouched. *)
Theorem dubins_init_not_atomic (params0 q0 q1 : double3) (r : float) (path : DubinsPath) :
  ((0 <? r) = true ->
     qi (snd (dubins_init params0 q0 q1 r path)) = q0 /\
     rho (snd (dubins_init params0 q0 q1 r path)) = r /\
     (fst (dubins_init params0 q0 q1 r path) = EDUBNOPATH ->
        snd (dubins_init params0 q0 q1 r path)
          = mkDubinsPath q0 (param path) r (type path))) /\
  ((r <=? 0) = true ->
     dubins_init params0 q0 q1 r path = (EDUBBADRHO, path)).
Proof.
  split.
  - intros Hr. apply ltb_leb_false in Hr.
    unfold dubins_init. rewrite Hr.
    match goal with
    | |- context [ dubins_init_normalised ?p0 ?a ?b ?d ?p ] =>
        destruct (dubins_init_normalised_spec p0 a b d p)
          as [ (_ & E) | (i & ps & _ & _ & E & _) ]; rewrite E; simpl
    end.
    + repeat split; reflexivity.
    + repeat split; try reflexivity. intros F. discriminate.
  - intros Hr. unfold dubins_init. rewrite Hr. reflexivity.
Qed.

(** The first solver on two equal headings of [2^-1074] at distance 1. *)
Lemma dubins_LSL_tiny_heading (o : double3) :
  sin tiny = tiny -> is_finite (cos tiny) = true -> cos 0 = 1 -> atan2 0 1 = 0 ->
  dubins_LSL tiny tiny 1 o = (EDUBOK, (- tiny, 1, tiny)).
Proof.
  intros Hs Hc Hc0 Ha. unfold dubins_LSL.
  rewrite Hs, (sub_diag _ Hc).
  change (tiny - tiny) with 0. rewrite Hc0.
  change (1 + tiny - tiny) with 1. rewrite Ha.
  reflexivity.
Qed.

(** ** Segment lengths *)

(** C9.  For every path and every integer [i]: when [i < 0] or [i > 2],
    [dubins_segment_length] and [dubins_segment_length_normalized] both
    return the sentinel [INFINITY] (a length, not an error code); when [i]
    is 0, 1 or 2 they return [param[i] * rho] and [param[i]]. *)
Theorem dubins_segment_length_sentinel (path : DubinsPath) (i : Z) :
  ((i < 0 \/ 2 < i)%Z ->
     dubins_segment_length path i = INFINITY /\
     dubins_segment_length_normalized path i = INFINITY) /\
  ((0 <= i <= 2)%Z ->
     exists v, get (param path) i = Some v /\
       dubins_segment_length path i = v * rho path /\
       dubins_segment_length_normalized path i = v).
Proof.
  unfold dubins_segment_length, dubins_segment_length_normalized.
  split.
  - intros Hi.
    assert (E : ((i <? 0) || (2 <? i))%Z = true).
    { apply orb_true_iff. destruct Hi; [ left | right ]; now apply Z.ltb_lt. }
    rewrite E. split; reflexivity.
  - intros Hi.
    assert (E : ((i <? 0) || (2 <? i))%Z = false).
    { apply orb_false_iff. split; apply Z.ltb_ge; lia. }
    rewrite E.
    assert (Hc : i = 0%Z \/ i = 1%Z \/ i = 2%Z) by lia.
    destruct Hc as [-> | [-> | ->]]; simpl; eexists; repeat split.
Qed.

(** ** Sampling *)

Lemma DIRDATA_at_valid (ty : Z) :
  valid_type ty ->
  exists a b c, DIRDATA_at ty = Some (a, b, c) /\
    (a = L_SEG \/ a = R_SEG) /\ segment_type b /\ (c = L_SEG \/ c = R_SEG).
Proof.
  unfold valid_type, segment_type. intros H.
  assert (Hc : (ty = 0 \/ ty = 1 \/ ty = 2 \/ ty = 3 \/ ty = 4 \/ ty = 5)%Z) by lia.
  destruct Hc as [-> | [-> | [-> | [-> | [-> | ->]]]]];
    do 3 eexists; (split; [ reflexivity | ]); unfold L_SEG, S_SEG, R_SEG; intuition lia.
Qed.

Lemma dubins_segment_defined (t : float) (q : double3) (ty : Z) :
  segment_type ty -> exists q', dubins_segment t q ty = Some q'.
Proof.
  intros [-> | [-> | ->]]; eexists; reflexivity.
Qed.

Lemma out_of_range_dec path t :
  out_of_range path t <-> (t <? 0) || (dubins_path_length path <=? t) = true.
Proof. unfold out_of_range. now rewrite orb_true_iff. Qed.

Lemma dubins_path_sample_in_range (path : DubinsPath) (t : float) :
  valid_type (type path) ->
  (t <? 0) || (dubins_path_length path <=? t) = false ->
  exists pose, forall q, dubins_path_sample path t q = Some (EDUBOK, pose).
Proof.
  intros Hty Hr. unfold dubins_path_sample. rewrite Hr.
  destruct (DIRDATA_at_valid _ Hty) as (a & b & c & -> & Ha & Hb & Hc).
  assert (Ha' : segment_type a) by (unfold segment_type; tauto).
  assert (Hc' : segment_type c) by (unfold segment_type; tauto).
  destruct (dubins_segment_defined (get0 (param path)) (0, 0, get2 (qi path)) a Ha') as (q1 & ->).
  destruct (dubins_segment_defined (get1 (param path)) q1 b Hb) as (q2 & ->).
  destruct (t / rho path <? get0 (param path)).
  - destruct (dubins_segment_defined (t / rho path) (0, 0, get2 (qi path)) a Ha') as (q3 & ->).
    eexists. intros q. reflexivity.
  - destruct (t / rho path <? get0 (param path) + get1 (param path)).
    + destruct (dubins_segment_defined (t / rho path - get0 (param path)) q1 b Hb) as (q3 & ->).
      eexists. intros q. reflexivity.
    + destruct (dubins_segment_defined
                  (t / rho path - get0 (param path) - get1 (param path)) q2 c Hc') as (q3 & ->).
      eexists. intros q. reflexivity.
Qed.

(** C5.  For every path with one of the six types and every [t]:
    [dubins_path_sample] returns [EDUBPARAM], leaving [q] as it was, when
    [t < 0] or [t >= dubins_path_length path]; otherwise it returns
    [EDUBOK] and writes a configuration that does not depend on what [q]
    held.  So the code is [EDUBPARAM] if and only if [t < 0] or
    [t >= dubins_path_length path]. *)
Theorem dubins_path_sample_range (path : DubinsPath) (t : float) :
  valid_type (type path) ->
  (out_of_range path t ->
     forall q, dubins_path_sample path t q = Some (EDUBPARAM, q)) /\
  (~ out_of_range path t ->
     exists pose, forall q, dubins_path_sample path t q = Some (EDUBOK, pose)) /\
  (forall q, exists c q',
     dubins_path_sample path t q = Some (c, q') /\
     (c = EDUBPARAM <-> out_of_range path t)).
Proof.
  intros Hty.
  assert (H1 : out_of_range path t ->
               forall q, dubins_path_sample path t q = Some (EDUBPARAM, q)).
  { intros Hr q. apply out_of_range_dec in Hr.
    unfold dubins_path_sample. rewrite Hr. reflexivity. }
  assert (H2 : ~ out_of_range path t ->
               exists pose, forall q, dubins_path_sample path t q = Some (EDUBOK, pose)).
  { intros Hr. apply dubins_path_sample_in_range; [ assumption | ].
    rewrite out_of_range_dec in Hr. now destruct (_ || _). }
  split; [ exact H1 | split; [ exact H2 | ] ].
  intros q.
  destruct ((t <? 0) || (dubins_path_length path <=? t)) eqn:E.
  - apply out_of_range_dec in E.
    exists EDUBPARAM, q. split; [ now apply H1 | tauto ].
  - assert (Hn : ~ out_of_range path t).
    { rewrite out_of_range_dec, E. discriminate. }
    destruct (H2 Hn) as (pose & Hp).
    exists EDUBOK, pose. split; [ apply Hp | ].
    split; [ discriminate | tauto ].
Qed.

(** ** Sampling at the start of a path *)

Section Start.

Variable h : float.
Hypothesis sin_finite : is_finite (sin h) = true.
Hypothesis cos_finite : is_finite (cos h) = true.
Hypothesis sin_zeros : same_number (sin 0) (sin (- 0)).
Hypothesis cos_zeros : same_number (cos 0) (cos (- 0)).

Lemma same_number_image (f : float -> float) a :
  same_number (f 0) (f (- 0)) -> same_number a h -> same_number (f a) (f h).
Proof.
  intros Hf [ -> | (s & s' & Ha & Hh) ]; [ apply same_number_refl | ].
  destruct (SFzero_cases a) as [ -> | -> ]; [ eexists; eassumption | | ];
    (destruct (SFzero_cases h) as [ -> | -> ]; [ eexists; eassumption | | ]);
    auto using same_number_refl, same_number_sym.
Qed.

Lemma sin_near a b : same_number a h -> same_number b h -> same_number (sin a) (sin b).
Proof.
  intros Ha Hb.
  apply same_number_trans with (y := sin h);
    [ | apply same_number_sym ]; now apply same_number_image.
Qed.

Lemma cos_near a b : same_number a h -> same_number b h -> same_number (cos a) (cos b).
Proof.
  intros Ha Hb.
  apply same_number_trans with (y := cos h);
    [ | apply same_number_sym ]; now apply same_number_image.
Qed.

Lemma sin_near_finite a : same_number a h -> Finf (sin a).
Proof.
  intros Ha. apply same_number_finite with (y := sin h).
  - now apply same_number_image.
  - now apply is_finite_spec.
Qed.

Lemma cos_near_finite a : same_number a h -> Finf (cos a).
Proof.
  intros Ha. apply same_number_finite with (y := cos h).
  - now apply same_number_image.
  - now apply is_finite_spec.
Qed.

(** A segment of length zero stays at the origin. *)
Lemma dubins_segment_zero (t : float) (q : double3) (ty : Z) :
  Z0f t -> at_origin h q -> segment_type ty ->
  exists q', dubins_segment t q ty = Some q' /\ at_origin h q'.
Proof.
  intros Ht (Hx & Hy & Ha) [ -> | [ -> | -> ] ].
  - (* L_SEG *)
    eexists. split; [ reflexivity | ].
    assert (Ha' : same_number (get2 q + t) h).
    { apply same_number_trans with (y := get2 q); [ now apply add_zero_r | exact Ha ]. }
    repeat split; cbv [get0 get1 get2 fst snd]; fold (get0 q) (get1 q) (get2 q).
    + apply add_sub_cancel; [ exact Hx | now apply sin_near | now apply sin_near_finite ].
    + apply sub_add_cancel; [ exact Hy | now apply cos_near | now apply cos_near_finite ].
    + exact Ha'.
  - (* S_SEG *)
    eexists. split; [ reflexivity | ].
    repeat split; cbv [get0 get1 get2 fst snd]; fold (get0 q) (get1 q) (get2 q).
    + apply add_zero_zero; [ exact Hx | ].
      apply mul_zero_r; [ now apply cos_near_finite | exact Ht ].
    + apply add_zero_zero; [ exact Hy | ].
      apply mul_zero_r; [ now apply sin_near_finite | exact Ht ].
    + exact Ha.
  - (* R_SEG *)
    eexists. split; [ reflexivity | ].
    assert (Ha' : same_number (get2 q - t) h).
    { apply same_number_trans with (y := get2 q); [ now apply sub_zero_r | exact Ha ]. }
    repeat split; cbv [get0 get1 get2 fst snd]; fold (get0 q) (get1 q) (get2 q).
    + apply sub_add_cancel; [ exact Hx | now apply sin_near | now apply sin_near_finite ].
    + apply add_sub_cancel; [ exact Hy | now apply cos_near | now apply cos_near_finite ].
    + exact Ha'.
Qed.

End Start.

(** Sampling a valid path at 0. *)
Lemma dubins_path_sample_valid_start (path : DubinsPath) :
  valid_path path ->
  is_finite (rho path) = true ->
  is_finite (sin (get2 (qi path))) = true ->
  is_finite (cos (get2 (qi path))) = true ->
  same_number (sin 0) (sin (- 0)) ->
  same_number (cos 0) (cos (- 0)) ->
  ((0 <? dubins_path_length path) = true ->
     exists pose,
       (forall q, dubins_path_sample path 0 q = Some (EDUBOK, pose)) /\
       same_number (get0 pose) (get0 (qi path)) /\
       same_number (get1 pose) (get1 (qi path)) /\
       get2 pose = mod2pi (get2 (qi path))) /\
  ((dubins_path_length path <=? 0) = true ->
     forall q, dubins_path_sample path 0 q = Some (EDUBPARAM, q)).
Proof.
  intros (V0 & V1 & V2 & Vr & Vt) Hrho Hs Hc Hs0 Hc0. split.
  - intros Hlen.
    unfold dubins_path_sample.
    set (h := get2 (qi path)) in *.
    replace (0 <? 0) with false by reflexivity.
    rewrite (ltb_leb_false _ _ Hlen). cbn [orb].
    destruct (DIRDATA_at_valid _ Vt) as (a & b & c & -> & Ha & Hb & Hc').
    assert (Sa : segment_type a) by (unfold segment_type; tauto).
    assert (Sc : segment_type c) by (unfold segment_type; tauto).
    set (tprime := 0 / rho path).
    assert (Zt : Z0f tprime) by (apply div_zero_pos; exact Vr).
    assert (O0 : at_origin h (0, 0, h)).
    { repeat split; try (exists false; reflexivity). apply same_number_refl. }
    set (p1 := get0 (param path)) in *.
    set (p2 := get1 (param path)) in *.
    destruct (dubins_segment_defined p1 (0, 0, h) a Sa) as (q1 & E1). rewrite E1.
    destruct (dubins_segment_defined p2 q1 b Hb) as (q2 & E2). rewrite E2.
    assert (Hfinal : forall q3, at_origin h q3 ->
              let pose := (get0 q3 * rho path + get0 (qi path),
                           get1 q3 * rho path + get1 (qi path),
                           mod2pi (get2 q3)) in
              same_number (get0 pose) (get0 (qi path)) /\
              same_number (get1 pose) (get1 (qi path)) /\
              get2 pose = mod2pi h).
    { intros q3 (Hx & Hy & Hh). repeat split.
      - apply add_zero_l. apply mul_zero_l; [ exact Hx | now apply is_finite_spec ].
      - apply add_zero_l. apply mul_zero_l; [ exact Hy | now apply is_finite_spec ].
      - apply mod2pi_same. exact Hh. }
    destruct (tprime <? p1) eqn:B1.
    + destruct (dubins_segment_zero h Hs Hc Hs0 Hc0 tprime (0, 0, h) a Zt O0 Sa)
        as (q3 & E3 & O3).
      rewrite E3. eexists. split; [ intros q; reflexivity | exact (Hfinal q3 O3) ].
    + assert (Z1 : Z0f p1) by (apply (zero_of_bounds tprime); assumption).
      destruct (dubins_segment_zero h Hs Hc Hs0 Hc0 p1 (0, 0, h) a Z1 O0 Sa)
        as (q1' & E1' & O1).
      rewrite E1 in E1'. injection E1' as <-.
      destruct (tprime <? p1 + p2) eqn:B2.
      * destruct (dubins_segment_zero h Hs Hc Hs0 Hc0 (tprime - p1) q1 b
                    (sub_zero_zero _ _ Zt Z1) O1 Hb) as (q3 & E3 & O3).
        rewrite E3. eexists. split; [ intros q; reflexivity | exact (Hfinal q3 O3) ].
      * assert (Z2 : Z0f p2).
        { apply (zero_of_bounds tprime); try assumption.
          rewrite <- (same_number_ltb_r tprime (p1 + p2) p2); [ exact B2 | ].
          now apply add_zero_l. }
        destruct (dubins_segment_zero h Hs Hc Hs0 Hc0 p2 q1 b Z2 O1 Hb)
          as (q2' & E2' & O2).
        rewrite E2 in E2'. injection E2' as <-.
        destruct (dubins_segment_zero h Hs Hc Hs0 Hc0 (tprime - p1 - p2) q2 c
                    (sub_zero_zero _ _ (sub_zero_zero _ _ Zt Z1) Z2) O2 Sc)
          as (q3 & E3 & O3).
        rewrite E3. eexists. split; [ intros q; reflexivity | exact (Hfinal q3 O3) ].
  - intros Hlen q. unfold dubins_path_sample. rewrite Hlen, orb_true_r. reflexivity.
Qed.

(** C3, amended.  Let [path] be the result of a successful [dubins_init]
    from [q0], [q1] and a finite [r], with three parameters that are [>= 0],
    and let the library give finite values for the sine and cosine of the
    heading of [q0] and the same number for the sine, and for the cosine, of
    the two zeros.  If [dubins_path_length path > 0], then
    [dubins_path_sample path 0] returns [EDUBOK] and a configuration whose
    [x] and [y] are the same numbers as those of [q0] and whose heading is
    [mod2pi] of the heading of [q0].  If [dubins_path_length path <= 0], as
    for the path from a configuration to itself, it returns [EDUBPARAM]. *)
Theorem dubins_path_sample_start (params0 q0 q1 : double3) (r : float) (path0 path : DubinsPath) :
  dubins_init params0 q0 q1 r path0 = (EDUBOK, path) ->
  (0 <=? get0 (param path)) = true ->
  (0 <=? get1 (param path)) = true ->
  (0 <=? get2 (param path)) = true ->
  is_finite r = true ->
  is_finite (sin (get2 q0)) = true ->
  is_finite (cos (get2 q0)) = true ->
  same_number (sin 0) (sin (- 0)) ->
  same_number (cos 0) (cos (- 0)) ->
  ((0 <? dubins_path_length path) = true ->
     exists pose,
       (forall q, dubins_path_sample path 0 q = Some (EDUBOK, pose)) /\
       same_number (get0 pose) (get0 q0) /\
       same_number (get1 pose) (get1 q0) /\
       get2 pose = mod2pi (get2 q0)) /\
  ((dubins_path_length path <=? 0) = true ->
     forall q, dubins_path_sample path 0 q = Some (EDUBPARAM, q)).
Proof.
  intros Hinit V0 V1 V2 Hr Hs Hc Hs0 Hc0.
  destruct (dubins_init_success _ _ _ _ _ _ Hinit) as (Eq & Er & Hle & Hty & _).
  subst q0 r.
  assert (Vr : (0 <? rho path) = true).
  { apply leb_false_ltb; [ now apply is_finite_not_nan | reflexivity | exact Hle ]. }
  apply dubins_path_sample_valid_start; try assumption.
  unfold valid_path. auto.
Qed.

(** ** Sampling a whole path *)

Section SampleMany.

Context {U : Type}.
Variables (path : DubinsPath) (cb : DubinsPathSamplingCallback U) (stepSize : float).

Lemma dubins_path_sample_defined (t : float) (q : double3) :
  valid_type (type path) -> exists c q', dubins_path_sample path t q = Some (c, q').
Proof.
  intros Hty.
  destruct ((t <? 0) || (dubins_path_length path <=? t)) eqn:E.
  - unfold dubins_path_sample. rewrite E. eauto.
  - destruct (dubins_path_sample_in_range path t Hty E) as (pose & Hp).
    rewrite Hp. eauto.
Qed.

Lemma visit_defined (x : float) (q : double3) (u : U) :
  valid_type (type path) ->
  exists c q' retcode u',
    dubins_path_sample path x q = Some (c, q') /\
    cb q' x u = (retcode, u') /\
    visit path cb x q u = (retcode, (q', u')).
Proof.
  intros Hty. unfold visit.
  destruct (dubins_path_sample_defined x q Hty) as (c & q' & E). rewrite E.
  destruct (cb q' x u) as [ retcode u' ] eqn:Ecb.
  exists c, q', retcode, u'. auto.
Qed.

Local Abbreviation code := (round_code path cb stepSize).
Local Abbreviation after := (user_data_after path cb stepSize).
Local Abbreviation xs := (sample_x stepSize).

Lemma quiet_shift (length : float) (n : nat) (x : float) (q q' : double3) (u u' : U) :
  visit path cb x q u = (0%Z, (q', u')) ->
  (x <? length) = true ->
  (quiet path cb stepSize length (S n) x q u
   <-> quiet path cb stepSize length n (x + stepSize) q' u').
Proof.
  intros Ev Hx. unfold quiet. split.
  - intros H k Hk. specialize (H (S k) ltac:(lia)).
    unfold round_code in *. simpl in H. rewrite Ev in H. exact H.
  - intros H [ | k ] Hk.
    + unfold round_code. simpl. rewrite Ev. auto.
    + specialize (H k ltac:(lia)).
      unfold round_code in *. simpl. rewrite Ev. exact H.
Qed.

Lemma code_shift (n : nat) (x : float) (q q' : double3) (u u' : U) (c : Z) :
  visit path cb x q u = (c, (q', u')) ->
  code (S n) x q u = code n (x + stepSize) q' u' /\
  after (S n) x q u = after n (x + stepSize) q' u'.
Proof.
  intros Ev. unfold round_code, user_data_after. simpl. rewrite Ev. auto.
Qed.

Lemma sample_many_loop_rounds (length : float) :
  valid_type (type path) ->
  forall (n : nat) (x : float) (q : double3) (u : U),
  quiet path cb stepSize length n x q u ->
  ((xs n x <? length) = false ->
     forall fuel, (n < fuel)%nat ->
       sample_many_loop fuel path cb stepSize length x q u = Ret (0%Z, after n x q u)) /\
  ((xs n x <? length) = true -> code n x q u <> 0%Z ->
     forall fuel, (n < fuel)%nat ->
       sample_many_loop fuel path cb stepSize length x q u
         = Ret (code n x q u, after (S n) x q u)).
Proof.
  intros Hty. induction n as [ | n IH ]; intros x q u Hq;
    destruct (visit_defined x q u Hty) as (c & q' & retcode & u' & E & Ecb & Ev).
  - unfold round_code, user_data_after. simpl. rewrite Ev. simpl. split.
    + intros Hx [ | fuel ] Hf; [ lia | ]. simpl. rewrite Hx. reflexivity.
    + intros Hx Hc [ | fuel ] Hf; [ lia | ]. simpl. rewrite Hx, E, Ecb.
      destruct (retcode =? 0)%Z eqn:E0; [ apply Z.eqb_eq in E0; contradiction | ].
      reflexivity.
  - destruct (Hq 0%nat ltac:(lia)) as (Hx0 & Hc0).
    unfold round_code in Hc0. simpl in Hx0, Hc0.
    rewrite Ev in Hc0. simpl in Hc0. subst retcode.
    apply (quiet_shift length n x q q' u u' Ev Hx0) in Hq.
    destruct (code_shift n x q q' u u' 0 Ev) as (-> & _).
    destruct (code_shift (S n) x q q' u u' 0 Ev) as (_ & ->).
    destruct (code_shift n x q q' u u' 0 Ev) as (_ & ->).
    destruct (IH (x + stepSize) q' u' Hq) as [ IH1 IH2 ].
    simpl. split.
    + intros Hx [ | fuel ] Hf; [ lia | ]. simpl.
      rewrite Hx0, E, Ecb. simpl. apply IH1; [ exact Hx | lia ].
    + intros Hx Hc [ | fuel ] Hf; [ lia | ]. simpl.
      rewrite Hx0, E, Ecb. simpl. apply IH2; [ exact Hx | exact Hc | lia ].
Qed.

Lemma sample_many_loop_returns (length : float) :
  valid_type (type path) ->
  forall (fuel : nat) (x : float) (q : double3) (u : U) (r : Z * U),
  sample_many_loop fuel path cb stepSize length x q u = Ret r ->
  exists n, (n < fuel)%nat /\ quiet path cb stepSize length n x q u /\
    (((xs n x <? length) = false /\ r = (0%Z, after n x q u)) \/
     ((xs n x <? length) = true /\ code n x q u <> 0%Z /\
      r = (code n x q u, after (S n) x q u))).
Proof.
  intros Hty. induction fuel as [ | fuel IH ]; intros x q u r Hr; [ discriminate | ].
  destruct (visit_defined x q u Hty) as (c & q' & retcode & u' & E & Ecb & Ev).
  simpl in Hr. destruct (x <? length) eqn:Hx.
  - rewrite E, Ecb in Hr. destruct (retcode =? 0)%Z eqn:E0; simpl in Hr.
    + apply Z.eqb_eq in E0. subst retcode.
      destruct (IH _ _ _ _ Hr) as (n & Hn & Hq & Hres).
      exists (S n). split; [ lia | ].
      split; [ now apply (quiet_shift length n x q q' u u' Ev Hx) | ].
      destruct (code_shift n x q q' u u' 0 Ev) as (-> & ->).
      destruct (code_shift (S n) x q q' u u' 0 Ev) as (_ & ->).
      exact Hres.
    + injection Hr as <-. exists 0%nat. split; [ lia | ].
      split; [ intros k Hk; lia | ].
      right. unfold round_code, user_data_after. simpl. rewrite Ev. simpl.
      apply Z.eqb_neq in E0. auto.
  - injection Hr as <-. exists 0%nat. split; [ lia | ].
    split; [ intros k Hk; lia | ].
    left. split; [ exact Hx | reflexivity ].
Qed.


End SampleMany.

Lemma sample_many_loop_stalls (fuel : nat) :
  forall x q u, tiny_sum x ->
  sample_many_loop fuel straight_path keep_going tiny
    (dubins_path_length straight_path) x q u = Timeout.
Proof.
  induction fuel as [ | fuel IH ]; intros x q u Hx; simpl; [ reflexivity | ].
  rewrite (tiny_sum_below_length x Hx).
  destruct (dubins_path_sample_defined straight_path x q) as (c & q' & ->).
  { unfold valid_type. simpl. unfold LSL. lia. }
  simpl. apply IH. now apply tiny_sum_step.
Qed.

(** ** Sub-paths *)

Lemma double3_eta (a : double3) : (get0 a, get1 a, get2 a) = a.
Proof. destruct a as [ [ a0 a1 ] a2 ]. reflexivity. Qed.

Context {build : Fmin}.

Lemma dubins_extract_subpath_eq (path : DubinsPath) (t : float) (newpath : DubinsPath) :
  dubins_extract_subpath path t newpath =
    (0%Z,
     mkDubinsPath (qi path)
       (let tprime := t / rho path in
        let np0 := fmin (get0 (param path)) tprime in
        let np1 := fmin (get1 (param path)) (tprime - np0) in
        let np2 := fmin (get2 (param path)) (tprime - np0 - np1) in
        (np0, np1, np2))
       (rho path) (type path)).
Proof.
  unfold dubins_extract_subpath, set_param, set_type, set_rho, set_qi. simpl.
  rewrite double3_eta. reflexivity.
Qed.

(** Zeros, of either sign. *)
Lemma same_number_zero x y :
  same_number x y -> SFzero (Prim2SF y) -> SFzero (Prim2SF x).
Proof.
  intros [ -> | (s & s' & E & _) ] H; [ exact H | ]. exists s. exact E.
Qed.

Lemma zero_nonneg x : SFzero (Prim2SF x) -> (0 <=? x) = true /\ (x =? 0) = true.
Proof.
  intros H. destruct (SFzero_cases x H) as [ -> | -> ]; split; reflexivity.
Qed.

Lemma zero_leb x p : SFzero (Prim2SF x) -> (0 <=? p) = true -> (x <=? p) = true.
Proof.
  intros H Hp. apply leb_trans with (b := 0); [ | exact Hp ].
  destruct (SFzero_cases x H) as [ -> | -> ]; reflexivity.
Qed.

(** A parameter [>= 0] clamped to a zero becomes a zero. *)
Lemma fmin_zero (p x : float) :
  (0 <=? p) = true -> SFzero (Prim2SF x) -> SFzero (Prim2SF (fmin p x)).
Proof.
  intros Hp Hx. apply (same_number_zero _ x); [ | exact Hx ].
  apply fmin_lower. now apply zero_leb.
Qed.

(** C7, amended.  [dubins_extract_subpath] returns 0 for every path and
    every [t], in every build.  On a valid path with [t < 0], unless [t]
    and [rho] are both infinite, the first parameter of the new path is
    numerically equal to the quotient [t / rho], and either this quotient is
    negative, the first parameter is the quotient itself and the new path is
    not valid; or the quotient is the negative zero (it has underflowed, or
    [rho] is infinite), the three parameters of the new path are zeros (of
    one sign or the other) and the new path is valid. *)
Theorem dubins_extract_subpath_negative (path : DubinsPath) (t : float) (newpath : DubinsPath) :
  fst (dubins_extract_subpath path t newpath) = 0%Z /\
  (valid_path path -> (t <? 0) = true ->
   is_infinity t && is_infinity (rho path) = false ->
     (get0 (param (snd (dubins_extract_subpath path t newpath))) =? t / rho path) = true /\
     (((t / rho path <? 0) = true /\
       get0 (param (snd (dubins_extract_subpath path t newpath))) = t / rho path /\
       ~ valid_path (snd (dubins_extract_subpath path t newpath)))
      \/
      (t / rho path = neg_zero /\
       (get0 (param (snd (dubins_extract_subpath path t newpath))) =? 0) = true /\
       (get1 (param (snd (dubins_extract_subpath path t newpath))) =? 0) = true /\
       (get2 (param (snd (dubins_extract_subpath path t newpath))) =? 0) = true /\
       valid_path (snd (dubins_extract_subpath path t newpath))))).
Proof.
  rewrite dubins_extract_subpath_eq. cbv zeta. cbn [fst snd param get0 get1 get2].
  split; [ reflexivity | ].
  intros (V0 & V1 & V2 & Vr & Vt) Ht Hinf.
  set (q := t / rho path) in *.
  set (np0 := fmin (get0 (param path)) q).
  set (np1 := fmin (get1 (param path)) (q - np0)).
  set (np2 := fmin (get2 (param path)) (q - np0 - np1)).
  destruct (div_neg_pos t (rho path) Ht Vr Hinf) as [ Hq | Hq ]; fold q in Hq.
  - (* a negative quotient *)
    assert (E0 : np0 = q).
    { apply fmin_gt. apply ltb_leb_trans with (b := 0); assumption. }
    assert (Nq : is_nan q = false).
    { apply (leb_nan q 0). rewrite leb_cases, Hq. reflexivity. }
    split.
    + rewrite E0. apply same_number_eqb; [ apply same_number_refl | exact Nq ].
    + left. split; [ exact Hq | ]. split; [ exact E0 | ].
      intros (W & _). cbn [param get0 fst] in W. fold np0 in W.
      rewrite E0, (ltb_leb_false _ _ Hq) in W. discriminate.
  - (* the negative zero *)
    assert (Zq : SFzero (Prim2SF q)) by (rewrite Hq; exists true; reflexivity).
    assert (Z0 : SFzero (Prim2SF np0)) by (apply fmin_zero; assumption).
    assert (R1 : SFzero (Prim2SF (q - np0))) by (apply sub_zero_zero; assumption).
    assert (Z1 : SFzero (Prim2SF np1)) by (apply fmin_zero; assumption).
    assert (R2 : SFzero (Prim2SF (q - np0 - np1))) by (apply sub_zero_zero; assumption).
    assert (Z2 : SFzero (Prim2SF np2)) by (apply fmin_zero; assumption).
    split.
    + rewrite Hq. destruct (SFzero_cases _ Z0) as [ -> | -> ]; reflexivity.
    + right. split; [ exact Hq | ].
      split; [ apply zero_nonneg, Z0 | ].
      split; [ apply zero_nonneg, Z1 | ].
      split; [ apply zero_nonneg, Z2 | ].
      unfold valid_path. cbn [param rho type get0 get1 get2 fst snd].
      repeat split; try assumption; try apply Vt; apply zero_nonneg; assumption.
Qed.

End Claims.

(** ** The properties on concrete inputs *)

(** C4 at [rho = 0] with equal positions, where [D / rho] is NaN. *)
Lemma dubins_init_bad_rho_witness :
  (0 <=? 0) = true /\
  is_nan (sqrt ((0 - 0) * (0 - 0) + (0 - 0) * (0 - 0)) / 0) = true /\
  dubins_init (libm := ref_libm) (0, 0, 0) (0, 0, 0) (0, 0, 0) 0 stale_path
    = (EDUBBADRHO, stale_path).
Proof.
  split; [ reflexivity | split; [ reflexivity | ] ].
  apply (dubins_init_bad_rho (libm := ref_libm)). reflexivity.
Defined.

(** C1 at [alpha = beta = 0], [d = 4]: LSL, LSR, RSL and RSR all succeed with
    [(0, 4, 0)]; the first of them, LSL, is selected. *)
Lemma dubins_init_normalised_selects_witness :
  (exists i ps, word_succeeds (libm := ref_libm) 0 0 4 i ps /\ (cost ps <? INFINITY) = true) /\
  (exists i ps,
     word_succeeds (libm := ref_libm) 0 0 4 i ps /\
     dubins_init_normalised (libm := ref_libm) (0, 0, 0) 0 0 4 stale_path
       = (EDUBOK, mkDubinsPath (qi stale_path) ps (rho stale_path) i) /\
     (forall j ps', word_succeeds (libm := ref_libm) 0 0 4 j ps' -> (cost ps' <? cost ps) = false) /\
     (forall j ps', word_succeeds (libm := ref_libm) 0 0 4 j ps' -> (j < i)%Z ->
        (cost ps' =? cost ps) = false)) /\
  dubins_init_normalised (libm := ref_libm) (0, 0, 0) 0 0 4 stale_path
    = (EDUBOK, mkDubinsPath (qi stale_path) (0, 4, 0) (rho stale_path) LSL) /\
  dubins_LSR (libm := ref_libm) 0 0 4 (0, 0, 0) = (EDUBOK, (0, 4, 0)).
Proof.
  assert (H : exists i ps, word_succeeds (libm := ref_libm) 0 0 4 i ps /\ (cost ps <? INFINITY) = true).
  { exists LSL, (0, 4, 0). split; [ | reflexivity ].
    split; [ unfold LSL; lia | ].
    exists (@dubins_LSL ref_libm). split; [ reflexivity | ].
    intros o. vm_compute. reflexivity. }
  split; [ exact H | ].
  split; [ exact (proj1 (dubins_init_normalised_selects (libm := ref_libm)
                            (0, 0, 0) 0 0 4 stale_path) H) | ].
  split; vm_compute; reflexivity.
Defined.

(** C1 as stated fails at [alpha = beta = 0], [d = 2^600], with any library
    for which [sin 0 = 0], [cos 0 = 1] and [atan2 0 d = 0]: [d * d]
    overflows, LSL succeeds with [(0, infinity, 0)], whose cost is not below
    [INFINITY], no solver is selected and the result is [EDUBNOPATH].  The
    same happens from [dubins_init] for two configurations one unit apart
    with [rho = 2^-600]. *)
Lemma dubins_init_normalised_infinite_cost :
  (forall (libm : Libm) (params0 o : double3) (path : DubinsPath),
     sin 0 = 0 -> cos 0 = 1 -> atan2 0 huge = 0 ->
     dubins_LSL 0 0 huge o = (EDUBOK, (0, infinity, 0)) /\
     dubins_init_normalised params0 0 0 huge path = (EDUBNOPATH, path)) /\
  word_succeeds (libm := ref_libm) 0 0 huge LSL (0, infinity, 0) /\
  dubins_init_normalised (libm := ref_libm) (0, 0, 0) 0 0 huge stale_path
    = (EDUBNOPATH, stale_path) /\
  dubins_init (libm := ref_libm) (0, 0, 0) (0, 0, 0) (1, 0, 0) 0x1p-600 stale_path
    = (EDUBNOPATH, mkDubinsPath (0, 0, 0) (param stale_path) 0x1p-600 (type stale_path)).
Proof.
  split.
  - intros libm params0 o path Hs Hc Ha. split.
    + now apply dubins_LSL_huge.
    + now apply dubins_init_normalised_huge.
  - split.
    + split; [ unfold LSL; lia | ].
      exists (@dubins_LSL ref_libm). split; [ reflexivity | ].
      intros o. vm_compute. reflexivity.
    + split; vm_compute; reflexivity.
Qed.

(** C10 at two configurations one unit apart with [rho = 2^-600]: the code
    is [EDUBNOPATH], [qi] and [rho] of the stale path are overwritten. *)
Lemma dubins_init_not_atomic_witness :
  (0 <? 0x1p-600) = true /\
  fst (dubins_init (libm := ref_libm) (0, 0, 0) (0, 0, 0) (1, 0, 0) 0x1p-600 stale_path)
    = EDUBNOPATH /\
  snd (dubins_init (libm := ref_libm) (0, 0, 0) (0, 0, 0) (1, 0, 0) 0x1p-600 stale_path)
    = mkDubinsPath (0, 0, 0) (param stale_path) 0x1p-600 (type stale_path).
Proof.
  split; [ reflexivity | ].
  split; [ vm_compute; reflexivity | ].
  destruct (proj1 (dubins_init_not_atomic (libm := ref_libm) (0, 0, 0) (0, 0, 0) (1, 0, 0)
                     0x1p-600 stale_path) eq_refl) as (_ & _ & H).
  apply H. vm_compute. reflexivity.
Defined.

(** C5 on the straight path of length 4. *)
Lemma dubins_path_sample_range_witness :
  valid_type (type straight_path) /\
  dubins_path_sample (libm := ref_libm) straight_path 4 (7, 7, 7) = Some (EDUBPARAM, (7, 7, 7)) /\
  dubins_path_sample (libm := ref_libm) straight_path (-1) (7, 7, 7) = Some (EDUBPARAM, (7, 7, 7)) /\
  dubins_path_sample (libm := ref_libm) straight_path 3 (7, 7, 7) = Some (EDUBOK, (3, 0, 0)).
Proof.
  assert (Hty : valid_type (type straight_path)) by (vm_compute; split; discriminate).
  split; [ exact Hty | ].
  split; [ | split ].
  - apply (dubins_path_sample_range (libm := ref_libm) straight_path 4 Hty).
    right. reflexivity.
  - apply (dubins_path_sample_range (libm := ref_libm) straight_path (-1) Hty).
    left. reflexivity.
  - vm_compute. reflexivity.
Defined.

(** C7 as stated fails on the valid path with parameters [(0, 4, 0)] and
    [rho = 2] at [t = -2^-1074]: the quotient rounds to the negative zero,
    which is not negative, and the new path is valid, with either [fmin].
    With the one of <math.h> the first parameter is the positive zero, not
    the quotient itself. *)
Lemma dubins_extract_subpath_underflow :
  valid_path wide_path /\
  (- 0x1p-1074 <? 0) = true /\
  - 0x1p-1074 / rho wide_path = neg_zero /\
  dubins_extract_subpath (build := math_fmin) wide_path (- 0x1p-1074) stale_path
    = (0%Z, mkDubinsPath (0, 0, 0) (0, - 0, 0) 2 LSL) /\
  dubins_extract_subpath (build := msc_fmin) wide_path (- 0x1p-1074) stale_path
    = (0%Z, mkDubinsPath (0, 0, 0) (- 0, 0, 0) 2 LSL) /\
  (get0 (param (snd (dubins_extract_subpath (build := math_fmin) wide_path (- 0x1p-1074) stale_path)))
     <? 0) = false /\
  (get0 (param (snd (dubins_extract_subpath (build := msc_fmin) wide_path (- 0x1p-1074) stale_path)))
     <? 0) = false /\
  valid_path (snd (dubins_extract_subpath (build := math_fmin) wide_path (- 0x1p-1074) stale_path)) /\
  valid_path (snd (dubins_extract_subpath (build := msc_fmin) wide_path (- 0x1p-1074) stale_path)).
Proof.
  repeat split; try reflexivity; vm_compute; discriminate.
Qed.

(** C7, amended, on the path with parameters [(1, 1, 1)] and [rho = 2] at
    [t = -1], with the [fmin] of the source. *)
Lemma dubins_extract_subpath_negative_witness :
  valid_path unit_path /\ (- (1) <? 0) = true /\
  is_infinity (- (1)) && is_infinity (rho unit_path) = false /\
  (- (1) / rho unit_path <? 0) = true /\
  get0 (param (snd (dubins_extract_subpath (build := msc_fmin) unit_path (- (1)) stale_path)))
    = - (1) / rho unit_path /\
  ~ valid_path (snd (dubins_extract_subpath (build := msc_fmin) unit_path (- (1)) stale_path)).
Proof.
  assert (V : valid_path unit_path) by (repeat split; try reflexivity; vm_compute; discriminate).
  split; [ exact V | ]. split; [ reflexivity | ]. split; [ reflexivity | ].
  destruct (proj2 (dubins_extract_subpath_negative (build := msc_fmin) unit_path (- (1)) stale_path)
              V eq_refl eq_refl) as (_ & [ (H1 & H2 & H3) | (H1 & _) ]).
  - split; [ exact H1 | ]. split; [ exact H2 | exact H3 ].
  - exfalso. revert H1. vm_compute. discriminate.
Defined.

(** C3 as stated fails for the path from [(0, 0, 0)] to itself: synthesis
    succeeds with three parameters [0], and sampling it at 0 is refused. *)
Lemma dubins_path_sample_zero_length :
  dubins_init (libm := ref_libm) (0, 0, 0) (0, 0, 0) (0, 0, 0) 1 stale_path = (EDUBOK, zero_path) /\
  dubins_path_sample (libm := ref_libm) zero_path 0 (7, 7, 7) = Some (EDUBPARAM, (7, 7, 7)).
Proof.
  split; vm_compute; reflexivity.
Qed.

(** C3, amended, on the path synthesized from [(0, 0, 0)] to [(4, 0, 0)]
    with [rho = 1]. *)
Lemma dubins_path_sample_start_witness :
  dubins_init (libm := ref_libm) (0, 0, 0) (0, 0, 0) (4, 0, 0) 1 stale_path = (EDUBOK, straight_path) /\
  (0 <? dubins_path_length straight_path) = true /\
  exists pose,
    (forall q, dubins_path_sample (libm := ref_libm) straight_path 0 q = Some (EDUBOK, pose)) /\
    same_number (get0 pose) 0 /\
    same_number (get1 pose) 0 /\
    get2 pose = mod2pi 0.
Proof.
  assert (E : dubins_init (libm := ref_libm) (0, 0, 0) (0, 0, 0) (4, 0, 0) 1 stale_path
              = (EDUBOK, straight_path)) by (vm_compute; reflexivity).
  split; [ exact E | ]. split; [ reflexivity | ].
  apply (proj1 (dubins_path_sample_start (libm := ref_libm) _ _ _ _ _ _ E
                  eq_refl eq_refl eq_refl eq_refl eq_refl eq_refl
                  (or_intror (ex_intro _ false (ex_intro _ true (conj eq_refl eq_refl))))
                  (or_introl eq_refl))).
  reflexivity.
Defined.



(** C2 at the configurations [(0, 0, 2^-1074)] and [(1, 0, 2^-1074)] with
    [rho = 1]: [x / (2 * M_PI)] underflows to the negative zero for
    [x = -2^-1074], so that [mod2pi x] is [x] itself, a negative number.
    With any library for which [sin x = x] and [cos x] is finite at
    [x = 2^-1074], [cos 0 = 1] and [atan2 0 1 = 0], the solver LSL succeeds
    with this number as its first result; [dubins_init] selects LSL and
    stores it as the first parameter of the path. *)
Lemma dubins_init_negative_parameter :
  mod2pi (- tiny) = - tiny /\
  (- tiny <? 0) = true /\
  (forall (libm : Libm) (o : double3),
     sin tiny = tiny -> is_finite (cos tiny) = true -> cos 0 = 1 -> atan2 0 1 = 0 ->
     dubins_LSL tiny tiny 1 o = (EDUBOK, (- tiny, 1, tiny))) /\
  dubins_init (libm := ref_libm) (0, 0, 0) (0, 0, tiny) (1, 0, tiny) 1 stale_path
    = (EDUBOK, mkDubinsPath (0, 0, tiny) (- tiny, 1, tiny) 1 LSL) /\
  (0 <=? get0 (- tiny, 1, tiny)) = false.
Proof.
  split; [ reflexivity | ]. split; [ reflexivity | ].
  split; [ intros libm o; apply dubins_LSL_tiny_heading | ].
  split; vm_compute; reflexivity.
Qed.

(** * Further properties of the program *)

(** ** Not-a-number *)

Lemma is_nan_eq x : is_nan x = true -> x = nan.
Proof.
  intros H. apply Prim2SF_inj. apply is_nan_spec in H. rewrite H. reflexivity.
Qed.

Lemma add_nan_l x : nan + x = nan.
Proof.
  apply Prim2SF_inj. rewrite add_spec. reflexivity.
Qed.

Lemma add_nan_r x : x + nan = nan.
Proof.
  apply Prim2SF_inj. rewrite add_spec. change (Prim2SF nan) with S754_nan.
  destruct (Prim2SF x); reflexivity.
Qed.

Lemma sub_nan_l x : nan - x = nan.
Proof.
  apply Prim2SF_inj. rewrite sub_spec. reflexivity.
Qed.

Lemma sub_nan_r x : x - nan = nan.
Proof.
  apply Prim2SF_inj. rewrite sub_spec. change (Prim2SF nan) with S754_nan.
  destruct (Prim2SF x); reflexivity.
Qed.

Lemma mul_nan_l x : nan * x = nan.
Proof.
  apply Prim2SF_inj. rewrite mul_spec. reflexivity.
Qed.

Lemma mul_nan_r x : x * nan = nan.
Proof.
  apply Prim2SF_inj. rewrite mul_spec. change (Prim2SF nan) with S754_nan.
  destruct (Prim2SF x); reflexivity.
Qed.

Lemma div_nan_l x : nan / x = nan.
Proof.
  apply Prim2SF_inj. rewrite div_spec. reflexivity.
Qed.

Lemma div_nan_r x : x / nan = nan.
Proof.
  apply Prim2SF_inj. rewrite div_spec. change (Prim2SF nan) with S754_nan.
  destruct (Prim2SF x); reflexivity.
Qed.

Lemma ltb_nan_l x : (nan <? x) = false.
Proof. rewrite ltb_spec. reflexivity. Qed.

Lemma ltb_nan_r x : (x <? nan) = false.
Proof.
  rewrite ltb_spec. change (Prim2SF nan) with S754_nan.
  destruct (Prim2SF x) as [ [ | ] | [ | ] | | [ | ] ? ? ]; reflexivity.
Qed.

Lemma leb_nan_l x : (nan <=? x) = false.
Proof. rewrite leb_spec. reflexivity. Qed.

Lemma leb_nan_r x : (x <=? nan) = false.
Proof.
  rewrite leb_spec. change (Prim2SF nan) with S754_nan.
  destruct (Prim2SF x) as [ [ | ] | [ | ] | | [ | ] ? ? ]; reflexivity.
Qed.

(** A sum that is a number has two numbers as its terms. *)
Lemma add_not_nan a b : is_nan (a + b) = false -> is_nan a = false /\ is_nan b = false.
Proof.
  intros H.
  destruct (is_nan a) eqn:Ha.
  - rewrite (is_nan_eq _ Ha), add_nan_l in H. discriminate.
  - destruct (is_nan b) eqn:Hb; [ | auto ].
    rewrite (is_nan_eq _ Hb), add_nan_r in H. discriminate.
Qed.

Lemma ltb_not_nan a b : (a <? b) = true -> is_nan a = false /\ is_nan b = false.
Proof.
  intros H.
  destruct (is_nan a) eqn:Ha.
  - rewrite (is_nan_eq _ Ha), ltb_nan_l in H. discriminate.
  - destruct (is_nan b) eqn:Hb; [ | auto ].
    rewrite (is_nan_eq _ Hb), ltb_nan_r in H. discriminate.
Qed.

Lemma sqrt_nan : sqrt nan = nan.
Proof. reflexivity. Qed.

Lemma mod2pi_nan : mod2pi nan = nan.
Proof. reflexivity. Qed.

(** ** Signs of sums, products and square roots *)

Lemma SFsigned_false_leb x : SFsigned false x -> SFleb (S754_zero false) x = true.
Proof.
  destruct x as [ s | s | | s m e ]; simpl; try contradiction; intros ->; reflexivity.
Qed.

Lemma SFsigned_true_leb x : SFsigned true x -> SFleb x (S754_zero false) = true.
Proof.
  destruct x as [ s | s | | s m e ]; simpl; try contradiction; intros ->; reflexivity.
Qed.

Lemma binary_normalize_signed (s : bool) (m : positive) (e : Z) :
  SFsigned s (binary_normalize prec emax (cond_Zopp s (Zpos m)) e false).
Proof.
  destruct s; simpl; unfold binary_round;
    destruct (shl_align _ _ _) as [ mz ez ]; apply binary_round_aux_signed; lia.
Qed.

Lemma add_nonneg a b :
  (0 <=? a) = true -> (0 <=? b) = true -> (0 <=? a + b) = true.
Proof.
  rewrite !leb_spec, add_spec. change (Prim2SF 0) with (S754_zero false).
  destruct (Prim2SF a) as [ [ | ] | [ | ] | | [ | ] ma ea ],
           (Prim2SF b) as [ [ | ] | [ | ] | | [ | ] mb eb ];
    try discriminate; try (intros _ _; reflexivity).
  intros _ _. apply SFsigned_false_leb. unfold SF64add, SFadd.
  apply (binary_normalize_signed false).
Qed.

Lemma add_nonpos a b :
  (a <=? 0) = true -> (b <=? 0) = true -> (a + b <=? 0) = true.
Proof.
  rewrite !leb_spec, add_spec. change (Prim2SF 0) with (S754_zero false).
  destruct (Prim2SF a) as [ [ | ] | [ | ] | | [ | ] ma ea ],
           (Prim2SF b) as [ [ | ] | [ | ] | | [ | ] mb eb ];
    try discriminate; try (intros _ _; reflexivity).
  intros _ _. apply SFsigned_true_leb. unfold SF64add, SFadd.
  apply (binary_normalize_signed true).
Qed.

(** A number [>= 0] times a number [> 0] is not negative; it is NaN only
    for zero times infinity. *)
Lemma mul_nonneg_pos a r :
  (0 <=? a) = true -> (0 <? r) = true ->
  (a * r <? 0) = false /\ (is_finite r = true -> (0 <=? a * r) = true).
Proof.
  intros Ha Hr.
  assert (Hf : is_finite r = true -> SFfinite (Prim2SF r)) by apply is_finite_spec.
  revert Ha Hr Hf.
  rewrite !leb_spec, !ltb_spec, mul_spec. change (Prim2SF 0) with (S754_zero false).
  destruct (Prim2SF a) as [ [ | ] | [ | ] | | [ | ] ma ea ],
           (Prim2SF r) as [ [ | ] | [ | ] | | [ | ] mr er ];
    try discriminate;
    try (intros _ _ Hf; split; [ reflexivity | intros F; try reflexivity; destruct (Hf F) ]).
  intros _ _ _.
  pose proof (binary_round_aux_signed prec emax false (Zpos (ma * mr)) (ea + er) loc_Exact
                ltac:(lia)) as S.
  unfold SF64mul, SFmul. simpl xorb.
  destruct (binary_round_aux _ _ _ _ _ _) as [ s | s | | s m e ]; simpl in S;
    try contradiction; subst; split; reflexivity.
Qed.

Lemma SFsqrt_core_binary_nonneg p e m ex :
  (0 <= fst (fst (SFsqrt_core_binary p e (Zpos m) ex)))%Z.
Proof.
  unfold SFsqrt_core_binary.
  set (m' := match _ with Zpos _ => _ | Z0 => _ | Zneg _ => _ end).
  pose proof (Z.sqrtrem_sqrt m') as E. pose proof (Z.sqrt_nonneg m') as H.
  destruct (Z.sqrtrem m') as [ q r ]. simpl in *. lia.
Qed.

(** A square root that is a number is [>= 0]. *)
Lemma sqrt_nonneg x : is_nan (sqrt x) = false -> (0 <=? sqrt x) = true.
Proof.
  rewrite is_nan_false, leb_spec, sqrt_spec. change (Prim2SF 0) with (S754_zero false).
  destruct (Prim2SF x) as [ [ | ] | [ | ] | | [ | ] m e ]; simpl;
    try reflexivity; try congruence.
  intros _. apply SFsigned_false_leb.
  pose proof (SFsqrt_core_binary_nonneg prec emax m e) as H.
  unfold SF64sqrt, SFsqrt.
  destruct (SFsqrt_core_binary prec emax (Zpos m) e) as [ [ mz ez ] lz ].
  now apply binary_round_aux_signed.
Qed.

(** ** Comparisons with the same number on the left *)

Lemma SFcompare_same_l c x y : SFsame x y -> SFcompare x c = SFcompare y c.
Proof.
  intros [ -> | ((s & ->) & (s' & ->)) ]; [ reflexivity | ].
  destruct c as [ [ | ] | [ | ] | | [ | ] m e ]; reflexivity.
Qed.

Lemma same_number_ltb_l c x y : same_number x y -> (x <? c) = (y <? c).
Proof.
  intros H. apply same_number_SF in H. rewrite !ltb_spec. unfold SFltb.
  now rewrite (SFcompare_same_l _ _ _ H).
Qed.

Lemma same_number_leb_l c x y : same_number x y -> (x <=? c) = (y <=? c).
Proof.
  intros H. apply same_number_SF in H. rewrite !leb_spec. unfold SFleb.
  now rewrite (SFcompare_same_l _ _ _ H).
Qed.

(** ** The infinities *)

Lemma not_below_infinity a : is_nan a = false -> (a <? infinity) = false -> a = infinity.
Proof.
  rewrite is_nan_false, ltb_spec. change (Prim2SF infinity) with (S754_infinity false).
  intros Hn H. apply Prim2SF_inj. change (Prim2SF infinity) with (S754_infinity false).
  destruct (Prim2SF a) as [ [ | ] | [ | ] | | [ | ] m e ]; try discriminate; congruence.
Qed.

Lemma leb_refl a : is_nan a = false -> (a <=? a) = true.
Proof.
  rewrite is_nan_false, leb_spec. intros H. unfold SFleb.
  now rewrite SFcompare_refl.
Qed.

Create Rewrite HintDb nans.

#[local] Hint Rewrite add_nan_l add_nan_r sub_nan_l sub_nan_r mul_nan_l mul_nan_r
  div_nan_l div_nan_r ltb_nan_l ltb_nan_r mod2pi_nan sqrt_nan : nans.

Section Synthesis.

Context {libm : Libm}.

(** ** Synthesis: what is stored, and what is never read *)

(** The words of the table, by index. *)
Lemma dubins_words_at (i : Z) (w : DubinsWord) :
  (0 <= i)%Z -> nth_error dubins_words (Z.to_nat i) = Some w ->
  (i = LSL /\ w = dubins_LSL) \/ (i = LSR /\ w = dubins_LSR) \/
  (i = RSL /\ w = dubins_RSL) \/ (i = RSR /\ w = dubins_RSR) \/
  (i = RLR /\ w = dubins_RLR) \/ (i = LRL /\ w = dubins_LRL).
Proof.
  intros Hi Hn.
  assert (Hlt : (Z.to_nat i < length dubins_words)%nat).
  { apply nth_error_Some. rewrite Hn. discriminate. }
  simpl in Hlt.
  assert (Hc : (i = 0 \/ i = 1 \/ i = 2 \/ i = 3 \/ i = 4 \/ i = 5)%Z) by lia.
  unfold LSL, LSR, RSL, RSR, RLR, LRL.
  destruct Hc as [-> | [-> | [-> | [-> | [-> | ->]]]]]; simpl in Hn;
    injection Hn as <-; tauto.
Qed.

(** A solver of the first four words succeeds with a square root as its
    second result. *)
Lemma straight_word_root (alpha beta d : float) (i : Z) (ps : double3) :
  word_succeeds alpha beta d i ps -> (i <= RSR)%Z ->
  exists x, get1 ps = sqrt x.
Proof.
  intros (Hi & w & Hn & Hs) Hle. specialize (Hs (0, 0, 0)).
  destruct (dubins_words_at i w Hi Hn)
    as [ (-> & ->) | [ (-> & ->) | [ (-> & ->) | [ (-> & ->) | [ (-> & ->) | (-> & ->) ] ] ] ] ];
    try (unfold RSR, RLR, LRL in Hle; lia).
  - unfold dubins_LSL in Hs. destruct (_ <? 0); [ discriminate | ].
    injection Hs as <-. eexists. reflexivity.
  - unfold dubins_LSR in Hs. destruct (_ <? 0); [ discriminate | ].
    injection Hs as <-. eexists. reflexivity.
  - unfold dubins_RSL in Hs. destruct (_ <? 0); [ discriminate | ].
    injection Hs as <-. eexists. reflexivity.
  - unfold dubins_RSR in Hs. destruct (_ <? 0); [ discriminate | ].
    injection Hs as <-. eexists. reflexivity.
Qed.

(** A cost below [INFINITY] is the sum of three numbers. *)
Lemma cost_below_infinity (ps : double3) :
  (cost ps <? INFINITY) = true ->
  is_nan (get0 ps) = false /\ is_nan (get1 ps) = false /\ is_nan (get2 ps) = false.
Proof.
  intros H. apply ltb_not_nan in H. destruct H as (H & _). unfold cost in H.
  apply add_not_nan in H. destruct H as (H & H2).
  apply add_not_nan in H. tauto.
Qed.

(** At a distance that is not a number no solver gives a cost below
    [INFINITY]. *)
Lemma dubins_words_nan (alpha beta : float) (i : Z) (ps : double3) :
  acos nan = nan ->
  word_succeeds alpha beta nan i ps -> (cost ps <? INFINITY) = false.
Proof.
  intros Hacos (Hi & w & Hn & Hs). specialize (Hs (0, 0, 0)).
  assert (E : get1 ps = nan); [ | unfold cost; rewrite E; now autorewrite with nans ].
  destruct (dubins_words_at i w Hi Hn)
    as [ (-> & ->) | [ (-> & ->) | [ (-> & ->) | [ (-> & ->) | [ (-> & ->) | (-> & ->) ] ] ] ] ];
    revert Hs;
    cbv beta zeta delta [dubins_LSL dubins_LSR dubins_RSL dubins_RSR dubins_RLR dubins_LRL];
    autorewrite with nans; unfold fabs; change (abs nan) with nan;
    autorewrite with nans; rewrite ?Hacos; autorewrite with nans;
    intros Hs; injection Hs as <-; reflexivity.
Qed.

Lemma dubins_init_normalised_nan (params0 : double3) (alpha beta : float) (path : DubinsPath) :
  acos nan = nan ->
  dubins_init_normalised params0 alpha beta nan path = (EDUBNOPATH, path).
Proof.
  intros Hacos.
  destruct (dubins_init_normalised_spec params0 alpha beta nan path)
    as [ (_ & E) | (i & ps & Hs & Hc & _) ]; [ exact E | ].
  rewrite (dubins_words_nan alpha beta i ps Hacos Hs) in Hc. discriminate.
Qed.

Lemma ltb_infinity_add a b :
  (a + b <? INFINITY) = true -> (a <? INFINITY) = true /\ (b <? INFINITY) = true.
Proof.
  unfold INFINITY. rewrite !ltb_spec, add_spec.
  change (Prim2SF infinity) with (S754_infinity false).
  destruct (Prim2SF a) as [ [ | ] | [ | ] | | [ | ] ma ea ],
           (Prim2SF b) as [ [ | ] | [ | ] | | [ | ] mb eb ];
    try discriminate; intros _; split; reflexivity.
Qed.

(** The solver whose results a successful synthesis stores. *)
Lemma dubins_init_word (params0 q0 q1 : double3) (r : float) (path0 path : DubinsPath) :
  dubins_init params0 q0 q1 r path0 = (EDUBOK, path) ->
  exists alpha beta,
    word_succeeds alpha beta
      (sqrt ((get0 q1 - get0 q0) * (get0 q1 - get0 q0)
             + (get1 q1 - get1 q0) * (get1 q1 - get1 q0)) / r)
      (type path) (param path) /\
    (cost (param path) <? INFINITY) = true.
Proof.
  unfold dubins_init. destruct (r <=? 0) eqn:Hr; [ discriminate | ].
  match goal with
  | |- context [ dubins_init_normalised ?p0 ?a ?b ?d ?p ] =>
      destruct (dubins_init_normalised_spec p0 a b d p)
        as [ (_ & E) | (i & ps & Hs & Hc & E & _) ]; rewrite E
  end.
  - discriminate.
  - intros H. injection H as <-. simpl. eauto.
Qed.

(** X1.  [dubins_init] returns one of the three codes [EDUBOK],
    [EDUBBADRHO] and [EDUBNOPATH], and [EDUBBADRHO] exactly when
    [rho <= 0].  When it returns [EDUBOK], the path holds [q0] as its
    initial configuration and [rho] as given, [dubins_path_type] of it is
    one of the six words, so that the table [DIRDATA] has a row for it, and
    each of its three parameters compares below [INFINITY]: none is NaN or
    the positive infinity. *)
Theorem dubins_init_outcome (params0 q0 q1 : double3) (r : float) (path0 : DubinsPath) :
  (fst (dubins_init params0 q0 q1 r path0) = EDUBOK \/
   fst (dubins_init params0 q0 q1 r path0) = EDUBBADRHO \/
   fst (dubins_init params0 q0 q1 r path0) = EDUBNOPATH) /\
  (fst (dubins_init params0 q0 q1 r path0) = EDUBBADRHO <-> (r <=? 0) = true) /\
  (fst (dubins_init params0 q0 q1 r path0) = EDUBOK ->
     qi (snd (dubins_init params0 q0 q1 r path0)) = q0 /\
     rho (snd (dubins_init params0 q0 q1 r path0)) = r /\
     (LSL <= dubins_path_type (snd (dubins_init params0 q0 q1 r path0)) <= LRL)%Z /\
     (exists types,
        DIRDATA_at (dubins_path_type (snd (dubins_init params0 q0 q1 r path0))) = Some types) /\
     (get0 (param (snd (dubins_init params0 q0 q1 r path0))) <? INFINITY) = true /\
     (get1 (param (snd (dubins_init params0 q0 q1 r path0))) <? INFINITY) = true /\
     (get2 (param (snd (dubins_init params0 q0 q1 r path0))) <? INFINITY) = true).
Proof.
  destruct (dubins_init params0 q0 q1 r path0) as [ code path ] eqn:E. simpl.
  assert (Hcode : (code = EDUBBADRHO /\ (r <=? 0) = true) \/
                  ((r <=? 0) = false /\ (code = EDUBOK \/ code = EDUBNOPATH))).
  { revert E. unfold dubins_init. destruct (r <=? 0).
    - intros E. injection E as <- _. auto.
    - match goal with
      | |- context [ dubins_init_normalised ?p0 ?a ?b ?d ?p ] =>
          destruct (dubins_init_normalised_spec p0 a b d p)
            as [ (_ & ->) | (i & ps & _ & _ & -> & _) ]
      end; intros E; injection E as <- _; auto. }
  split; [ | split ].
  - tauto.
  - unfold EDUBBADRHO, EDUBOK, EDUBNOPATH in *.
    destruct Hcode as [ (-> & ->) | (-> & [ -> | -> ]) ]; split; congruence.
  - intros ->.
    destruct (dubins_init_success _ _ _ _ _ _ E) as (Hq & Hr & _ & Hty & Hc).
    split; [ exact Hq | ]. split; [ exact Hr | ].
    split; [ exact Hty | ].
    split.
    + destruct (DIRDATA_at_valid _ Hty) as (a & b & c & Hd & _). unfold dubins_path_type. eauto.
    + unfold cost in Hc. apply ltb_infinity_add in Hc. destruct Hc as (Hc & H2).
      apply ltb_infinity_add in Hc. tauto.
Qed.

(** X2.  Let the library give NaN for the arc cosine of NaN.  When [rho]
    is not [<= 0] and the normalised distance [D / rho] is NaN (a NaN
    coordinate, a NaN [rho], or an infinite distance with an infinite
    [rho]), [dubins_init] returns [EDUBNOPATH], not [EDUBBADRHO], and the
    path has just its initial configuration and [rho] overwritten. *)
Theorem dubins_init_nan_distance (params0 q0 q1 : double3) (r : float) (path : DubinsPath) :
  acos nan = nan ->
  (r <=? 0) = false ->
  is_nan (sqrt ((get0 q1 - get0 q0) * (get0 q1 - get0 q0)
                + (get1 q1 - get1 q0) * (get1 q1 - get1 q0)) / r) = true ->
  dubins_init params0 q0 q1 r path
    = (EDUBNOPATH, mkDubinsPath q0 (param path) r (type path)).
Proof.
  intros Hacos Hr Hd. unfold dubins_init. rewrite Hr.
  rewrite (is_nan_eq _ Hd). now rewrite dubins_init_normalised_nan.
Qed.

(** X3.  Let the library give NaN for the arc cosine of NaN.  A path that
    [dubins_init] returns with [EDUBOK] has [rho > 0]: a NaN [rho] passes
    the test [rho <= 0], but then no solver gives a cost below
    [INFINITY]. *)
Theorem dubins_init_positive_rho (params0 q0 q1 : double3) (r : float) (path0 path : DubinsPath) :
  acos nan = nan ->
  dubins_init params0 q0 q1 r path0 = (EDUBOK, path) ->
  (0 <? rho path) = true.
Proof.
  intros Hacos E.
  destruct (dubins_init_success _ _ _ _ _ _ E) as (_ & -> & Hle & _).
  destruct (is_nan r) eqn:Hn.
  - revert E. unfold dubins_init. rewrite Hle, (is_nan_eq _ Hn), div_nan_r.
    rewrite dubins_init_normalised_nan by exact Hacos. discriminate.
  - apply leb_false_ltb; [ exact Hn | reflexivity | exact Hle ].
Qed.

(** X4.  When [dubins_init] returns [EDUBOK] with one of the words LSL,
    LSR, RSL and RSR, the second parameter of the path, the length of its
    straight segment, is [>= 0]: it is a square root, and it is not NaN. *)
Theorem dubins_init_straight_segment (params0 q0 q1 : double3) (r : float) (path0 path : DubinsPath) :
  dubins_init params0 q0 q1 r path0 = (EDUBOK, path) ->
  (dubins_path_type path <= RSR)%Z ->
  (0 <=? get1 (param path)) = true.
Proof.
  intros E Hty.
  destruct (dubins_init_word _ _ _ _ _ _ E) as (alpha & beta & Hs & Hc).
  destruct (straight_word_root _ _ _ _ _ Hs Hty) as (x & Hx).
  apply cost_below_infinity in Hc. destruct Hc as (_ & Hn & _).
  rewrite Hx in *. now apply sqrt_nonneg.
Qed.

(** *** The uninitialised array of [dubins_init_normalised] *)

Lemma search_loop_params (alpha beta d : float) (ws : list DubinsWord) :
  Forall well_behaved ws ->
  forall (i : Z) (s s' : search),
  s_best_cost s = s_best_cost s' -> s_best_word s = s_best_word s' -> s_path s = s_path s' ->
  s_best_cost (search_loop alpha beta d ws i s) = s_best_cost (search_loop alpha beta d ws i s') /\
  s_best_word (search_loop alpha beta d ws i s) = s_best_word (search_loop alpha beta d ws i s') /\
  s_path (search_loop alpha beta d ws i s) = s_path (search_loop alpha beta d ws i s').
Proof.
  induction 1 as [ | w ws Hw Hws IH ]; intros i s s' E1 E2 E3; simpl; [ auto | ].
  apply IH; unfold search_step;
    destruct (Hw alpha beta d) as [ Hfail | [ ps Hok ] ];
    rewrite ?Hfail, ?Hok; simpl; rewrite ?E1, ?E2, ?E3;
    try reflexivity; destruct (_ <? _); reflexivity.
Qed.

(** X5.  The result of [dubins_init_normalised], and so that of
    [dubins_init], does not depend on what its local array [params] holds
    before the first solver writes to it: the array is read only after a
    solver has succeeded, and a solver that succeeds writes all of it. *)
Theorem dubins_init_uninitialised (params0 params0' : double3) :
  (forall alpha beta d path,
     dubins_init_normalised params0 alpha beta d path
       = dubins_init_normalised params0' alpha beta d path) /\
  (forall q0 q1 r path,
     dubins_init params0 q0 q1 r path = dubins_init params0' q0 q1 r path).
Proof.
  assert (H : forall alpha beta d path,
     dubins_init_normalised params0 alpha beta d path
       = dubins_init_normalised params0' alpha beta d path).
  { intros alpha beta d path. unfold dubins_init_normalised.
    destruct (search_loop_params alpha beta d dubins_words dubins_words_well_behaved 0
                (mkSearch params0 INFINITY (-1) path) (mkSearch params0' INFINITY (-1) path)
                eq_refl eq_refl eq_refl) as (_ & -> & ->).
    reflexivity. }
  split; [ exact H | ].
  intros q0 q1 r path. unfold dubins_init. now rewrite H.
Qed.

End Synthesis.

(** ** [floor] and [fmodr] outside the finite numbers *)

Lemma is_finite_SF x : is_finite x = true <-> SFfinite (Prim2SF x).
Proof.
  split; [ apply is_finite_spec | ].
  intros H. unfold is_finite. rewrite negb_true_iff, orb_false_iff. split.
  - apply is_nan_false. intros F. rewrite F in H. exact H.
  - destruct (is_infinity x) eqn:E; [ | reflexivity ].
    apply is_infinity_spec in E. destruct E as (s & E). rewrite E in H. destruct H.
Qed.

Lemma is_zero_SF x : is_zero x = true <-> SFzero (Prim2SF x).
Proof.
  unfold is_zero. rewrite eqb_spec. change (Prim2SF 0) with (S754_zero false).
  unfold SFzero.
  destruct (Prim2SF x) as [ s | [ | ] | | [ | ] m e ]; unfold SFeqb; simpl; split;
    try discriminate; eauto; intros (s' & F); discriminate.
Qed.

Lemma floor_special x :
  match Prim2SF x with S754_finite _ _ _ => False | _ => True end -> floor x = x.
Proof.
  unfold floor. destruct (Prim2SF x); try reflexivity. contradiction.
Qed.

Lemma fmodr_special x y :
  is_finite x = false \/ is_finite y = false \/ is_zero y = true ->
  is_nan (fmodr x y) = true.
Proof.
  intros H.
  assert (H' : ~ SFfinite (Prim2SF x) \/ ~ SFfinite (Prim2SF y) \/ SFzero (Prim2SF y)).
  { rewrite <- !is_finite_SF, <- is_zero_SF.
    destruct H as [ H | [ H | H ] ]; rewrite H; auto. }
  clear H. apply is_nan_spec. unfold fmodr. rewrite sub_spec, mul_spec.
  assert (S : match Prim2SF (x / y) with S754_finite _ _ _ => False | _ => True end /\
              SF64sub (Prim2SF x) (SF64mul (Prim2SF y) (Prim2SF (x / y))) = S754_nan);
    [ | destruct S as (S & E); now rewrite (floor_special _ S) ].
  rewrite div_spec. unfold SFfinite, SFzero in H'.
  destruct (Prim2SF x) as [ [ | ] | [ | ] | | [ | ] mx ex ],
           (Prim2SF y) as [ [ | ] | [ | ] | | [ | ] my ey ];
    try (split; [ exact I | reflexivity ]);
    exfalso; destruct H' as [ F | [ F | (s & F) ] ]; try (apply F; exact I); discriminate.
Qed.

(** ** [fmin] *)

Lemma ltb_false_leb a b :
  is_nan a = false -> is_nan b = false -> (a <? b) = false -> (b <=? a) = true.
Proof.
  intros Ha Hb H. destruct (b <=? a) eqn:E; [ reflexivity | ].
  rewrite (leb_false_ltb _ _ Hb Ha E) in H. discriminate.
Qed.

(** A NaN first operand is ignored by both definitions. *)
Lemma fmin_nan_l {build : Fmin} (b : float) : fmin nan b = b.
Proof.
  destruct (fmin_build nan b) as [ -> | -> ]; [ unfold fmin_math | unfold fmin_msc ].
  - rewrite leb_nan_l, ltb_nan_r. destruct (is_nan b) eqn:Hb; [ | reflexivity ].
    symmetry. now apply is_nan_eq.
  - rewrite ltb_nan_l. reflexivity.
Qed.

Lemma fmin_same {build : Fmin} (b : float) : fmin b b = b.
Proof. destruct (fmin_operand b b) as [ E | E ]; exact E. Qed.

Lemma fmin_idem {build : Fmin} (a b : float) : fmin (fmin a b) b = fmin a b.
Proof.
  destruct (fmin_operand a b) as [ E | E ]; rewrite E; [ exact E | apply fmin_same ].
Qed.

(** A NaN second operand: the one of <math.h> ignores it, the one of the
    source returns it. *)
Lemma fmin_math_nan_r (a : float) : fmin_math a nan = a.
Proof. unfold fmin_math. rewrite leb_nan_r, ltb_nan_l. reflexivity. Qed.

Lemma fmin_msc_nan_r (a : float) : fmin_msc a nan = nan.
Proof. unfold fmin_msc. rewrite ltb_nan_r. reflexivity. Qed.

(** The minimum with the positive infinity. *)
Lemma fmin_infinity {build : Fmin} (a : float) : is_nan a = false -> fmin a infinity = a.
Proof.
  intros Ha. destruct (a <? infinity) eqn:E; [ now apply fmin_lt | ].
  rewrite (not_below_infinity a Ha E). apply fmin_same.
Qed.

Lemma sub_infinity (a : float) : (a <? infinity) = true -> infinity - a = infinity.
Proof.
  rewrite ltb_spec. intros H. apply Prim2SF_inj. rewrite sub_spec. revert H.
  change (Prim2SF infinity) with (S754_infinity false).
  destruct (Prim2SF a) as [ [ | ] | [ | ] | | [ | ] m e ]; try discriminate; reflexivity.
Qed.

(** With an infinite [t / rho], parameters below the infinity are kept. *)
Lemma subpath_params_infinity {build : Fmin} (p0 p1 p2 : float) :
  (p0 <? infinity) = true -> (p1 <? infinity) = true -> is_nan p2 = false ->
  fmin p0 infinity = p0 /\
  fmin p1 (infinity - p0) = p1 /\
  fmin p2 (infinity - p0 - p1) = p2.
Proof.
  intros H0 H1 H2.
  rewrite (sub_infinity _ H0), (sub_infinity _ H1).
  repeat split; [ now apply fmin_lt | now apply fmin_lt | now apply fmin_infinity ].
Qed.

Section Paths.

Context {libm : Libm}.

(** ** Lengths *)

Lemma get_cases (a : double3) (i : Z) (v : float) :
  get a i = Some v -> v = get0 a \/ v = get1 a \/ v = get2 a.
Proof.
  destruct i as [ | [ [ | | ] | [ | | ] | ] | ]; simpl; intros H; try discriminate;
    injection H as <-; auto.
Qed.

(** X6.  On a path that satisfies the invariant (three parameters [>= 0],
    [rho > 0]), [dubins_path_length] and [dubins_segment_length], for every
    index, are never negative; when [rho] is finite they are [>= 0], so not
    NaN either.  (With an infinite [rho] a parameter 0 gives the NaN
    [0 * infinity].) *)
Theorem dubins_path_length_nonneg (path : DubinsPath) :
  valid_path path ->
  (dubins_path_length path <? 0) = false /\
  (forall i, (dubins_segment_length path i <? 0) = false) /\
  (is_finite (rho path) = true ->
     (0 <=? dubins_path_length path) = true /\
     (forall i, (0 <=? dubins_segment_length path i) = true)).
Proof.
  intros (V0 & V1 & V2 & Vr & _).
  assert (Hsum : (0 <=? 0 + get0 (param path) + get1 (param path) + get2 (param path)) = true).
  { repeat apply add_nonneg; auto. }
  assert (Hseg : forall i,
    dubins_segment_length path i = INFINITY \/
    exists v, (0 <=? v) = true /\ dubins_segment_length path i = v * rho path).
  { intros i. unfold dubins_segment_length.
    destruct ((i <? 0) || (2 <? i))%Z; [ now left | ].
    destruct (get (param path) i) as [ v | ] eqn:G; [ right | now left ].
    exists v. split; [ | reflexivity ].
    destruct (get_cases _ _ _ G) as [ -> | [ -> | -> ] ]; assumption. }
  unfold dubins_path_length.
  split; [ apply (mul_nonneg_pos _ _ Hsum Vr) | ].
  split.
  - intros i. destruct (Hseg i) as [ -> | (v & Hv & ->) ]; [ reflexivity | ].
    apply (mul_nonneg_pos _ _ Hv Vr).
  - intros Hf. split; [ now apply (mul_nonneg_pos _ _ Hsum Vr) | ].
    intros i. destruct (Hseg i) as [ -> | (v & Hv & ->) ]; [ reflexivity | ].
    now apply (mul_nonneg_pos _ _ Hv Vr).
Qed.

(** ** Sampling *)

(** X7.  [dubins_path_sample] does not refuse a parameter that is NaN: on
    a path with one of the six types it returns [EDUBOK] and writes a
    configuration whose heading is NaN. *)
Theorem dubins_path_sample_nan (path : DubinsPath) (t : float) :
  valid_type (type path) ->
  is_nan t = true ->
  exists pose,
    (forall q, dubins_path_sample path t q = Some (EDUBOK, pose)) /\
    is_nan (get2 pose) = true.
Proof.
  intros Hty Hn. rewrite (is_nan_eq _ Hn). unfold dubins_path_sample.
  rewrite ltb_nan_l, leb_nan_r. cbv [orb].
  destruct (DIRDATA_at_valid _ Hty) as (a & b & c & -> & Ha & Hb & Hc).
  assert (Ha' : segment_type a) by (unfold segment_type; tauto).
  destruct (dubins_segment_defined (get0 (param path)) (0, 0, get2 (qi path)) a Ha') as (q1 & ->).
  destruct (dubins_segment_defined (get1 (param path)) q1 b Hb) as (q2 & ->).
  rewrite div_nan_l, !ltb_nan_l, !sub_nan_l.
  destruct Hc as [ -> | -> ]; simpl; rewrite ?add_nan_r, ?sub_nan_r, mod2pi_nan;
    eexists; (split; [ intros q; reflexivity | reflexivity ]).
Qed.

(** [dubins_path_sample] at 0 on a path of positive length. *)
Lemma dubins_path_sample_first (path : DubinsPath) :
  valid_type (type path) ->
  (0 <? dubins_path_length path) = true ->
  exists pose, forall q, dubins_path_sample path 0 q = Some (EDUBOK, pose).
Proof.
  intros Hty Hlen. apply dubins_path_sample_in_range; [ exact Hty | ].
  rewrite (ltb_leb_false _ _ Hlen). reflexivity.
Qed.

(** ** Sampling a whole path *)

(** X8.  The result of [dubins_path_sample_many] on a path with one of the
    six types does not depend on what its local array [q] holds at first:
    the visitor is never given an array that [dubins_path_sample] has not
    written, because the first sample, at 0 on a path of positive length,
    is never refused. *)
Theorem dubins_path_sample_many_uninitialised {U : Type} (fuel : nat) (q0 q0' : double3)
    (path : DubinsPath) (cb : DubinsPathSamplingCallback U) (stepSize : float) (u0 : U) :
  valid_type (type path) ->
  dubins_path_sample_many fuel q0 path cb stepSize u0
    = dubins_path_sample_many fuel q0' path cb stepSize u0.
Proof.
  intros Hty. unfold dubins_path_sample_many.
  destruct fuel as [ | fuel ]; simpl; [ reflexivity | ].
  destruct (0 <? dubins_path_length path) eqn:Hlen; [ | reflexivity ].
  destruct (dubins_path_sample_first path Hty Hlen) as (pose & Hp).
  now rewrite !Hp.
Qed.

(** X9.  On a path with one of the six types and a length above 0, when
    [stepSize] is not below the length (it may be NaN or infinite), the
    visitor is called exactly once, with the configuration at the start of
    the path and the parameter 0, and [dubins_path_sample_many] returns the
    code and the user data of this call. *)
Theorem dubins_path_sample_many_once {U : Type} (q0 : double3)
    (path : DubinsPath) (cb : DubinsPathSamplingCallback U) (stepSize : float) (u0 : U) :
  valid_type (type path) ->
  (0 <? dubins_path_length path) = true ->
  (stepSize <? dubins_path_length path) = false ->
  exists pose,
    (forall q, dubins_path_sample path 0 q = Some (EDUBOK, pose)) /\
    forall fuel, (2 <= fuel)%nat ->
      dubins_path_sample_many fuel q0 path cb stepSize u0 = Ret (cb pose 0 u0).
Proof.
  intros Hty Hlen Hstep.
  destruct (dubins_path_sample_first path Hty Hlen) as (pose & Hp).
  exists pose. split; [ exact Hp | ].
  intros [ | [ | fuel ] ] Hf; try lia.
  unfold dubins_path_sample_many. simpl. rewrite Hlen, Hp.
  destruct (cb pose 0 u0) as [ retcode u' ].
  destruct (retcode =? 0)%Z eqn:E0; simpl; [ | reflexivity ].
  apply Z.eqb_eq in E0. subst retcode.
  rewrite (same_number_ltb_l _ (0 + stepSize) stepSize), Hstep; [ reflexivity | ].
  apply add_zero_l. exists false. reflexivity.
Qed.

Lemma sample_many_loop_nonpos {U : Type} (path : DubinsPath)
    (cb : DubinsPathSamplingCallback U) (stepSize : float) :
  valid_type (type path) ->
  (0 <? dubins_path_length path) = true ->
  (stepSize <=? 0) = true ->
  (forall q x u, fst (cb q x u) = 0%Z) ->
  forall fuel x q u, (x <=? 0) = true ->
    sample_many_loop fuel path cb stepSize (dubins_path_length path) x q u = Timeout.
Proof.
  intros Hty Hlen Hstep Hcb.
  induction fuel as [ | fuel IH ]; intros x q u Hx; simpl; [ reflexivity | ].
  rewrite (leb_ltb_trans _ _ _ Hx Hlen).
  destruct (dubins_path_sample_defined path x q Hty) as (c & q' & ->).
  specialize (Hcb q' x u). destruct (cb q' x u) as [ retcode u' ]. simpl in Hcb.
  subst retcode. simpl. apply IH. now apply add_nonpos.
Qed.

(** X10.  On a path with one of the six types and a length above 0, with
    a [stepSize <= 0] (either zero, or a negative number) and a visitor that
    returns 0 at every call, [dubins_path_sample_many] never returns: no
    number of iterations is enough. *)
Theorem dubins_path_sample_many_backwards {U : Type} (q0 : double3)
    (path : DubinsPath) (cb : DubinsPathSamplingCallback U) (stepSize : float) (u0 : U) :
  valid_type (type path) ->
  (0 <? dubins_path_length path) = true ->
  (stepSize <=? 0) = true ->
  (forall q x u, fst (cb q x u) = 0%Z) ->
  forall fuel, dubins_path_sample_many fuel q0 path cb stepSize u0 = Timeout.
Proof.
  intros Hty Hlen Hstep Hcb fuel. unfold dubins_path_sample_many.
  now apply sample_many_loop_nonpos.
Qed.

Lemma sample_many_loop_no_abort {U : Type} (path : DubinsPath)
    (cb : DubinsPathSamplingCallback U) (stepSize length : float) :
  valid_type (type path) ->
  forall fuel x q u, sample_many_loop fuel path cb stepSize length x q u <> Abort.
Proof.
  intros Hty. induction fuel as [ | fuel IH ]; intros x q u; simpl; [ discriminate | ].
  destruct (x <? length); [ | discriminate ].
  destruct (dubins_path_sample_defined path x q Hty) as (c & q' & ->).
  destruct (cb q' x u) as [ retcode u' ].
  destruct (negb _); [ discriminate | apply IH ].
Qed.

Context {build : Fmin}.

(** X11.  A path that [dubins_init] returns with [EDUBOK], and every
    sub-path that [dubins_extract_subpath] makes of it, in either build, is
    sampled without leaving the table [DIRDATA] and without failing the
    assertion of [dubins_segment]: [dubins_path_sample], for every
    parameter, and [dubins_path_endpoint] return a code, and
    [dubins_path_sample_many] never aborts, whatever the visitor, the step
    and the number of iterations.  (It need not return: see X10.) *)
Theorem dubins_init_then_sample (params0 q0 q1 : double3) (r : float) (path0 path : DubinsPath) :
  dubins_init params0 q0 q1 r path0 = (EDUBOK, path) ->
  forall p, (p = path \/ exists t newpath, p = snd (dubins_extract_subpath path t newpath)) ->
  (forall t q, exists c q', dubins_path_sample p t q = Some (c, q')) /\
  (forall q, exists c q', dubins_path_endpoint p q = Some (c, q')) /\
  (forall (U : Type) fuel q (cb : DubinsPathSamplingCallback U) stepSize u,
     dubins_path_sample_many fuel q p cb stepSize u <> Abort).
Proof.
  intros E p Hp.
  destruct (dubins_init_success _ _ _ _ _ _ E) as (_ & _ & _ & Hty & _).
  assert (Hty' : valid_type (type p)).
  { destruct Hp as [ -> | (t & newpath & ->) ]; [ exact Hty | ].
    rewrite dubins_extract_subpath_eq. exact Hty. }
  split; [ | split ].
  - intros t q. now apply dubins_path_sample_defined.
  - intros q. unfold dubins_path_endpoint. now apply dubins_path_sample_defined.
  - intros U fuel q cb stepSize u. unfold dubins_path_sample_many.
    now apply sample_many_loop_no_abort.
Qed.

(** ** Sub-paths *)

(** X12.  Extracting at the same [t] twice gives what extracting once
    gives: [dubins_extract_subpath] is idempotent, for every path and every
    [t], and its result does not depend on what the output path held. *)
Theorem dubins_extract_subpath_idempotent (path : DubinsPath) (t : float)
    (newpath newpath' newpath'' : DubinsPath) :
  dubins_extract_subpath (snd (dubins_extract_subpath path t newpath)) t newpath'
    = dubins_extract_subpath path t newpath''.
Proof.
  rewrite !dubins_extract_subpath_eq. cbv zeta.
  cbn [param rho qi type get0 get1 get2 fst snd].
  rewrite !fmin_idem. reflexivity.
Qed.

(** X13.  When [t / rho] is NaN (a NaN [t]; an infinite [t] with an
    infinite [rho]) the two builds part.  With the [fmin] of <math.h> the
    sub-path is an exact copy of the path, whatever the path holds; with
    the [fmin] that the source defines under [_MSC_VER] its three
    parameters are NaN. *)
Theorem dubins_extract_subpath_nan (path : DubinsPath) (t : float) (newpath : DubinsPath) :
  is_nan (t / rho path) = true ->
  dubins_extract_subpath (build := math_fmin) path t newpath = (0%Z, path) /\
  param (snd (dubins_extract_subpath (build := msc_fmin) path t newpath)) = (nan, nan, nan).
Proof.
  intros Ht. rewrite !dubins_extract_subpath_eq. cbv zeta.
  rewrite (is_nan_eq _ Ht). cbn [fmin math_fmin msc_fmin snd param].
  repeat first [ rewrite fmin_math_nan_r | rewrite fmin_msc_nan_r | rewrite sub_nan_l ].
  split; [ | reflexivity ].
  rewrite double3_eta. destruct path. reflexivity.
Qed.

(** X14.  When [t / rho] is the positive infinity (an infinite [t], or a
    quotient that overflows, on a path with a finite [rho > 0]), the first
    two parameters of the path are below the infinity and the third one is
    a number, [dubins_extract_subpath] returns an exact copy of the path,
    in every build. *)
Theorem dubins_extract_subpath_whole (path : DubinsPath) (t : float) (newpath : DubinsPath) :
  (get0 (param path) <? infinity) = true ->
  (get1 (param path) <? infinity) = true ->
  is_nan (get2 (param path)) = false ->
  t / rho path = infinity ->
  dubins_extract_subpath path t newpath = (0%Z, path).
Proof.
  intros H0 H1 H2 Ht. rewrite dubins_extract_subpath_eq. cbv zeta. rewrite Ht.
  destruct (subpath_params_infinity _ _ _ H0 H1 H2) as (E0 & E1 & E2).
  rewrite E0, E1, E2.
  rewrite double3_eta. destruct path. reflexivity.
Qed.

End Paths.

(** ** Angles *)

(** X15.  [fmodr x y] is NaN whenever [x] is not finite, or [y] is not
    finite, or [y] is a zero; so [mod2pi] of an infinite or NaN angle is
    NaN. *)
Theorem fmodr_not_a_number (x y : float) :
  (is_finite x = false \/ is_finite y = false \/ is_zero y = true ->
     is_nan (fmodr x y) = true) /\
  (is_finite x = false -> is_nan (mod2pi x) = true).
Proof.
  split.
  - apply fmodr_special.
  - intros H. unfold mod2pi. apply fmodr_special. now left.
Qed.

(** ** Integer arithmetic *)

Lemma Zscale_le (a b u : Z) : (0 < u -> a <= b -> a * u <= b * u)%Z.
Proof. intros Hu H. apply Z.mul_le_mono_nonneg_r; lia. Qed.

Lemma Zscale_lt (a b u : Z) : (0 < u -> a < b -> a * u < b * u)%Z.
Proof. intros Hu H. now apply Z.mul_lt_mono_pos_r. Qed.

Lemma Zscale_lt_inv (a b u : Z) : (0 < u -> a * u < b * u -> a < b)%Z.
Proof. intros Hu H. now apply Z.mul_lt_mono_pos_r in H. Qed.

(** A multiple of [t] strictly between 0 and [2 * t] is [t]. *)
Lemma quotient_one (k t a : Z) : (k * t = a -> 0 < a < 2 * t -> k = 1)%Z.
Proof.
  intros E H.
  destruct (Z.lt_trichotomy k 1) as [ C | [ C | C ] ]; [ exfalso | exact C | exfalso ]; nia.
Qed.

(** A multiple of [p] from 0 up to [p], excluded, is 0. *)
Lemma quotient_zero (k p r : Z) : (k * p = r -> 0 <= r < p -> r = 0)%Z.
Proof.
  intros E H.
  destruct (Z.lt_trichotomy k 0) as [ C | [ C | C ] ]; [ exfalso; nia | subst k; lia | exfalso; nia ].
Qed.

Lemma pow2_pos (z : Z) : (0 <= z)%Z -> (0 < 2 ^ z)%Z.
Proof. intros H. apply Z.pow_pos_nonneg; lia. Qed.

Lemma pow2_lt_inv (a b : Z) : (0 <= b)%Z -> (2 ^ a < 2 ^ b)%Z -> (a < b)%Z.
Proof.
  intros Hb H. apply (Z.pow_lt_mono_r_iff 2); [ lia | exact Hb | exact H ].
Qed.

Lemma pow2_le (a b : Z) : (0 <= a <= b)%Z -> (2 ^ a <= 2 ^ b)%Z.
Proof. intros H. apply Z.pow_le_mono_r; lia. Qed.

Lemma pow2_split (a b : Z) : (0 <= a)%Z -> (0 <= b)%Z -> (2 ^ (a + b) = 2 ^ a * 2 ^ b)%Z.
Proof. intros Ha Hb. now apply Z.pow_add_r. Qed.

(** ** Rounding to 53 bits *)

(** [n] applications of [f], counted. *)
Lemma iter_pos_count {A : Type} (P : Z -> A -> Prop) (f : A -> A) :
  (forall j x, (0 <= j)%Z -> P j x -> P (j + 1)%Z (f x)) ->
  forall n j x, (0 <= j)%Z -> P j x -> P (j + Zpos n)%Z (iter_pos f n x).
Proof.
  intros Hf. induction n as [ n IH | n IH | ]; intros j x Hj Hx; simpl.
  - replace (j + Zpos n~1)%Z with (j + 1 + Zpos n + Zpos n)%Z by lia.
    apply IH; [ lia | ]. apply IH; [ lia | ]. now apply Hf.
  - replace (j + Zpos n~0)%Z with (j + Zpos n + Zpos n)%Z by lia.
    apply IH; [ lia | ]. now apply IH.
  - now apply Hf.
Qed.

(** The record after [j] shifts of [n]: the quotient and, from the
    remainder, whether it is at least a half and whether it is neither 0
    nor a half. *)
Lemma shr_1_spec (n : Z) (j : Z) (mrs : shr_record) :
  (0 <= j)%Z ->
  (exists q r, n = q * 2 ^ j + r /\ 0 <= q /\ 0 <= r < 2 ^ j /\
     shr_m mrs = q /\
     (shr_r mrs = true <-> 2 ^ j <= 2 * r) /\
     (shr_s mrs = true <-> 0 < r /\ 2 * r <> 2 ^ j))%Z ->
  (exists q r, n = q * 2 ^ (j + 1) + r /\ 0 <= q /\ 0 <= r < 2 ^ (j + 1) /\
     shr_m (shr_1 mrs) = q /\
     (shr_r (shr_1 mrs) = true <-> 2 ^ (j + 1) <= 2 * r) /\
     (shr_s (shr_1 mrs) = true <-> 0 < r /\ 2 * r <> 2 ^ (j + 1)))%Z.
Proof.
  intros Hj (q & r & En & Hq & Hr & Em & Er & Es).
  rewrite Z.pow_add_r by lia. change (2 ^ 1)%Z with 2%Z.
  pose proof (Z.pow_pos_nonneg 2 j ltac:(lia) Hj) as Hp.
  set (P := (2 ^ j)%Z) in *.
  assert (Hs : orb (shr_r mrs) (shr_s mrs) = true <-> (0 < r)%Z).
  { rewrite orb_true_iff, Er, Es. lia. }
  destruct mrs as [ m b s ]. simpl in Em, Hs. subst m. unfold shr_1.
  destruct q as [ | [ q | q | ] | q ]; try lia;
    [ exists 0%Z, r | exists (Zpos q), (P + r)%Z | exists (Zpos q), r | exists 0%Z, (P + r)%Z ];
    cbn [shr_m shr_r shr_s]; rewrite Hs;
    (split; [ lia | ]); (split; [ lia | ]); (split; [ lia | ]); (split; [ reflexivity | ]);
    (split; [ split; intros H; try lia; try discriminate; try reflexivity; exfalso; lia | lia ]).
Qed.

Lemma shr_spec (n : positive) (e : Z) (j : positive) :
  exists q r,
    (Zpos n = q * 2 ^ Zpos j + r /\ 0 <= q /\ 0 <= r < 2 ^ Zpos j)%Z /\
    shr (Build_shr_record (Zpos n) false false) e (Zpos j)
      = (Build_shr_record q (2 ^ Zpos j <=? 2 * r)%Z
           (negb ((r =? 0) || (2 * r =? 2 ^ Zpos j))%Z), (e + Zpos j)%Z).
Proof.
  pose proof (iter_pos_count
    (fun j mrs => exists q r, Zpos n = q * 2 ^ j + r /\ 0 <= q /\ 0 <= r < 2 ^ j /\
       shr_m mrs = q /\
       (shr_r mrs = true <-> 2 ^ j <= 2 * r) /\
       (shr_s mrs = true <-> 0 < r /\ 2 * r <> 2 ^ j))%Z
    shr_1 (shr_1_spec (Zpos n)) j 0%Z (Build_shr_record (Zpos n) false false)
    ltac:(lia)) as H.
  destruct H as (q & r & En & Hq & Hr & Em & Er & Es).
  { exists (Zpos n), 0%Z. simpl. repeat split; try lia; discriminate. }
  exists q, r. split; [ auto | ]. unfold shr. f_equal.
  change (0 + Zpos j)%Z with (Zpos j) in *.
  destruct (iter_pos shr_1 j _) as [ m b s ]. simpl in *. subst m. f_equal.
  - apply eq_true_iff_eq. rewrite Er, Z.leb_le. tauto.
  - apply eq_true_iff_eq. rewrite Es, negb_true_iff, orb_false_iff, !Z.eqb_neq. lia.
Qed.

(** The number of binary digits. *)
Lemma digits2_bounds (m : positive) :
  (2 ^ (Zpos (digits2_pos m) - 1) <= Zpos m < 2 ^ Zpos (digits2_pos m))%Z.
Proof.
  rewrite digits2_pos_size.
  pose proof (Pos.size_gt m) as Hgt. pose proof (Pos.size_le m) as Hle.
  apply Pos2Z.pos_lt_pos in Hgt. apply Pos2Z.pos_le_pos in Hle.
  rewrite Pos2Z.inj_pow in Hgt, Hle.
  assert (E : (2 ^ Zpos (Pos.size m) = 2 * 2 ^ (Zpos (Pos.size m) - 1))%Z).
  { rewrite <- Z.pow_succ_r by lia. f_equal. lia. }
  rewrite E in Hle. lia.
Qed.

Lemma digits2_unique (m : positive) (d : Z) :
  (2 ^ (d - 1) <= Zpos m < 2 ^ d)%Z -> Zpos (digits2_pos m) = d.
Proof.
  intros H. pose proof (digits2_bounds m) as B.
  set (D := Zpos (digits2_pos m)) in *.
  destruct (Z.lt_trichotomy D d) as [ Hlt | [ Heq | Hgt ] ]; [ exfalso | exact Heq | exfalso ].
  - assert (Hp : (2 ^ D <= 2 ^ (d - 1))%Z) by (apply Z.pow_le_mono_r; lia). lia.
  - assert (Hd : (0 <= d)%Z).
    { destruct (Z.le_gt_cases 0 d) as [ H0 | H0 ]; [ exact H0 | ].
      rewrite (Z.pow_neg_r 2 d) in H by lia. lia. }
    assert (Hp : (2 ^ d <= 2 ^ (D - 1))%Z) by (apply Z.pow_le_mono_r; lia). lia.
Qed.

Lemma iter_xO (m p : positive) : Zpos (Pos.iter xO m p) = (Zpos m * 2 ^ Zpos p)%Z.
Proof.
  induction p as [ | p IH ] using Pos.peano_ind.
  - simpl. lia.
  - rewrite Pos.iter_succ, Pos2Z.inj_xO, IH, Pos2Z.inj_succ, Z.pow_succ_r by lia. lia.
Qed.

(** Aligning a mantissa to a smaller exponent. *)
Lemma shl_align_spec (m : positive) (e e' : Z) :
  (e' <= e)%Z ->
  exists mz, shl_align m e e' = (mz, e') /\ Zpos mz = (Zpos m * 2 ^ (e - e'))%Z.
Proof.
  intros H. unfold shl_align.
  destruct (e' - e)%Z as [ | d | d ] eqn:E; try lia.
  - exists m. assert (e' = e) by lia. subst e'. rewrite Z.sub_diag. split; [ reflexivity | lia ].
  - exists (Pos.iter xO m d). split; [ reflexivity | ].
    rewrite iter_xO. f_equal. f_equal. lia.
Qed.

(** What a valid finite number is made of. *)
Lemma valid_finite (s : bool) (m : positive) (e : Z) :
  valid_binary (S754_finite s m e) = true ->
  (-1074 <= e <= 971 /\ Zpos m < 2 ^ 53 /\ (-1074 < e -> 2 ^ 52 <= Zpos m))%Z.
Proof.
  unfold valid_binary, SpecFloat.valid_binary, bounded, canonical_mantissa, fexp, SpecFloat.emin, prec, emax.
  rewrite andb_true_iff, Z.eqb_eq, Z.leb_le. intros (Hc & He).
  pose proof (digits2_bounds m) as B.
  set (D := Zpos (digits2_pos m)) in *.
  assert (HD : (D <= 53)%Z) by lia.
  assert (H53 : (2 ^ D <= 2 ^ 53)%Z) by (apply Z.pow_le_mono_r; lia).
  split; [ lia | ]. split; [ lia | ].
  intros Hn. assert (D = 53%Z) by lia. replace (D - 1)%Z with 52%Z in B by lia. lia.
Qed.

(** Valid positive numbers compare as their multiples of [2^-1074] do. *)
Lemma SFcompare_valid (m m' : positive) (e e' : Z) :
  valid_binary (S754_finite false m e) = true ->
  valid_binary (S754_finite false m' e') = true ->
  SFcompare (S754_finite false m e) (S754_finite false m' e')
    = Some (Zpos m * 2 ^ (e + 1074) ?= Zpos m' * 2 ^ (e' + 1074))%Z.
Proof.
  intros V V'. apply valid_finite in V, V'.
  destruct V as (He & Hm & Hn), V' as (He' & Hm' & Hn').
  unfold SFcompare. f_equal.
  change (Pos.compare_cont Eq m m') with (Pos.compare m m').
  destruct (Z.compare_spec e e') as [ E | E | E ].
  - subst e'. symmetry.
    pose proof (Z.pow_pos_nonneg 2 (e + 1074) ltac:(lia) ltac:(lia)) as Hp.
    rewrite Pos2Z.inj_compare.
    destruct (Z.compare_spec (Zpos m) (Zpos m')) as [ C | C | C ];
      [ apply Z.compare_eq_iff | apply Z.compare_lt_iff | apply Z.compare_gt_iff ]; nia.
  - symmetry. apply Z.compare_lt_iff.
    replace (e' + 1074)%Z with ((e + 1074) + (e' - e))%Z by lia.
    rewrite (Z.pow_add_r 2 (e + 1074) (e' - e)) by lia.
    pose proof (Z.pow_pos_nonneg 2 (e + 1074) ltac:(lia) ltac:(lia)) as Hp.
    assert (H2 : (2 ^ 1 <= 2 ^ (e' - e))%Z) by (apply Z.pow_le_mono_r; lia).
    change (2 ^ 1)%Z with 2%Z in H2. change (2 ^ 53)%Z with (2 * 2 ^ 52)%Z in *.
    specialize (Hn' ltac:(lia)).
    rewrite (Z.mul_comm (2 ^ (e + 1074))), Z.mul_assoc.
    apply Z.mul_lt_mono_pos_r; [ exact Hp | nia ].
  - symmetry. apply Z.compare_gt_iff.
    replace (e + 1074)%Z with ((e' + 1074) + (e - e'))%Z by lia.
    rewrite (Z.pow_add_r 2 (e' + 1074) (e - e')) by lia.
    pose proof (Z.pow_pos_nonneg 2 (e' + 1074) ltac:(lia) ltac:(lia)) as Hp.
    assert (H2 : (2 ^ 1 <= 2 ^ (e - e'))%Z) by (apply Z.pow_le_mono_r; lia).
    change (2 ^ 1)%Z with 2%Z in H2. change (2 ^ 53)%Z with (2 * 2 ^ 52)%Z in *.
    specialize (Hn ltac:(lia)).
    rewrite (Z.mul_comm (2 ^ (e' + 1074))), Z.mul_assoc.
    apply Z.mul_lt_mono_pos_r; [ exact Hp | nia ].
Qed.

Lemma fexp_eq (x : Z) : fexp prec emax x = Z.max (x - 53) (-1074).
Proof. reflexivity. Qed.

(** A mantissa of at least 52 bits with an exponent above 971 is beyond
    the largest number, [2^1024] being [2^2098] multiples of [2^-1074]. *)
Lemma overflow_bound (m e : Z) :
  (2 ^ 52 <= m)%Z -> (971 < e)%Z -> (2 ^ 2098 <= m * 2 ^ (e + 1074))%Z.
Proof.
  intros Hm He.
  replace 2098%Z with (52 + 2046)%Z by reflexivity.
  rewrite (pow2_split 52 2046) by lia.
  apply Z.mul_le_mono_nonneg; [ apply Z.pow_nonneg; lia | exact Hm | | ].
  - apply Z.pow_nonneg. lia.
  - apply pow2_le. lia.
Qed.

(** A finite number is below [2^1024]. *)
Lemma finite_below_top (m e : Z) :
  (0 <= m < 2 ^ 53)%Z -> (-1074 <= e <= 971)%Z -> (m * 2 ^ (e + 1074) < 2 ^ 2098)%Z.
Proof.
  intros Hm He.
  replace 2098%Z with (53 + 2045)%Z by reflexivity.
  rewrite (pow2_split 53 2045) by lia.
  pose proof (pow2_pos (e + 1074) ltac:(lia)) as HX.
  apply Z.lt_le_trans with (2 ^ 53 * 2 ^ (e + 1074))%Z.
  - apply Zscale_lt; lia.
  - apply Z.mul_le_mono_nonneg_l; [ apply Z.pow_nonneg; lia | apply pow2_le; lia ].
Qed.

(** The digits of a mantissa that has been shifted to the left. *)
Lemma digits2_shifted (n mz : positive) (k : Z) :
  (0 <= k)%Z -> Zpos mz = (Zpos n * 2 ^ k)%Z ->
  Zpos (digits2_pos mz) = (Zpos (digits2_pos n) + k)%Z.
Proof.
  intros Hk E. pose proof (digits2_bounds n) as B.
  pose proof (pow2_pos k Hk) as HK.
  apply digits2_unique. rewrite E.
  replace (Zpos (digits2_pos n) + k - 1)%Z with ((Zpos (digits2_pos n) - 1) + k)%Z by lia.
  rewrite !pow2_split by lia.
  split; [ apply Zscale_le | apply Zscale_lt ]; lia.
Qed.

(** A mantissa of at most 53 digits is rounded to itself. *)
Lemma binary_round_exact (s : bool) (n : positive) (e : Z) :
  (-1074 <= e)%Z -> (Zpos (digits2_pos n) <= 53)%Z ->
  (exists m3 e3,
     binary_round prec emax s n e = S754_finite s m3 e3 /\
     (Zpos m3 * 2 ^ (e3 + 1074) = Zpos n * 2 ^ (e + 1074))%Z) \/
  (binary_round prec emax s n e = S754_infinity s /\
   (2 ^ 2098 <= Zpos n * 2 ^ (e + 1074))%Z).
Proof.
  intros He Hd.
  set (d := Zpos (digits2_pos n)) in *.
  unfold binary_round. fold d.
  pose proof (fexp_eq (d + e)) as Hf.
  set (f := fexp prec emax (d + e)) in *.
  assert (Hd1 : (1 <= d)%Z) by (unfold d; lia).
  destruct (shl_align_spec n e f ltac:(lia)) as (mz & -> & Emz).
  assert (Dz : Zpos (digits2_pos mz) = (d + (e - f))%Z)
    by (apply digits2_shifted; [ lia | exact Emz ]).
  assert (Ef : fexp prec emax (Zpos (digits2_pos mz) + f) = f).
  { rewrite Dz. replace (d + (e - f) + f)%Z with (d + e)%Z by lia. reflexivity. }
  unfold binary_round_aux, shr_fexp. cbn [Zdigits2 shr_record_of_loc].
  rewrite Ef, Z.sub_diag.
  cbn [shr shr_m loc_of_shr_record round_nearest_even Zdigits2].
  rewrite Ef, Z.sub_diag. cbn [shr shr_m].
  assert (Ev : (Zpos mz * 2 ^ (f + 1074) = Zpos n * 2 ^ (e + 1074))%Z).
  { rewrite Emz. replace (e + 1074)%Z with ((e - f) + (f + 1074))%Z by lia.
    rewrite (pow2_split (e - f)) by lia. ring. }
  destruct (f <=? emax - prec)%Z eqn:Ho.
  - left. exists mz, f. auto.
  - right. split; [ reflexivity | ].
    apply Z.leb_gt in Ho. change (emax - prec)%Z with 971%Z in Ho.
    rewrite <- Ev. apply overflow_bound; [ | exact Ho ].
    pose proof (digits2_bounds mz) as B. rewrite Dz in B.
    replace (d + (e - f) - 1)%Z with 52%Z in B by lia. apply B.
Qed.

(** A mantissa of [53 + j] digits is shifted by [j] and rounded to the
    nearest, to the even one in a tie. *)
Lemma binary_round_long (s : bool) (n : positive) (e : Z) (j : positive) :
  (-1074 <= e)%Z -> Zpos (digits2_pos n) = (53 + Zpos j)%Z ->
  exists q r m2 : Z,
    (Zpos n = q * 2 ^ Zpos j + r /\ 0 <= r < 2 ^ Zpos j /\
     (2 * r < 2 ^ Zpos j -> m2 = q) /\
     (2 ^ Zpos j < 2 * r -> m2 = q + 1) /\
     (m2 = q \/ m2 = q + 1))%Z /\
    ((exists m3 e3,
        binary_round prec emax s n e = S754_finite s m3 e3 /\
        (Zpos m3 * 2 ^ (e3 + 1074) = m2 * 2 ^ (e + Zpos j + 1074))%Z) \/
     (binary_round prec emax s n e = S754_infinity s /\
      (2 ^ 2098 <= m2 * 2 ^ (e + Zpos j + 1074))%Z)).
Proof.
  intros He Hd. pose proof (digits2_bounds n) as B. rewrite Hd in B.
  replace (53 + Zpos j - 1)%Z with (52 + Zpos j)%Z in B by lia.
  rewrite !pow2_split in B by lia.
  pose proof (pow2_pos (Zpos j) ltac:(lia)) as HP.
  unfold binary_round. rewrite Hd.
  assert (Hf : fexp prec emax (53 + Zpos j + e) = (e + Zpos j)%Z) by (rewrite fexp_eq; lia).
  rewrite Hf.
  assert (Ea : shl_align n e (e + Zpos j) = (n, e)).
  { unfold shl_align. replace (e + Zpos j - e)%Z with (Zpos j) by lia. reflexivity. }
  rewrite Ea.
  assert (Es : shr_fexp prec emax (Zpos n) e loc_Exact
               = shr (Build_shr_record (Zpos n) false false) e (Zpos j)).
  { unfold shr_fexp. cbn [Zdigits2 shr_record_of_loc]. rewrite Hd, Hf.
    replace (e + Zpos j - e)%Z with (Zpos j) by lia. reflexivity. }
  unfold binary_round_aux. rewrite Es.
  destruct (shr_spec n e j) as (q & r & (En & Hq & Hr) & ->).
  cbn [shr_m].
  set (P := (2 ^ Zpos j)%Z) in *.
  set (m2 := round_nearest_even q _).
  assert (Hm2 : ((2 * r < P -> m2 = q) /\ (P < 2 * r -> m2 = q + 1) /\
                 (m2 = q \/ m2 = q + 1))%Z).
  { unfold m2, loc_of_shr_record, round_nearest_even.
    destruct (P <=? 2 * r)%Z eqn:E1; [ apply Z.leb_le in E1 | apply Z.leb_gt in E1 ];
      (destruct (r =? 0)%Z eqn:E2; [ apply Z.eqb_eq in E2 | apply Z.eqb_neq in E2 ]);
      (destruct (2 * r =? P)%Z eqn:E3; [ apply Z.eqb_eq in E3 | apply Z.eqb_neq in E3 ]);
      cbn [negb orb]; try destruct (Z.even q); lia. }
  exists q, r, m2. split; [ tauto | ].
  assert (Bq : (2 ^ 52 <= q < 2 ^ 53)%Z).
  { clear - B En Hr HP.
    assert (H1 : (2 ^ 52 < q + 1)%Z) by (apply (Zscale_lt_inv _ _ P HP); lia).
    assert (H2 : (q < 2 ^ 53)%Z) by (apply (Zscale_lt_inv _ _ P HP); lia).
    lia. }
  destruct Hm2 as (_ & _ & Hm2).
  assert (Bm : (2 ^ 52 <= m2 <= 2 ^ 53)%Z) by lia.
  clearbody m2. clear Es Ea B En.
  destruct m2 as [ | p2 | p2 ]; try lia.
  destruct (Z.eq_dec (Zpos p2) (2 ^ 53)) as [ Etop | Ntop ].
  - (* the mantissa has become 2^53 *)
    assert (p2 = 9007199254740992%positive) by (apply Pos2Z.inj; exact Etop).
    subst p2.
    unfold shr_fexp. cbn [Zdigits2 shr_record_of_loc].
    change (Zpos (digits2_pos 9007199254740992)) with 54%Z.
    rewrite fexp_eq.
    replace (Z.max (54 + (e + Zpos j) - 53) (-1074) - (e + Zpos j))%Z with 1%Z by lia.
    cbn [shr iter_pos shr_1 shr_m fst snd].
    destruct (e + Zpos j + 1 <=? emax - prec)%Z eqn:Ho.
    + left. exists 4503599627370496%positive, (e + Zpos j + 1)%Z. split; [ reflexivity | ].
      replace (e + Zpos j + 1 + 1074)%Z with (1 + (e + Zpos j + 1074))%Z by lia.
      rewrite (pow2_split 1) by lia. change (2 ^ 1)%Z with 2%Z. lia.
    + right. split; [ reflexivity | ].
      apply Z.leb_gt in Ho. change (emax - prec)%Z with 971%Z in Ho.
      replace (Zpos 9007199254740992 * 2 ^ (e + Zpos j + 1074))%Z
        with (4503599627370496 * 2 ^ (e + Zpos j + 1 + 1074))%Z.
      * apply overflow_bound; [ reflexivity | exact Ho ].
      * replace (e + Zpos j + 1 + 1074)%Z with (1 + (e + Zpos j + 1074))%Z by lia.
        rewrite (pow2_split 1) by lia. change (2 ^ 1)%Z with 2%Z. lia.
  - assert (D2 : Zpos (digits2_pos p2) = 53%Z) by (apply digits2_unique; simpl; lia).
    unfold shr_fexp. cbn [Zdigits2 shr_record_of_loc]. rewrite D2, fexp_eq.
    replace (Z.max (53 + (e + Zpos j) - 53) (-1074) - (e + Zpos j))%Z with 0%Z by lia.
    cbn [shr shr_m fst snd].
    destruct (e + Zpos j <=? emax - prec)%Z eqn:Ho.
    + left. exists p2, (e + Zpos j)%Z. split; reflexivity.
    + right. split; [ reflexivity | ].
      apply Z.leb_gt in Ho. change (emax - prec)%Z with 971%Z in Ho.
      apply overflow_bound; [ lia | exact Ho ].
Qed.

(** The rounded mantissa is finite with the given sign, or the result is
    the infinity of that sign. *)
Lemma binary_round_cases (s : bool) (n : positive) (e : Z) :
  (-1074 <= e)%Z ->
  exists j q r m2 : Z,
    (0 <= j /\ (1 <= j -> Zpos (digits2_pos n) = 53 + j) /\
     (j = 0 -> Zpos (digits2_pos n) <= 53) /\
     Zpos n = q * 2 ^ j + r /\ 0 <= r < 2 ^ j /\
     (2 * r < 2 ^ j -> m2 = q) /\
     (2 ^ j < 2 * r -> m2 = q + 1) /\
     (m2 = q \/ m2 = q + 1))%Z /\
    ((exists m3 e3,
        binary_round prec emax s n e = S754_finite s m3 e3 /\
        (Zpos m3 * 2 ^ (e3 + 1074) = m2 * 2 ^ (e + j + 1074))%Z) \/
     (binary_round prec emax s n e = S754_infinity s /\
      (2 ^ 2098 <= m2 * 2 ^ (e + j + 1074))%Z)).
Proof.
  intros He.
  destruct (Z.le_gt_cases (Zpos (digits2_pos n)) 53) as [ Hd | Hd ].
  - exists 0%Z, (Zpos n), 0%Z, (Zpos n). split.
    + change (2 ^ 0)%Z with 1%Z. repeat split; auto; lia.
    + rewrite Z.add_0_r. now apply binary_round_exact.
  - assert (Ej : Zpos (digits2_pos n) = (53 + Zpos (Z.to_pos (Zpos (digits2_pos n) - 53)))%Z).
    { rewrite Z2Pos.id by lia. lia. }
    destruct (binary_round_long s n e _ He Ej) as (q & r & m2 & (En & Hr & H1 & H2 & H3) & HR).
    exists (Zpos (Z.to_pos (Zpos (digits2_pos n) - 53))), q, r, m2.
    split; [ | exact HR ].
    repeat split; auto; lia.
Qed.

(** The difference of two finite numbers, the second one positive, before
    it is rounded: an integer multiple of a power of 2. *)
Lemma SFsub_finite (sx : bool) (mx my : positive) (ex ey : Z) :
  (-1074 <= ex)%Z -> (-1074 <= ey)%Z ->
  exists N ez : Z,
    (-1074 <= ez /\ ez <= ex /\ ez <= ey /\
     N * 2 ^ (ez + 1074)
       = cond_Zopp sx (Zpos mx * 2 ^ (ex + 1074)) - Zpos my * 2 ^ (ey + 1074))%Z /\
    SF64sub (S754_finite sx mx ex) (S754_finite false my ey)
      = binary_normalize prec emax N ez false.
Proof.
  intros Hx Hy. unfold SF64sub, SFsub.
  set (ez := Z.min ex ey).
  destruct (shl_align_spec mx ex ez ltac:(lia)) as (ax & -> & Eax).
  destruct (shl_align_spec my ey ez ltac:(lia)) as (ay & -> & Eay).
  cbn [fst cond_Zopp].
  exists (cond_Zopp sx (Zpos ax) - Zpos ay)%Z, ez.
  split; [ | reflexivity ].
  split; [ lia | ]. split; [ lia | ]. split; [ lia | ].
  assert (Ex : (Zpos ax * 2 ^ (ez + 1074) = Zpos mx * 2 ^ (ex + 1074))%Z).
  { rewrite Eax, <- Z.mul_assoc, <- Z.pow_add_r by lia. do 2 f_equal. lia. }
  assert (Ey : (Zpos ay * 2 ^ (ez + 1074) = Zpos my * 2 ^ (ey + 1074))%Z).
  { rewrite Eay, <- Z.mul_assoc, <- Z.pow_add_r by lia. do 2 f_equal. lia. }
  rewrite <- Ex, <- Ey. destruct sx; cbn [cond_Zopp]; ring.
Qed.

Lemma binary_normalize_neg (N ez : Z) :
  (N < 0)%Z -> (-1074 <= ez)%Z ->
  SFltb (binary_normalize prec emax N ez false) (S754_zero false) = true.
Proof.
  intros HN He. destruct N as [ | n | n ]; try lia. unfold binary_normalize.
  destruct (binary_round_cases true n ez He) as (j & q & r & m2 & _ & [ (m3 & e3 & -> & _) | (-> & _) ]);
    reflexivity.
Qed.

Lemma Prim2SF_EPSILON : Prim2SF EPSILON = S754_finite false 4835703278458517 (-82).
Proof. reflexivity. Qed.

(** ** Subtracting [EPSILON] *)

(** Below [EPSILON] the difference is negative. *)
Lemma sub_EPSILON_negative (x : float) :
  (x <? EPSILON) = true -> (x - EPSILON <? 0) = true.
Proof.
  pose proof (Prim2SF_valid x) as V.
  rewrite !ltb_spec, sub_spec, Prim2SF_EPSILON. change (Prim2SF 0) with (S754_zero false).
  destruct (Prim2SF x) as [ [ | ] | [ | ] | | sx mx ex ] eqn:Ex; try discriminate;
    try (intros _; reflexivity).
  intros Hlt.
  pose proof (valid_finite _ _ _ V) as (He & Hm & Hn).
  destruct (SFsub_finite sx mx 4835703278458517 ex (-82) ltac:(lia) ltac:(lia))
    as (N & ez & (Hez & Hzx & Hzy & EN) & ->).
  apply binary_normalize_neg; [ | exact Hez ].
  pose proof (pow2_pos (ez + 1074) ltac:(lia)) as HU.
  pose proof (pow2_pos (ex + 1074) ltac:(lia)) as HX.
  assert (Hneg : (N * 2 ^ (ez + 1074) < 0)%Z); [ | nia ].
  rewrite EN. destruct sx; cbn [cond_Zopp].
  - change (2 ^ (-82 + 1074))%Z with (2 ^ 992)%Z. nia.
  - unfold SFltb in Hlt.
    rewrite (SFcompare_valid mx 4835703278458517 ex (-82) V eq_refl) in Hlt.
    destruct (Z.compare_spec (Zpos mx * 2 ^ (ex + 1074))
                (4835703278458517 * 2 ^ (-82 + 1074))) as [ C | C | C ];
      try discriminate. lia.
Qed.

(** The rounded mantissa is within a half of the shifted one. *)
Lemma nearest_bound (q r m2 P : Z) :
  (0 <= r < P)%Z ->
  (2 * r < P -> m2 = q)%Z -> (m2 = q \/ m2 = q + 1)%Z ->
  (2 * (m2 * P) <= 2 * (q * P + r) + P)%Z.
Proof.
  intros Hr H1 [ -> | -> ]; [ lia | ].
  destruct (Z.lt_ge_cases (2 * r) P) as [ Hlt | Hge ]; [ specialize (H1 Hlt); lia | lia ].
Qed.

Lemma nearest_bound_below (q r m2 P : Z) :
  (0 <= r < P)%Z ->
  (P < 2 * r -> m2 = q + 1)%Z -> (m2 = q \/ m2 = q + 1)%Z ->
  (2 * (q * P + r) - P <= 2 * (m2 * P))%Z.
Proof.
  intros Hr H1 [ -> | -> ]; [ | lia ].
  destruct (Z.lt_ge_cases P (2 * r)) as [ Hlt | Hge ]; [ specialize (H1 Hlt); lia | lia ].
Qed.

(** A difference [v - e], rounded at a last place [t] below [2 * e], stays
    below [v]. *)
Lemma round_below (v e n u q r m2 p t : Z) :
  (0 < u)%Z -> t = (p * u)%Z ->
  n = (q * p + r)%Z -> (0 <= r < p)%Z ->
  (2 * r < p -> m2 = q)%Z -> (m2 = q \/ m2 = q + 1)%Z ->
  (n * u = v - e)%Z -> (t < 2 * e)%Z ->
  (m2 * t < v)%Z.
Proof.
  intros Hu Et En Hr H1 H3 EN Ht.
  pose proof (nearest_bound q r m2 p Hr H1 H3) as Hn. rewrite <- En in Hn.
  apply (Zscale_le _ _ u Hu) in Hn.
  replace (2 * (m2 * p) * u)%Z with (2 * (m2 * t))%Z in Hn by (subst t; ring).
  replace ((2 * n + p) * u)%Z with (2 * (n * u) + t)%Z in Hn by (subst t; ring).
  lia.
Qed.

(** A difference [v - e] of a multiple [v] of the last place [t], with
    [2 * e < t], is rounded back to [v]. *)
Lemma round_back (v e n u q r m2 p t k : Z) :
  (0 < u)%Z -> t = (p * u)%Z ->
  n = (q * p + r)%Z -> (0 <= r < p)%Z ->
  (p < 2 * r -> m2 = q + 1)%Z ->
  (n * u = v - e)%Z -> v = (k * t)%Z -> (0 < e)%Z -> (2 * e < t)%Z ->
  (m2 * t = v)%Z.
Proof.
  intros Hu Et En Hr H2 EN Ev He Ht.
  assert (Hru : (0 <= r * u < t)%Z).
  { subst t. split; [ apply Z.mul_nonneg_nonneg; lia | apply Zscale_lt; lia ]. }
  assert (E1 : ((k - q) * t = r * u + e)%Z).
  { rewrite Z.mul_sub_distr_r, <- Ev.
    replace (q * t)%Z with (n * u - r * u)%Z by (subst n t; ring). lia. }
  assert (Ek : (k - q = 1)%Z) by (apply (quotient_one _ t (r * u + e) E1); lia).
  assert (Hup : (p < 2 * r)%Z).
  { apply (Zscale_lt_inv _ _ u Hu). rewrite <- Et.
    replace (2 * r * u)%Z with (2 * (r * u))%Z by ring.
    replace ((k - q) * t)%Z with t in E1 by (rewrite Ek; ring). lia. }
  rewrite (H2 Hup), Ev. f_equal. lia.
Qed.

(** A sum [v + s], rounded at a last place [t] below [2 * s], is above
    [v]. *)
Lemma round_above (v s n u q r m2 p t : Z) :
  (0 < u)%Z -> t = (p * u)%Z ->
  n = (q * p + r)%Z -> (0 <= r < p)%Z ->
  (p < 2 * r -> m2 = q + 1)%Z -> (m2 = q \/ m2 = q + 1)%Z ->
  (n * u = v + s)%Z -> (t < 2 * s)%Z ->
  (v < m2 * t)%Z.
Proof.
  intros Hu Et En Hr H2 H3 EN Ht.
  pose proof (nearest_bound_below q r m2 p Hr H2 H3) as Hn. rewrite <- En in Hn.
  apply (Zscale_le _ _ u Hu) in Hn.
  replace (2 * (m2 * p) * u)%Z with (2 * (m2 * t))%Z in Hn by (subst t; ring).
  replace ((2 * n - p) * u)%Z with (2 * (n * u) - t)%Z in Hn by (subst t; ring).
  lia.
Qed.

(** The last place of a rounded mantissa, against the mantissa. *)
Lemma last_place_le (n : positive) (j u : Z) :
  (1 <= j)%Z -> Zpos (digits2_pos n) = (53 + j)%Z -> (0 < u)%Z ->
  (2 ^ 52 * (2 ^ j * u) <= Zpos n * u)%Z.
Proof.
  intros Hj Hd Hu. pose proof (digits2_bounds n) as B. rewrite Hd in B.
  replace (53 + j - 1)%Z with (52 + j)%Z in B by lia.
  rewrite pow2_split in B by lia.
  rewrite Z.mul_assoc. apply Zscale_le; [ exact Hu | apply B ].
Qed.

Lemma pow2_992 : (2 ^ (-82 + 1074) = 2 ^ 992)%Z.
Proof. reflexivity. Qed.

Lemma pow2_1046 : (2 ^ (-28 + 1074) = 2 ^ 54 * 2 ^ 992)%Z.
Proof. reflexivity. Qed.

(** From [EPSILON] to [2^24] the difference is not negative and is below
    the number itself. *)
Lemma sub_EPSILON_inside (x : float) :
  (EPSILON <=? x) = true -> (x <=? 0x1p+24) = true ->
  (x - EPSILON <? 0) = false /\ (x <=? x - EPSILON) = false.
Proof.
  pose proof (Prim2SF_valid x) as V. pose proof (Prim2SF_valid (x - EPSILON)) as VR.
  rewrite sub_spec in VR. revert VR.
  rewrite !leb_spec, ltb_spec, sub_spec, Prim2SF_EPSILON.
  change (Prim2SF 0x1p+24) with (S754_finite false 4503599627370496 (-28)).
  change (Prim2SF 0) with (S754_zero false).
  destruct (Prim2SF x) as [ [ | ] | [ | ] | | [ | ] mx ex ] eqn:Ex; try discriminate.
  intros VR Hge Hle.
  pose proof (valid_finite _ _ _ V) as (He & Hm & Hn).
  unfold SFleb in Hge, Hle.
  rewrite (SFcompare_valid 4835703278458517 mx (-82) ex eq_refl V), pow2_992 in Hge.
  rewrite (SFcompare_valid mx 4503599627370496 ex (-28) V eq_refl), pow2_1046 in Hle.
  destruct (SFsub_finite false mx 4835703278458517 ex (-82) ltac:(lia) ltac:(lia))
    as (N & ez & (Hez & Hzx & Hzy & EN) & ES).
  rewrite ES in *. clear ES.
  cbn [cond_Zopp] in EN. rewrite pow2_992 in EN.
  pose proof (pow2_pos 992 ltac:(lia)) as HA.
  set (A := (2 ^ 992)%Z) in *.
  set (Vx := (Zpos mx * 2 ^ (ex + 1074))%Z) in *.
  assert (C1 : (4835703278458517 * A <= Vx)%Z).
  { destruct (Z.compare_spec (4835703278458517 * A) Vx); try discriminate; lia. }
  assert (C2 : (Vx <= 4503599627370496 * (2 ^ 54 * A))%Z).
  { destruct (Z.compare_spec Vx (4503599627370496 * (2 ^ 54 * A))); try discriminate; lia. }
  clear Hge Hle.
  pose proof (pow2_pos (ez + 1074) ltac:(lia)) as HU.
  set (U := (2 ^ (ez + 1074))%Z) in *.
  assert (HN : (0 <= N)%Z).
  { destruct (Z.le_gt_cases 0 N) as [ H | H ]; [ exact H | exfalso ].
    assert (N * U < 0 * U)%Z by (apply Zscale_lt; lia). lia. }
  destruct N as [ | n | n ]; [ split; reflexivity | | lia ].
  unfold binary_normalize in *.
  destruct (binary_round_cases false n ez Hez)
    as (j & q & r & m2 & (Hj & Hj1 & Hj0 & En & Hr & H1 & H2 & H3) & HR).
  pose proof (pow2_pos j Hj) as HP.
  (* the last place of the rounded difference is at most [2^-29] *)
  assert (Hj29 : (j + ez <= -29)%Z).
  { destruct (Z.eq_dec j 0) as [ E0 | Hj' ]; [ lia | ].
    pose proof (last_place_le n j U ltac:(lia) (Hj1 ltac:(lia)) HU) as Hl.
    assert (Hlt : (2 ^ (j + (ez + 1074)) < 2 ^ 1046)%Z).
    { rewrite pow2_split by lia. fold U.
      replace 1046%Z with (54 + 992)%Z by reflexivity. rewrite pow2_split by lia. fold A.
      lia. }
    apply pow2_lt_inv in Hlt; lia. }
  assert (ET : (2 ^ (ez + j + 1074) = 2 ^ j * U)%Z).
  { unfold U. rewrite <- pow2_split by lia. f_equal. lia. }
  assert (HT : (2 ^ j * U < 2 * (4835703278458517 * A))%Z).
  { rewrite <- ET.
    assert (Hle : (2 ^ (ez + j + 1074) <= 2 ^ (53 + 992))%Z) by (apply pow2_le; lia).
    rewrite (pow2_split 53 992) in Hle by lia. fold A in Hle. lia. }
  assert (Hlt : (m2 * 2 ^ (ez + j + 1074) < Vx)%Z).
  { rewrite ET.
    apply (round_below Vx (4835703278458517 * A) (Zpos n) U q r m2 (2 ^ j));
      auto. }
  destruct HR as [ (m3 & e3 & HR & EV) | (HR & Hinf) ]; rewrite HR in *.
  - split; [ reflexivity | ]. unfold SFleb.
    rewrite (SFcompare_valid mx m3 ex e3 V VR). fold Vx. rewrite EV.
    destruct (Z.compare_spec Vx (m2 * 2 ^ (ez + j + 1074))); try reflexivity; lia.
  - exfalso.
    pose proof (finite_below_top (Zpos mx) ex ltac:(lia) ltac:(lia)) as Htop.
    fold Vx in Htop. lia.
Qed.

(** Above [2^24] subtracting [EPSILON] changes nothing: the difference is
    rounded back to the number itself. *)
Lemma sub_EPSILON_absorbed (x : float) :
  (0x1p+24 <? x) = true -> (x <=? x - EPSILON) = true.
Proof.
  pose proof (Prim2SF_valid x) as V. pose proof (Prim2SF_valid (x - EPSILON)) as VR.
  rewrite sub_spec in VR. revert VR.
  rewrite leb_spec, ltb_spec, sub_spec, Prim2SF_EPSILON.
  change (Prim2SF 0x1p+24) with (S754_finite false 4503599627370496 (-28)).
  destruct (Prim2SF x) as [ [ | ] | [ | ] | | [ | ] mx ex ] eqn:Ex; try discriminate;
    try (intros _ _; reflexivity).
  intros VR Hgt.
  pose proof (valid_finite _ _ _ V) as (He & Hm & Hn).
  unfold SFltb in Hgt.
  rewrite (SFcompare_valid 4503599627370496 mx (-28) ex eq_refl V) in Hgt.
  change (-28 + 1074)%Z with 1046%Z in Hgt.
  pose proof (pow2_pos 1046 ltac:(lia)) as HB.
  pose proof (pow2_pos (ex + 1074) ltac:(lia)) as HX.
  assert (C1 : (4503599627370496 * 2 ^ 1046 < Zpos mx * 2 ^ (ex + 1074))%Z).
  { destruct (Z.compare_spec (4503599627370496 * 2 ^ 1046) (Zpos mx * 2 ^ (ex + 1074)));
      try discriminate; lia. }
  clear Hgt.
  (* the exponent of [x] is at least -28 *)
  assert (Hex : (-28 <= ex)%Z).
  { destruct (Z.le_gt_cases (-28) ex) as [ H | H ]; [ exact H | exfalso ].
    assert (Hp : (2 * 2 ^ (ex + 1074) <= 2 ^ 1046)%Z).
    { replace 1046%Z with (1 + 1045)%Z by reflexivity.
      rewrite (pow2_split 1 1045) by lia. change (2 ^ 1)%Z with 2%Z.
      pose proof (pow2_le (ex + 1074) 1045 ltac:(lia)). lia. }
    assert (H2 : (Zpos mx * 2 ^ (ex + 1074) < 2 ^ 53 * 2 ^ (ex + 1074))%Z)
      by (apply Zscale_lt; lia).
    change (2 ^ 53)%Z with (4503599627370496 * 2)%Z in H2.
    set (X := (2 ^ (ex + 1074))%Z) in *. set (B := (2 ^ 1046)%Z) in *. lia. }
  (* so [x] is a multiple of [2^-28], and at least [2^24 + 2^-28] *)
  assert (Ek : (2 ^ (ex + 1074) = 2 ^ (ex + 28) * 2 ^ 1046)%Z).
  { rewrite <- pow2_split by lia. f_equal. lia. }
  pose proof (pow2_pos (ex + 28) ltac:(lia)) as Hk.
  set (Vx := (Zpos mx * 2 ^ (ex + 1074))%Z) in *.
  assert (C2 : (4503599627370496 * 2 ^ 1046 + 2 ^ 1046 <= Vx)%Z).
  { unfold Vx in *. rewrite Ek in *. rewrite Z.mul_assoc in *.
    set (K := (Zpos mx * 2 ^ (ex + 28))%Z) in *.
    assert (H1 : (4503599627370496 < K)%Z) by (apply (Zscale_lt_inv _ _ (2 ^ 1046) HB); lia).
    assert (H2 : ((4503599627370496 + 1) * 2 ^ 1046 <= K * 2 ^ 1046)%Z)
      by (apply Zscale_le; lia).
    lia. }
  destruct (SFsub_finite false mx 4835703278458517 ex (-82) ltac:(lia) ltac:(lia))
    as (N & ez & (Hez & Hzx & Hzy & EN) & ES).
  rewrite ES in *. clear ES.
  cbn [cond_Zopp] in EN. fold Vx in EN. rewrite pow2_992 in EN.
  pose proof (pow2_pos (ez + 1074) ltac:(lia)) as HU.
  set (U := (2 ^ (ez + 1074))%Z) in *.
  (* [EPSILON] is below [2^-29] *)
  assert (HE : (0 < 4835703278458517 * 2 ^ 992 /\ 2 * (4835703278458517 * 2 ^ 992) < 2 ^ 1046)%Z).
  { replace 1046%Z with (54 + 992)%Z by reflexivity. rewrite (pow2_split 54 992) by lia.
    pose proof (pow2_pos 992 ltac:(lia)). lia. }
  set (E := (4835703278458517 * 2 ^ 992)%Z) in *.
  set (B := (2 ^ 1046)%Z) in *.
  assert (HN : (0 < N)%Z).
  { destruct (Z.lt_ge_cases 0 N) as [ H | H ]; [ exact H | exfalso ].
    assert (N * U <= 0 * U)%Z by (apply Zscale_le; lia). lia. }
  destruct N as [ | n | n ]; try lia.
  unfold binary_normalize in *.
  destruct (binary_round_cases false n ez Hez)
    as (j & q & r & m2 & (Hj & Hj1 & Hj0 & En & Hr & H1 & H2 & H3) & HR).
  pose proof (digits2_bounds n) as Bn.
  set (d := Zpos (digits2_pos n)) in *.
  assert (Hd1 : (1 <= d)%Z) by (unfold d; lia).
  (* the difference has many digits *)
  assert (Hd : (25 <= d + ez)%Z).
  { assert (Hlt : (2 ^ (52 + 1046) < 2 ^ (d + (ez + 1074)))%Z).
    { rewrite (pow2_split 52 1046), (pow2_split d) by lia. fold U B.
      assert (Zpos n * U < 2 ^ d * U)%Z by (apply Zscale_lt; lia).
      change (2 ^ 52)%Z with 4503599627370496%Z. lia. }
    apply pow2_lt_inv in Hlt; lia. }
  assert (Ej : (j = d - 53)%Z).
  { destruct (Z.eq_dec j 0) as [ E0 | Hj' ]; [ specialize (Hj0 E0); lia | ].
    specialize (Hj1 ltac:(lia)). lia. }
  (* but no more than [x] *)
  assert (Hd' : (j + ez <= ex)%Z).
  { assert (Hlt : (2 ^ (d - 1 + (ez + 1074)) < 2 ^ (53 + (ex + 1074)))%Z).
    { rewrite (pow2_split (d - 1)), (pow2_split 53) by lia. fold U.
      assert (H1' : (2 ^ (d - 1) * U <= Zpos n * U)%Z) by (apply Zscale_le; lia).
      assert (H2' : (Zpos mx * 2 ^ (ex + 1074) < 2 ^ 53 * 2 ^ (ex + 1074))%Z)
        by (apply Zscale_lt; lia).
      fold Vx in H2'. lia. }
    apply pow2_lt_inv in Hlt; lia. }
  pose proof (pow2_pos j Hj) as HP.
  (* the last place [T] of the rounded difference divides [x] and exceeds
     twice [EPSILON] *)
  assert (ET : (2 ^ (ez + j + 1074) = 2 ^ j * U)%Z).
  { unfold U. rewrite <- pow2_split by lia. f_equal. lia. }
  assert (HT : (B <= 2 ^ j * U)%Z).
  { rewrite <- ET. apply pow2_le; lia. }
  assert (EM : (Vx = Zpos mx * 2 ^ (ex - j - ez) * (2 ^ j * U))%Z).
  { unfold Vx. rewrite <- ET, <- Z.mul_assoc, <- pow2_split by lia. do 2 f_equal. lia. }
  assert (EV : (m2 * 2 ^ (ez + j + 1074) = Vx)%Z).
  { rewrite ET.
    apply (round_back Vx E (Zpos n) U q r m2 (2 ^ j) (2 ^ j * U)
             (Zpos mx * 2 ^ (ex - j - ez))); auto; lia. }
  destruct HR as [ (m3 & e3 & HR & EV3) | (HR & Hinf) ]; rewrite HR in *.
  - unfold SFleb. rewrite (SFcompare_valid mx m3 ex e3 V VR). fold Vx.
    rewrite EV3, EV, Z.compare_refl. reflexivity.
  - exfalso. rewrite EV in Hinf.
    pose proof (finite_below_top (Zpos mx) ex ltac:(lia) ltac:(lia)) as Htop.
    fold Vx in Htop. lia.
Qed.

Section Endpoint.

Context {libm : Libm}.

(** ** The end of a path *)

(** X16.  [dubins_path_endpoint] samples at the length minus [EPSILON]
    ([10e-10], that is [1e-9]).  On a path with one of the six types it
    returns [EDUBPARAM], leaving [q] as it was, when the length is below
    [EPSILON] (the difference is negative) and when the length is above
    [2^24 = 16777216] (the difference is rounded back to the length, or the
    length is infinite); in every other case, that of a NaN length
    included, it returns [EDUBOK] and writes a configuration. *)
Theorem dubins_path_endpoint_range (path : DubinsPath) :
  valid_type (type path) ->
  ((dubins_path_length path <? EPSILON) = true \/
   (0x1p+24 <? dubins_path_length path) = true ->
     forall q, dubins_path_endpoint path q = Some (EDUBPARAM, q)) /\
  ((dubins_path_length path <? EPSILON) = false ->
   (0x1p+24 <? dubins_path_length path) = false ->
     exists pose, forall q, dubins_path_endpoint path q = Some (EDUBOK, pose)).
Proof.
  intros Hty. unfold dubins_path_endpoint.
  set (len := dubins_path_length path).
  split.
  - intros H q. unfold dubins_path_sample. fold len.
    destruct H as [ H | H ].
    + rewrite (sub_EPSILON_negative _ H). reflexivity.
    + rewrite (sub_EPSILON_absorbed _ H), orb_true_r. reflexivity.
  - intros H1 H2. apply dubins_path_sample_in_range; [ exact Hty | ]. fold len.
    destruct (is_nan len) eqn:Hn.
    + rewrite (is_nan_eq _ Hn), sub_nan_l, ltb_nan_l, leb_nan_l. reflexivity.
    + assert (N1 : is_nan EPSILON = false) by reflexivity.
      assert (N2 : is_nan 0x1p+24 = false) by reflexivity.
      pose proof (ltb_false_leb _ _ Hn N1 H1) as G1.
      pose proof (ltb_false_leb _ _ N2 Hn H2) as G2.
      destruct (sub_EPSILON_inside len G1 G2) as (-> & ->). reflexivity.
Qed.

End Endpoint.

(** ** Steps that advance *)

Lemma rank_lt (a b : float) :
  (0 <=? a) = true -> (a <? b) = true -> (rank a < rank b)%Z.
Proof.
  pose proof (Prim2SF_valid a) as Va. pose proof (Prim2SF_valid b) as Vb.
  unfold rank. rewrite leb_spec, ltb_spec. change (Prim2SF 0) with (S754_zero false).
  destruct (Prim2SF a) as [ [ | ] | [ | ] | | [ | ] ma ea ],
           (Prim2SF b) as [ [ | ] | [ | ] | | [ | ] mb eb ];
    try discriminate; intros _ Hlt; try reflexivity.
  - apply valid_finite in Vb. apply Z.mul_pos_pos; [ lia | apply pow2_pos; lia ].
  - apply valid_finite in Vb. apply Z.mul_pos_pos; [ lia | apply pow2_pos; lia ].
  - apply valid_finite in Va. apply finite_below_top; lia.
  - unfold SFltb in Hlt. rewrite (SFcompare_valid ma mb ea eb Va Vb) in Hlt.
    destruct (Z.compare_spec (Zpos ma * 2 ^ (ea + 1074)) (Zpos mb * 2 ^ (eb + 1074)));
      try discriminate; lia.
Qed.

Lemma rank_le (a b : float) :
  (0 <=? a) = true -> (a <=? b) = true -> (rank a <= rank b)%Z.
Proof.
  intros Ha Hle. rewrite leb_cases in Hle. apply orb_true_iff in Hle.
  destruct Hle as [ Hlt | Heq ].
  - pose proof (rank_lt a b Ha Hlt). lia.
  - apply eqb_same_number in Heq. destruct Heq as [ -> | (s & s' & E1 & E2) ]; [ lia | ].
    unfold rank. rewrite E1, E2. lia.
Qed.

(** The sum of two positive finite numbers before it is rounded. *)
Lemma SFadd_finite (mx my : positive) (ex ey : Z) :
  (-1074 <= ex)%Z -> (-1074 <= ey)%Z ->
  exists (n : positive) (ez : Z),
    (-1074 <= ez /\ ez <= ex /\ ez <= ey /\
     Zpos n * 2 ^ (ez + 1074) = Zpos mx * 2 ^ (ex + 1074) + Zpos my * 2 ^ (ey + 1074))%Z /\
    SF64add (S754_finite false mx ex) (S754_finite false my ey)
      = binary_round prec emax false n ez.
Proof.
  intros Hx Hy. unfold SF64add, SFadd.
  set (ez := Z.min ex ey).
  destruct (shl_align_spec mx ex ez ltac:(lia)) as (ax & -> & Eax).
  destruct (shl_align_spec my ey ez ltac:(lia)) as (ay & -> & Eay).
  cbn [fst cond_Zopp].
  exists (ax + ay)%positive, ez.
  split; [ | reflexivity ].
  split; [ lia | ]. split; [ lia | ]. split; [ lia | ].
  assert (Ex : (Zpos ax * 2 ^ (ez + 1074) = Zpos mx * 2 ^ (ex + 1074))%Z).
  { rewrite Eax, <- Z.mul_assoc, <- Z.pow_add_r by lia. do 2 f_equal. lia. }
  assert (Ey : (Zpos ay * 2 ^ (ez + 1074) = Zpos my * 2 ^ (ey + 1074))%Z).
  { rewrite Eay, <- Z.mul_assoc, <- Z.pow_add_r by lia. do 2 f_equal. lia. }
  rewrite <- Ex, <- Ey, Pos2Z.inj_add. ring.
Qed.

Lemma rank_top (x : float) : (rank x <= 2 ^ 2098)%Z.
Proof.
  pose proof (Prim2SF_valid x) as V. unfold rank.
  pose proof (pow2_pos 2098 ltac:(lia)) as Hp.
  destruct (Prim2SF x) as [ [ | ] | [ | ] | | [ | ] m e ]; try lia.
  apply valid_finite in V. apply Z.lt_le_incl, finite_below_top; lia.
Qed.

(** A step of at least [2^-52] of the length advances every parameter
    below the length. *)
Lemma add_advances (x len s : float) :
  (0 <=? x) = true -> (x <? len) = true -> (0 <? s) = true ->
  (rank len <= 2 ^ 52 * rank s)%Z ->
  (x <? x + s) = true.
Proof.
  intros Hx Hlen Hs Hrank.
  pose proof (rank_lt x len Hx Hlen) as Hr.
  pose proof (rank_top len) as Htop.
  pose proof (Prim2SF_valid x) as Vx. pose proof (Prim2SF_valid s) as Vs.
  pose proof (Prim2SF_valid (x + s)) as VR. rewrite add_spec in VR.
  clear Hlen. revert Hx Hs Hr Hrank VR. unfold rank. fold (rank len).
  rewrite leb_spec, !ltb_spec, add_spec. change (Prim2SF 0) with (S754_zero false).
  destruct (Prim2SF x) as [ [ | ] | [ | ] | | [ | ] mx ex ],
           (Prim2SF s) as [ [ | ] | [ | ] | | [ | ] ms es ];
    try discriminate; try (intros _ _ _ _ _; reflexivity); try (intros _ _ Hr; lia).
  intros _ _ Hr Hrank VR.
  pose proof (valid_finite _ _ _ Vx) as (Hex & _ & _).
  pose proof (valid_finite _ _ _ Vs) as (Hes & _ & _).
  destruct (SFadd_finite mx ms ex es ltac:(lia) ltac:(lia))
    as (n & ez & (Hez & Hzx & Hzs & EN) & ES).
  rewrite ES in *. clear ES.
  set (Vx' := (Zpos mx * 2 ^ (ex + 1074))%Z) in *.
  set (Vs' := (Zpos ms * 2 ^ (es + 1074))%Z) in *.
  pose proof (pow2_pos (es + 1074) ltac:(lia)) as HS.
  assert (Hs0 : (2 ^ (es + 1074) <= Vs')%Z).
  { unfold Vs'. rewrite <- (Z.mul_1_l (2 ^ (es + 1074))) at 1. apply Zscale_le; lia. }
  pose proof (pow2_pos (ez + 1074) ltac:(lia)) as HU.
  pose proof (pow2_le (ez + 1074) (es + 1074) ltac:(lia)) as HUs.
  set (U := (2 ^ (ez + 1074))%Z) in *.
  destruct (binary_round_cases false n ez Hez)
    as (j & q & r & m2 & (Hj & Hj1 & Hj0 & En & Hrr & H1 & H2 & H3) & HR).
  pose proof (pow2_pos j Hj) as HP.
  assert (ET : (2 ^ (ez + j + 1074) = 2 ^ j * U)%Z).
  { unfold U. rewrite <- pow2_split by lia. f_equal. lia. }
  (* the last place of the sum is below twice the step *)
  assert (HT : (2 ^ j * U < 2 * Vs')%Z).
  { destruct (Z.eq_dec j 0) as [ E0 | Hj' ].
    - rewrite E0. change (2 ^ 0)%Z with 1%Z. lia.
    - pose proof (last_place_le n j U ltac:(lia) (Hj1 ltac:(lia)) HU) as Hl.
      change (2 ^ 52)%Z with 4503599627370496%Z in *. lia. }
  assert (Hlt : (Vx' < m2 * 2 ^ (ez + j + 1074))%Z).
  { rewrite ET. apply (round_above Vx' Vs' (Zpos n) U q r m2 (2 ^ j)); auto. }
  destruct HR as [ (m3 & e3 & HR & EV) | (HR & Hinf) ]; rewrite HR in *.
  - unfold SFltb. rewrite (SFcompare_valid mx m3 ex e3 Vx VR). fold Vx'. rewrite EV.
    destruct (Z.compare_spec Vx' (m2 * 2 ^ (ez + j + 1074))); try reflexivity; lia.
  - reflexivity.
Qed.

Lemma rank_nonneg (x : float) : (0 <= rank x)%Z.
Proof.
  unfold rank. destruct (Prim2SF x) as [ [ | ] | [ | ] | | [ | ] m e ]; lia.
Qed.

Lemma rank_le_any (a b : float) : (a <=? b) = true -> (rank a <= rank b)%Z.
Proof.
  intros Hle. destruct (0 <=? a) eqn:Ha; [ now apply rank_le | ].
  pose proof (rank_nonneg b) as Hb.
  assert (E : rank a = 0%Z); [ | lia ].
  revert Ha. unfold rank. rewrite leb_spec. change (Prim2SF 0) with (S754_zero false).
  destruct (Prim2SF a) as [ [ | ] | [ | ] | | [ | ] m e ]; try reflexivity; discriminate.
Qed.

(** A mantissa of more than 53 digits is not aligned before it is
    rounded. *)
Lemma binary_round_aux_long (s : bool) (n : positive) (e : Z) :
  (53 < Zpos (digits2_pos n))%Z ->
  binary_round_aux prec emax s (Zpos n) e loc_Exact = binary_round prec emax s n e.
Proof.
  intros Hd. unfold binary_round, shl_align. rewrite fexp_eq.
  destruct (Z.max (Zpos (digits2_pos n) + e - 53) (-1074) - e)%Z eqn:E; try lia; reflexivity.
Qed.

(** Multiplying by [2^52] is exact, or overflows. *)
Lemma rank_mul_pow52 (s : float) :
  (0 <? s) = true -> (rank (s * 0x1p+52) <= 2 ^ 52 * rank s)%Z.
Proof.
  pose proof (Prim2SF_valid s) as Vs.
  unfold rank. rewrite ltb_spec, mul_spec. change (Prim2SF 0) with (S754_zero false).
  change (Prim2SF 0x1p+52) with (S754_finite false 4503599627370496 0).
  destruct (Prim2SF s) as [ [ | ] | [ | ] | | [ | ] ms es ] eqn:Es; try discriminate.
  intros _.
  pose proof (valid_finite _ _ _ Vs) as (Hes & Hms & Hn).
  unfold SF64mul, SFmul. cbn [xorb]. rewrite Z.add_0_r.
  pose proof (digits2_bounds ms) as B.
  set (ds := Zpos (digits2_pos ms)) in *.
  set (n := (ms * 4503599627370496)%positive).
  assert (En : Zpos n = (Zpos ms * 2 ^ 52)%Z) by reflexivity.
  assert (Dn : Zpos (digits2_pos n) = (ds + 52)%Z).
  { apply digits2_unique. rewrite En.
    replace (ds + 52 - 1)%Z with ((ds - 1) + 52)%Z by lia.
    rewrite !Z.pow_add_r by lia. lia. }
  pose proof (pow2_pos (es + 1074) ltac:(lia)) as HS.
  assert (Hds : (1 <= ds <= 53)%Z).
  { split; [ unfold ds; lia | ].
    assert (Hlt : (2 ^ (ds - 1) < 2 ^ 53)%Z) by lia.
    apply pow2_lt_inv in Hlt; lia. }
  destruct (Z.eq_dec ds 1) as [ E1 | N1 ].
  - (* the smallest positive number *)
    rewrite E1 in B. change (2 ^ (1 - 1))%Z with 1%Z in B. change (2 ^ 1)%Z with 2%Z in B.
    assert (ms = 1%positive) by lia. subst ms.
    assert (es = (-1074)%Z).
    { destruct (Z.eq_dec es (-1074)) as [ E | E ]; [ exact E | ].
      specialize (Hn ltac:(lia)). change (2 ^ 52)%Z with 4503599627370496%Z in Hn. lia. }
    subst es. vm_compute. discriminate.
  - rewrite binary_round_aux_long by lia.
    destruct (binary_round_cases false n es ltac:(lia))
      as (j & q & r & m2 & (Hj & Hj1 & Hj0 & Eq & Hr & H1 & H2 & H3) & HR).
    assert (Ej : (j = ds - 1)%Z).
    { destruct (Z.eq_dec j 0) as [ E0 | E0 ]; [ specialize (Hj0 E0); lia | ].
      specialize (Hj1 ltac:(lia)). lia. }
    pose proof (pow2_pos j Hj) as HP.
    assert (E52 : (2 ^ 52 = 2 ^ (52 - j) * 2 ^ j)%Z).
    { rewrite <- pow2_split by lia. f_equal. lia. }
    assert (ET : (2 ^ (es + j + 1074) = 2 ^ j * 2 ^ (es + 1074))%Z).
    { rewrite <- pow2_split by lia. f_equal. lia. }
    assert (Er : r = 0%Z).
    { apply (quotient_zero (Zpos ms * 2 ^ (52 - j) - q) (2 ^ j)); [ | exact Hr ].
      rewrite Z.mul_sub_distr_r, <- Z.mul_assoc, <- E52, <- En. lia. }
    rewrite (H1 ltac:(lia)) in HR.
    assert (EV : (q * 2 ^ (es + j + 1074) = 2 ^ 52 * (Zpos ms * 2 ^ (es + 1074)))%Z).
    { rewrite ET, Z.mul_assoc.
      replace (q * 2 ^ j)%Z with (Zpos n) by lia. rewrite En. ring. }
    destruct HR as [ (m3 & e3 & -> & E3) | (-> & Hinf) ]; lia.
Qed.

Section Termination.

Context {libm : Libm}.
Context {U : Type}.
Variables (path : DubinsPath) (cb : DubinsPathSamplingCallback U) (stepSize : float).

Lemma sample_many_loop_ends :
  valid_type (type path) ->
  (0 <? stepSize) = true ->
  (rank (dubins_path_length path) <= 2 ^ 52 * rank stepSize)%Z ->
  forall (m : nat) (x : float) (q : double3) (u : U),
  (0 <=? x) = true ->
  (rank (dubins_path_length path) - rank x <= Z.of_nat m)%Z ->
  exists fuel r,
    sample_many_loop fuel path cb stepSize (dubins_path_length path) x q u = Ret r.
Proof.
  intros Hty Hs Hrank.
  induction m as [ | m IH ]; intros x q u Hx Hm;
    (destruct (x <? dubins_path_length path) eqn:Hlt;
     [ | exists 1%nat; eexists; simpl; rewrite Hlt; reflexivity ]);
    pose proof (rank_lt _ _ Hx Hlt) as Hr; [ lia | ].
  destruct (dubins_path_sample_defined path x q Hty) as (c & q' & E).
  destruct (cb q' x u) as [ retcode u' ] eqn:Ecb.
  destruct (retcode =? 0)%Z eqn:E0.
  - pose proof (add_advances x _ stepSize Hx Hlt Hs Hrank) as Hadv.
    pose proof (rank_lt _ _ Hx Hadv) as Hr'.
    assert (Hx' : (0 <=? x + stepSize) = true).
    { rewrite leb_cases, (leb_ltb_trans _ _ _ Hx Hadv). reflexivity. }
    destruct (IH (x + stepSize) q' u' Hx' ltac:(lia)) as (fuel & r & Hf).
    exists (S fuel), r. simpl. rewrite Hlt, E, Ecb, E0. exact Hf.
  - exists 1%nat, (retcode, u'). simpl. rewrite Hlt, E, Ecb, E0. reflexivity.
Qed.

(** X17.  On a path with one of the six types, with a [stepSize > 0] that
    is at least [2^-52] of the length of the path (the length is [<=]
    [stepSize * 2^52]), [dubins_path_sample_many] returns, whatever the
    visitor does: every sum [x + stepSize] below the length is above [x],
    and there are finitely many numbers below the length. *)
Theorem dubins_path_sample_many_terminates (q0 : double3) (u0 : U) :
  valid_type (type path) ->
  (0 <? stepSize) = true ->
  (dubins_path_length path <=? stepSize * 0x1p+52) = true ->
  exists fuel r, dubins_path_sample_many fuel q0 path cb stepSize u0 = Ret r.
Proof.
  intros Hty Hs Hlen. unfold dubins_path_sample_many.
  pose proof (rank_le_any _ _ Hlen) as H1.
  pose proof (rank_mul_pow52 _ Hs) as H2.
  pose proof (rank_nonneg (dubins_path_length path)) as H3.
  apply (sample_many_loop_ends Hty Hs ltac:(lia)
           (Z.to_nat (rank (dubins_path_length path)))); [ reflexivity | ].
  change (rank 0) with 0%Z. lia.
Qed.

End Termination.

(** A number [<= 0] plus a negative number is negative. *)
Lemma add_negative (a s : float) :
  (a <=? 0) = true -> (s <? 0) = true -> (a + s <? 0) = true.
Proof.
  pose proof (Prim2SF_valid a) as Va. pose proof (Prim2SF_valid s) as Vs.
  rewrite leb_spec, !ltb_spec, add_spec. change (Prim2SF 0) with (S754_zero false).
  destruct (Prim2SF a) as [ [ | ] | [ | ] | | [ | ] ma ea ],
           (Prim2SF s) as [ [ | ] | [ | ] | | [ | ] ms es ];
    try discriminate; try (intros _ _; reflexivity).
  intros _ _.
  pose proof (valid_finite _ _ _ Va) as (Hea & _ & _).
  pose proof (valid_finite _ _ _ Vs) as (Hes & _ & _).
  unfold SF64add, SFadd. cbn [cond_Zopp].
  apply binary_normalize_neg; lia.
Qed.

Section Ignored.

Context {libm : Libm}.
Variables (path : DubinsPath) (stepSize : float).

Lemma sample_x_nonneg (n : nat) (x : float) :
  (0 <=? stepSize) = true -> (0 <=? x) = true -> (0 <=? sample_x stepSize n x) = true.
Proof.
  intros Hs. revert x. induction n as [ | n IH ]; intros x Hx; simpl; [ exact Hx | ].
  apply IH. now apply add_nonneg.
Qed.

Lemma sample_x_negative (n : nat) (x : float) :
  (stepSize <? 0) = true -> (x <? 0) = true -> (sample_x stepSize n x <? 0) = true.
Proof.
  intros Hs. revert x. induction n as [ | n IH ]; intros x Hx; simpl; [ exact Hx | ].
  apply IH. apply add_negative; [ | exact Hs ].
  rewrite leb_cases, Hx. reflexivity.
Qed.

(** X18.  [dubins_path_sample_many] drops the code that
    [dubins_path_sample] returns.  On a path with one of the six types:
    with [stepSize >= 0] the dropped code is [EDUBOK] at every round, since
    every parameter [0 + stepSize + ... + stepSize] below the length is
    [>= 0]; with [stepSize < 0] it is [EDUBPARAM] at every round after the
    first, the array [q] is left as it was, and the visitor is given the
    configuration of the round before again. *)
Theorem dubins_path_sample_many_dropped_code :
  valid_type (type path) ->
  ((0 <=? stepSize) = true ->
     forall n, (sample_x stepSize n 0 <? dubins_path_length path) = true ->
       exists pose,
         forall q, dubins_path_sample path (sample_x stepSize n 0) q = Some (EDUBOK, pose)) /\
  ((stepSize <? 0) = true ->
     forall n q, dubins_path_sample path (sample_x stepSize (S n) 0) q = Some (EDUBPARAM, q)).
Proof.
  intros Hty. split.
  - intros Hs n Hlt. apply dubins_path_sample_in_range; [ exact Hty | ].
    rewrite (leb_ltb_false _ _ (sample_x_nonneg n 0 Hs eq_refl)).
    rewrite (ltb_leb_false _ _ Hlt). reflexivity.
  - intros Hs n q. unfold dubins_path_sample. cbn [sample_x].
    rewrite (sample_x_negative n (0 + stepSize)); [ reflexivity | exact Hs | ].
    rewrite (same_number_ltb_l _ (0 + stepSize) stepSize); [ exact Hs | ].
    apply add_zero_l. exists false. reflexivity.
Qed.

End Ignored.

(** ** Sub-paths of valid paths *)

(** The difference of two numbers [>= 0], the smaller one subtracted, is
    [>= 0]; it is NaN for two infinities. *)
Lemma sub_nonneg (a b : float) :
  (0 <=? b) = true -> (b <=? a) = true ->
  is_nan (a - b) = true \/ (0 <=? a - b) = true.
Proof.
  pose proof (Prim2SF_valid a) as Va. pose proof (Prim2SF_valid b) as Vb.
  rewrite is_nan_spec, !leb_spec, sub_spec. change (Prim2SF 0) with (S754_zero false).
  destruct (Prim2SF a) as [ [ | ] | [ | ] | | [ | ] ma ea ],
           (Prim2SF b) as [ [ | ] | [ | ] | | [ | ] mb eb ];
    try discriminate; try (intros _ _; right; reflexivity); try (intros _ _; left; reflexivity).
  intros _ Hle. right.
  pose proof (valid_finite _ _ _ Va) as (Hea & _ & _).
  pose proof (valid_finite _ _ _ Vb) as (Heb & _ & _).
  unfold SFleb in Hle. rewrite (SFcompare_valid mb ma eb ea Vb Va) in Hle.
  destruct (SFsub_finite false ma mb ea eb ltac:(lia) ltac:(lia))
    as (N & ez & (Hez & _ & _ & EN) & ->).
  cbn [cond_Zopp] in EN.
  pose proof (pow2_pos (ez + 1074) ltac:(lia)) as HU.
  assert (HN : (0 <= N)%Z).
  { destruct (Z.le_gt_cases 0 N) as [ H | H ]; [ exact H | exfalso ].
    assert (N * 2 ^ (ez + 1074) < 0 * 2 ^ (ez + 1074))%Z by (apply Zscale_lt; lia).
    destruct (Z.compare_spec (Zpos mb * 2 ^ (eb + 1074)) (Zpos ma * 2 ^ (ea + 1074)));
      try discriminate; lia. }
  destruct N as [ | n | n ]; [ reflexivity | | lia ].
  unfold binary_normalize.
  destruct (binary_round_cases false n ez Hez)
    as (j & q & r & m2 & _ & [ (m3 & e3 & -> & _) | (-> & _) ]); reflexivity.
Qed.

(** A number [>= 0] divided by a number [> 0] is [>= 0]; it is NaN for two
    infinities. *)
Lemma div_nonneg (t r : float) :
  (0 <=? t) = true -> (0 <? r) = true ->
  is_nan (t / r) = true \/ (0 <=? t / r) = true.
Proof.
  rewrite is_nan_spec, !leb_spec, ltb_spec, div_spec. change (Prim2SF 0) with (S754_zero false).
  destruct (Prim2SF t) as [ [ | ] | [ | ] | | [ | ] mt et ],
           (Prim2SF r) as [ [ | ] | [ | ] | | [ | ] mr er ];
    try discriminate; try (intros _ _; right; reflexivity); try (intros _ _; left; reflexivity).
  intros _ _. right. apply SFsigned_false_leb.
  apply (SFdiv_signed (S754_finite false mt et) (S754_finite false mr er) false false);
    simpl; auto.
Qed.


(** ** Rounding is monotone *)

Lemma representable_top : representable (2 ^ 2098).
Proof. exists (2 ^ 53)%Z, 2045%Z. split; [ reflexivity | lia ]. Qed.

Lemma representable_min (c : Z) : representable c -> representable (Z.min c (2 ^ 2098)).
Proof.
  intros H. destruct (Z.min_spec c (2 ^ 2098)) as [ (_ & ->) | (_ & ->) ];
    [ exact H | apply representable_top ].
Qed.

(** Between two neighbours [q * 2^E] and [(q + 1) * 2^E] of the numbers
    with 53 bits there is no other number. *)
Lemma grid_below (c q E : Z) :
  representable c -> (0 <= E)%Z -> (0 <= q)%Z -> (2 ^ 52 <= q \/ E = 0)%Z ->
  (c < (q + 1) * 2 ^ E)%Z -> (c <= q * 2 ^ E)%Z.
Proof.
  intros (m & k & -> & Hm & Hk) HE Hq Hg Hlt.
  pose proof (pow2_pos E HE) as HP.
  destruct (Z.le_gt_cases E k) as [ Hle | Hgt ].
  - assert (Ek : (2 ^ k = 2 ^ (k - E) * 2 ^ E)%Z).
    { rewrite <- pow2_split by lia. f_equal. lia. }
    rewrite Ek, Z.mul_assoc in *.
    assert (H : (m * 2 ^ (k - E) < q + 1)%Z) by (apply (Zscale_lt_inv _ _ (2 ^ E) HP); exact Hlt).
    apply Zscale_le; lia.
  - destruct Hg as [ Hg | Hg ]; [ | lia ].
    assert (H : (2 ^ (k + 1) <= 2 ^ E)%Z) by (apply pow2_le; lia).
    rewrite (pow2_split k 1) in H by lia. change (2 ^ 1)%Z with 2%Z in H.
    pose proof (pow2_pos k Hk) as HK.
    apply Z.le_trans with (2 ^ 53 * 2 ^ k)%Z; [ apply Zscale_le; lia | ].
    apply Z.le_trans with (2 ^ 52 * 2 ^ E)%Z; [ | apply Zscale_le; lia ].
    change (2 ^ 53)%Z with (2 ^ 52 * 2)%Z. rewrite <- Z.mul_assoc.
    apply Z.mul_le_mono_nonneg_l; lia.
Qed.

(** The mantissa of a shifted record. *)
Lemma shr_1_half (mrs : shr_record) :
  (0 <= shr_m mrs)%Z -> shr_m (shr_1 mrs) = (shr_m mrs / 2)%Z.
Proof.
  destruct mrs as [ m r s ]. cbn [shr_m]. intros H.
  destruct m as [ | [ p | p | ] | p ]; try lia; cbn [shr_1 shr_m].
  - reflexivity.
  - apply (Z.div_unique (Zpos p~1) 2 (Zpos p) 1); lia.
  - apply (Z.div_unique (Zpos p~0) 2 (Zpos p) 0); lia.
  - reflexivity.
Qed.

Lemma shr_m_shr (mrs : shr_record) (e n : Z) :
  (0 <= shr_m mrs)%Z -> (0 <= n)%Z ->
  shr_m (fst (shr mrs e n)) = (shr_m mrs / 2 ^ n)%Z /\ snd (shr mrs e n) = (e + n)%Z.
Proof.
  intros Hm Hn. destruct n as [ | p | p ]; try lia.
  - cbn [shr fst snd]. change (2 ^ 0)%Z with 1%Z. rewrite Z.div_1_r. split; [ reflexivity | lia ].
  - cbn [shr fst snd]. split; [ | reflexivity ].
    apply (iter_pos_count (fun k r => shr_m r = shr_m mrs / 2 ^ k)%Z shr_1)
      with (n := p) (j := 0%Z) (x := mrs); [ | lia | ].
    + intros j x Hj Hx.
      assert (Hx0 : (0 <= shr_m x)%Z).
      { rewrite Hx. apply Z.div_pos; [ exact Hm | apply pow2_pos; exact Hj ]. }
      rewrite (shr_1_half x Hx0), Hx, Z.pow_add_r by lia. change (2 ^ 1)%Z with 2%Z.
      apply Z.div_div; [ | lia ].
      pose proof (pow2_pos j Hj). lia.
    + change (2 ^ 0)%Z with 1%Z. now rewrite Z.div_1_r.
Qed.

Lemma shr_m_of_loc (m : Z) (l : location) : shr_m (shr_record_of_loc m l) = m.
Proof. destruct l as [ | [ | | ] ]; reflexivity. Qed.

Lemma round_nearest_even_cases (q : Z) (l : location) :
  round_nearest_even q l = q \/ round_nearest_even q l = (q + 1)%Z.
Proof.
  destruct l as [ | [ | | ] ]; cbn [round_nearest_even]; auto.
  destruct (Z.even q); auto.
Qed.

Lemma Zdigits2_bounds (m : Z) :
  (0 < m)%Z -> (2 ^ (Zdigits2 m - 1) <= m < 2 ^ Zdigits2 m)%Z.
Proof.
  destruct m as [ | p | p ]; try lia. intros _. apply digits2_bounds.
Qed.

Lemma Zdigits2_nonneg (m : Z) : (0 <= Zdigits2 m)%Z.
Proof. destruct m; simpl; lia. Qed.

Lemma Zdigits2_le (m : Z) (d : Z) : (0 <= d)%Z -> (0 <= m < 2 ^ d)%Z -> (Zdigits2 m <= d)%Z.
Proof.
  intros Hd Hm. destruct (Z.eq_dec m 0) as [ -> | N ]; [ exact Hd | ].
  pose proof (Zdigits2_bounds m ltac:(lia)) as B.
  pose proof (Zdigits2_nonneg m) as H0.
  destruct (Z.le_gt_cases (Zdigits2 m) d) as [ H | H ]; [ exact H | exfalso ].
  assert (Hp : (2 ^ d <= 2 ^ (Zdigits2 m - 1))%Z) by (apply pow2_le; lia).
  lia.
Qed.

(** What [binary_round_aux] makes of a mantissa [m] that has all the bits
    the format asks for: with [q] the mantissa shifted by [j] places, the
    result is at least [q * 2^(e + j)], or it is the infinity. *)
Lemma binary_round_aux_floor (m e : Z) (l : location) :
  (0 <= m)%Z -> (e <= fexp prec emax (Zdigits2 m + e))%Z ->
  exists q j : Z,
    (0 <= j)%Z /\ (0 <= e + j + 1074)%Z /\ (0 <= q)%Z /\
    (m < (q + 1) * 2 ^ j)%Z /\
    (2 ^ 52 <= q \/ e + j + 1074 = 0)%Z /\
    (Z.min (q * 2 ^ (e + j + 1074)) (2 ^ 2098)
       <= SFrank (binary_round_aux prec emax false m e l))%Z.
Proof.
  intros Hm Hside.
  pose proof (Zdigits2_nonneg m) as Hd0.
  set (d := Zdigits2 m) in *.
  pose proof (fexp_eq (d + e)) as Ef.
  set (f := fexp prec emax (d + e)) in *.
  set (j := (f - e)%Z).
  assert (Hj : (0 <= j)%Z) by (unfold j; lia).
  pose proof (pow2_pos j Hj) as HP.
  set (q := (m / 2 ^ j)%Z).
  assert (Hq : (0 <= q)%Z) by (apply Z.div_pos; lia).
  assert (Hmq : (q * 2 ^ j <= m < (q + 1) * 2 ^ j)%Z).
  { pose proof (Z.div_mod m (2 ^ j) ltac:(lia)) as E.
    pose proof (Z.mod_pos_bound m (2 ^ j) HP) as B. fold q in E. lia. }
  assert (Hm53 : (m < 2 ^ 53 * 2 ^ j)%Z).
  { destruct (Z.eq_dec m 0) as [ -> | N ]; [ lia | ].
    pose proof (Zdigits2_bounds m ltac:(lia)) as B. fold d in B.
    assert (Hp : (2 ^ d <= 2 ^ (53 + j))%Z) by (apply pow2_le; unfold j; lia).
    rewrite (pow2_split 53 j) in Hp by lia. lia. }
  assert (Hq53 : (q < 2 ^ 53)%Z).
  { apply Z.div_lt_upper_bound; [ exact HP | ]. rewrite Z.mul_comm. exact Hm53. }
  assert (Hgrid : (2 ^ 52 <= q \/ e + j + 1074 = 0)%Z).
  { destruct (Z.eq_dec f (-1074)) as [ E | N ]; [ right; unfold j; lia | left ].
    assert (Ej : j = (d - 53)%Z) by (unfold j; lia).
    assert (Hpos : (0 < m)%Z).
    { destruct (Z.eq_dec m 0) as [ E0 | N0 ]; [ | lia ].
      exfalso. unfold d in Ej. rewrite E0 in Ej. simpl in Ej. lia. }
    pose proof (Zdigits2_bounds m Hpos) as B. fold d in B.
    replace (d - 1)%Z with (52 + j)%Z in B by lia.
    rewrite (pow2_split 52 j) in B by lia.
    apply Z.div_le_lower_bound; [ exact HP | ]. rewrite Z.mul_comm. apply B. }
  exists q, j.
  split; [ exact Hj | ]. split; [ unfold j; lia | ]. split; [ exact Hq | ].
  split; [ apply Hmq | ]. split; [ exact Hgrid | ].
  replace (e + j + 1074)%Z with (f + 1074)%Z by (unfold j; lia).
  assert (Hf : (0 <= f + 1074)%Z) by lia.
  pose proof (pow2_pos (f + 1074) Hf) as HF.
  (* the first shift *)
  unfold binary_round_aux, shr_fexp. fold d. fold f. fold j.
  destruct (shr_m_shr (shr_record_of_loc m l) e j) as (E1 & E2);
    [ rewrite shr_m_of_loc; exact Hm | exact Hj | ].
  rewrite shr_m_of_loc in E1. fold q in E1.
  destruct (shr (shr_record_of_loc m l) e j) as [ mrs' e' ]. cbn [fst snd] in E1, E2.
  rewrite E1. replace e' with f by (unfold j in E2; lia).
  set (m1 := round_nearest_even q (loc_of_shr_record mrs')).
  assert (Hm1 : (q <= m1 <= q + 1)%Z).
  { unfold m1. destruct (round_nearest_even_cases q (loc_of_shr_record mrs')) as [ -> | -> ]; lia. }
  clearbody m1.
  (* the second shift *)
  cbn [shr_record_of_loc].
  destruct (Z.eq_dec m1 (2 ^ 53)) as [ Etop | Ntop ].
  - subst m1. change (Zdigits2 (2 ^ 53)) with 54%Z.
    rewrite fexp_eq. replace (Z.max (54 + f - 53) (-1074) - f)%Z with 1%Z by lia.
    cbn [shr iter_pos shr_1 shr_m fst snd]. change (2 ^ 53)%Z with 9007199254740992%Z.
    cbn [shr_1 shr_m].
    destruct (f + 1 <=? emax - prec)%Z eqn:Ho; cbn [SFrank].
    + replace (f + 1 + 1074)%Z with (1 + (f + 1074))%Z by lia.
      rewrite (pow2_split 1) by lia. change (2 ^ 1)%Z with 2%Z.
      apply Z.le_trans with (q * 2 ^ (f + 1074))%Z; [ apply Z.le_min_l | ].
      rewrite Z.mul_assoc. apply Zscale_le; [ exact HF | ].
      change (2 ^ 53)%Z with 9007199254740992%Z in Hq53. lia.
    + apply Z.le_min_r.
  - assert (Hd1 : (Zdigits2 m1 <= 53)%Z) by (apply Zdigits2_le; lia).
    assert (Hn : (fexp prec emax (Zdigits2 m1 + f) - f <= 0)%Z) by (rewrite fexp_eq; lia).
    assert (Es : shr (Build_shr_record m1 false false) f (fexp prec emax (Zdigits2 m1 + f) - f)
                 = (Build_shr_record m1 false false, f)).
    { unfold shr. destruct (fexp prec emax (Zdigits2 m1 + f) - f)%Z; try lia; reflexivity. }
    rewrite Es. cbn [shr_m].
    destruct m1 as [ | p1 | p1 ]; try lia.
    + cbn [SFrank]. assert (q = 0%Z) by lia. subst q. rewrite H. simpl. lia.
    + destruct (f <=? emax - prec)%Z eqn:Ho; cbn [SFrank].
      * apply Z.le_trans with (q * 2 ^ (f + 1074))%Z; [ apply Z.le_min_l | ].
        apply Zscale_le; lia.
      * apply Z.le_min_r.
Qed.

(** ** Numbers as multiples of [2^-1074] *)

Lemma rank_SF (x : float) : rank x = SFrank (Prim2SF x).
Proof. reflexivity. Qed.

Lemma rank_representable (x : float) : representable (rank x).
Proof.
  pose proof (Prim2SF_valid x) as V. unfold rank.
  destruct (Prim2SF x) as [ s | [ | ] | | [ | ] m e ];
    try (exists 0%Z, 0%Z; split; [ reflexivity | lia ]).
  - apply representable_top.
  - apply valid_finite in V. exists (Zpos m), (e + 1074)%Z. split; [ reflexivity | lia ].
Qed.

Lemma rank_below_top (x : float) : (x <? infinity) = true -> (rank x < 2 ^ 2098)%Z.
Proof.
  pose proof (Prim2SF_valid x) as V. unfold rank. rewrite ltb_spec.
  change (Prim2SF infinity) with (S754_infinity false).
  pose proof (pow2_pos 2098 ltac:(lia)) as Hp.
  destruct (Prim2SF x) as [ s | [ | ] | | [ | ] m e ]; try discriminate; intros _; try lia.
  apply valid_finite in V. apply finite_below_top; lia.
Qed.

Lemma rank_same (x y : float) : same_number x y -> rank x = rank y.
Proof.
  intros [ -> | (s & s' & E1 & E2) ]; [ reflexivity | ].
  unfold rank. rewrite E1, E2. reflexivity.
Qed.

(** Numbers [>= 0] compare as their ranks do. *)
Lemma rank_le_inv (a b : float) :
  (0 <=? a) = true -> (0 <=? b) = true -> (rank a <= rank b)%Z -> (a <=? b) = true.
Proof.
  pose proof (Prim2SF_valid a) as Va. pose proof (Prim2SF_valid b) as Vb.
  unfold rank. rewrite !leb_spec. change (Prim2SF 0) with (S754_zero false).
  pose proof (pow2_pos 2098 ltac:(lia)) as Hp.
  destruct (Prim2SF a) as [ [ | ] | [ | ] | | [ | ] ma ea ],
           (Prim2SF b) as [ [ | ] | [ | ] | | [ | ] mb eb ];
    try discriminate; intros _ _ H; try reflexivity;
    try (exfalso; lia);
    try (exfalso; apply valid_finite in Vb;
         pose proof (finite_below_top (Zpos mb) eb ltac:(lia) ltac:(lia)); lia);
    try (exfalso; apply valid_finite in Va;
         pose proof (pow2_pos (ea + 1074) ltac:(lia));
         pose proof (Z.mul_pos_pos (Zpos ma) (2 ^ (ea + 1074)) ltac:(lia) ltac:(lia)); lia).
  unfold SFleb. rewrite (SFcompare_valid ma mb ea eb Va Vb).
  destruct (Z.compare_spec (Zpos ma * 2 ^ (ea + 1074)) (Zpos mb * 2 ^ (eb + 1074)));
    try reflexivity; lia.
Qed.

Lemma min_top (c r : Z) : (Z.min c (2 ^ 2098) <= r)%Z -> (r < 2 ^ 2098)%Z -> (c <= r)%Z.
Proof. intros H1 H2. destruct (Z.min_spec c (2 ^ 2098)) as [ (_ & E) | (_ & E) ]; lia. Qed.

Lemma digits2_normal (p : positive) : (2 ^ 52 <= Zpos p)%Z -> (53 <= Zpos (digits2_pos p))%Z.
Proof.
  intros H. pose proof (digits2_bounds p) as B.
  assert (Hlt : (2 ^ 52 < 2 ^ Zpos (digits2_pos p))%Z) by lia.
  apply pow2_lt_inv in Hlt; lia.
Qed.

(** *** Products *)

Lemma rank_mul_lower (a b : float) (c : Z) :
  (0 <=? a) = true -> (0 <=? b) = true -> representable c ->
  (c * 2 ^ 1074 <= rank a * rank b)%Z ->
  (Z.min c (2 ^ 2098) <= rank (a * b))%Z.
Proof.
  pose proof (Prim2SF_valid a) as Va. pose proof (Prim2SF_valid b) as Vb.
  pose proof (rank_nonneg (a * b)) as Hnn. revert Hnn.
  unfold rank. rewrite !leb_spec, mul_spec. change (Prim2SF 0) with (S754_zero false).
  pose proof (pow2_pos 1074 ltac:(lia)) as HW.
  assert (Hzero : forall x, (0 <= x)%Z -> (c * 2 ^ 1074 <= 0)%Z -> (Z.min c (2 ^ 2098) <= x)%Z).
  { intros x Hx Hc. pose proof (Z.le_min_l c (2 ^ 2098)) as Hl.
    destruct (Z.le_gt_cases c 0) as [ H0 | H0 ]; [ lia | exfalso ].
    pose proof (Z.mul_pos_pos c (2 ^ 1074) H0 HW). lia. }
  destruct (Prim2SF a) as [ [ | ] | [ | ] | | [ | ] ma ea ],
           (Prim2SF b) as [ [ | ] | [ | ] | | [ | ] mb eb ];
    try discriminate; intros Hnn _ _ Hrep Hc;
    try (apply Hzero; [ exact Hnn | rewrite ?Z.mul_0_l, ?Z.mul_0_r in Hc; exact Hc ]);
    try apply Z.le_min_r.
  pose proof (valid_finite _ _ _ Va) as (Hea & Hma & Hna).
  pose proof (valid_finite _ _ _ Vb) as (Heb & Hmb & Hnb).
  unfold SF64mul, SFmul. cbn [xorb].
  destruct (binary_round_aux_floor (Zpos (ma * mb)) (ea + eb) loc_Exact)
    as (q & j & Hj & HE & Hq & Hmq & Hgrid & Hres); [ lia | | ].
  { (* the product has all its bits *)
    rewrite fexp_eq. cbn [Zdigits2].
    destruct (Z.eq_dec ea (-1074)) as [ E1 | N1 ];
      [ destruct (Z.eq_dec eb (-1074)) as [ E2 | N2 ]; [ lia | ] | ].
    - assert (H52 : (2 ^ 52 <= Zpos (ma * mb))%Z).
      { rewrite Pos2Z.inj_mul. specialize (Hnb ltac:(lia)).
        apply Z.le_trans with (1 * Zpos mb)%Z; [ lia | ].
        apply Z.mul_le_mono_nonneg_r; lia. }
      pose proof (digits2_normal _ H52). lia.
    - assert (H52 : (2 ^ 52 <= Zpos (ma * mb))%Z).
      { rewrite Pos2Z.inj_mul. specialize (Hna ltac:(lia)).
        apply Z.le_trans with (Zpos ma * 1)%Z; [ lia | ].
        apply Z.mul_le_mono_nonneg_l; lia. }
      pose proof (digits2_normal _ H52). lia. }
  eapply Z.le_trans; [ | exact Hres ].
  apply Z.min_glb; [ | apply Z.le_min_r ].
  apply grid_below; auto using representable_min.
  (* [c * 2^1074 <= ma * mb * 2^(ea + eb + 2148) < (q + 1) * 2^(e + j + 1074) * 2^1074] *)
  apply (Zscale_lt_inv _ _ (2 ^ 1074) HW).
  apply Z.le_lt_trans with (c * 2 ^ 1074)%Z.
  { apply Zscale_le; [ exact HW | apply Z.le_min_l ]. }
  apply Z.le_lt_trans with (Zpos (ma * mb) * 2 ^ (ea + eb + 2148))%Z.
  { eapply Z.le_trans; [ exact Hc | ]. apply Z.eq_le_incl.
    replace (ea + eb + 2148)%Z with ((ea + 1074) + (eb + 1074))%Z by lia.
    rewrite (pow2_split (ea + 1074) (eb + 1074)), Pos2Z.inj_mul by lia. ring. }
  replace ((q + 1) * 2 ^ (ea + eb + j + 1074) * 2 ^ 1074)%Z
    with ((q + 1) * 2 ^ j * 2 ^ (ea + eb + 2148))%Z.
  - apply Zscale_lt; [ apply pow2_pos; lia | exact Hmq ].
  - rewrite <- !Z.mul_assoc, <- !pow2_split by lia. do 2 f_equal. lia.
Qed.

(** *** Quotients *)

Lemma shifted_mantissa (m s : Z) :
  (0 <= s)%Z ->
  match s with Zpos _ => Z.shiftl m s | Z0 => m | Zneg _ => 0%Z end = (m * 2 ^ s)%Z.
Proof.
  intros Hs. destruct s as [ | p | p ]; try lia.
  apply Z.shiftl_mul_pow2. lia.
Qed.

Lemma rank_div_lower (t r : float) (c : Z) :
  (0 <=? t) = true -> (0 <? r) = true -> (r <? infinity) = true -> representable c ->
  (c * rank r <= rank t * 2 ^ 1074)%Z ->
  (Z.min c (2 ^ 2098) <= rank (t / r))%Z.
Proof.
  pose proof (Prim2SF_valid t) as Vt. pose proof (Prim2SF_valid r) as Vr.
  pose proof (rank_nonneg (t / r)) as Hnn. revert Hnn.
  unfold rank. rewrite leb_spec, !ltb_spec, div_spec.
  change (Prim2SF 0) with (S754_zero false).
  change (Prim2SF infinity) with (S754_infinity false).
  destruct (Prim2SF r) as [ [ | ] | [ | ] | | [ | ] mr er ]; try discriminate.
  pose proof (valid_finite _ _ _ Vr) as (Her & Hmr & Hnr).
  pose proof (pow2_pos (er + 1074) ltac:(lia)) as HR.
  assert (HRpos : (0 < Zpos mr * 2 ^ (er + 1074))%Z) by (apply Z.mul_pos_pos; lia).
  destruct (Prim2SF t) as [ [ | ] | [ | ] | | [ | ] mt et ];
    try discriminate; intros Hnn _ _ _ Hrep Hc; try apply Z.le_min_r.
  1, 2: pose proof (Z.le_min_l c (2 ^ 2098)) as Hl;
    destruct (Z.le_gt_cases c 0) as [ H0 | H0 ]; [ simpl; lia | exfalso ];
    pose proof (Z.mul_pos_pos c _ H0 HRpos); lia.
  pose proof (valid_finite _ _ _ Vt) as (Het & Hmt & Hnt).
  unfold SF64div, SFdiv. cbn [xorb].
  unfold SFdiv_core_binary. cbn [Zdigits2].
  pose proof (digits2_bounds mt) as Bt. pose proof (digits2_bounds mr) as Br.
  set (d1 := Zpos (digits2_pos mt)) in *. set (d2 := Zpos (digits2_pos mr)) in *.
  pose proof (fexp_eq (d1 + et - (d2 + er))) as Ef.
  set (f := fexp prec emax (d1 + et - (d2 + er))) in *.
  set (e' := Z.min f (et - er)).
  set (s := (et - er - e')%Z).
  assert (Hs : (0 <= s)%Z) by (unfold s, e'; lia).
  pose proof (pow2_pos s Hs) as HS.
  set (m' := match s with Zpos _ => Z.shiftl (Zpos mt) s | Z0 => Zpos mt | Zneg _ => 0%Z end).
  assert (Em : m' = (Zpos mt * 2 ^ s)%Z) by (apply shifted_mantissa; exact Hs).
  clearbody m'.
  pose proof (Z_div_mod m' (Zpos mr) ltac:(lia)) as Hdiv.
  destruct (Z.div_eucl m' (Zpos mr)) as [ q0 r0 ]. destruct Hdiv as (Eq0 & Hr0).
  assert (Hq0 : (0 <= q0)%Z).
  { destruct (Z.le_gt_cases 0 q0) as [ H | H ]; [ exact H | exfalso ].
    assert (Zpos mr * q0 <= Zpos mr * (-1))%Z by (apply Z.mul_le_mono_nonneg_l; lia).
    assert (0 < m')%Z by (rewrite Em; apply Z.mul_pos_pos; lia). lia. }
  destruct (binary_round_aux_floor q0 e' (new_location (Zpos mr) r0))
    as (q & j & Hj & HE & Hq & Hmq & Hgrid & Hres); [ exact Hq0 | | ].
  { (* the quotient has all its bits *)
    rewrite fexp_eq.
    destruct (Z.le_gt_cases e' (-1074)) as [ Hlow | Hhigh ]; [ lia | ].
    assert (He53 : (e' <= d1 + et - (d2 + er) - 53)%Z) by (unfold e' in *; lia).
    assert (H52 : (2 ^ 52 <= q0)%Z).
    { assert (Hp : (2 ^ (52 + d2) <= 2 ^ (d1 - 1 + s))%Z) by (apply pow2_le; unfold s; lia).
      rewrite (pow2_split 52 d2), (pow2_split (d1 - 1) s) in Hp by (unfold d1, d2; lia).
      assert (H1 : (2 ^ 52 * Zpos mr <= 2 ^ 52 * 2 ^ d2)%Z)
        by (apply Z.mul_le_mono_nonneg_l; lia).
      assert (H2 : (2 ^ (d1 - 1) * 2 ^ s <= m')%Z) by (rewrite Em; apply Zscale_le; lia).
      assert (H3 : (Zpos mr * 2 ^ 52 < Zpos mr * (q0 + 1))%Z) by lia.
      apply Z.mul_lt_mono_pos_l in H3; lia. }
    destruct q0 as [ | p0 | p0 ]; try lia.
    pose proof (digits2_normal p0 H52). cbn [Zdigits2]. lia. }
  eapply Z.le_trans; [ | exact Hres ].
  apply Z.min_glb; [ | apply Z.le_min_r ].
  apply grid_below; auto using representable_min.
  clear Hres Hnn Vt Vr.
  (* cancel [mr * 2^(er + 2148)] *)
  assert (He' : (-2045 <= e')%Z) by (unfold e'; lia).
  pose proof (pow2_pos (er + 2148) ltac:(lia)) as HK.
  assert (HD : (0 < Zpos mr * 2 ^ (er + 2148))%Z) by (apply Z.mul_pos_pos; lia).
  apply (Zscale_lt_inv _ _ (Zpos mr * 2 ^ (er + 2148)) HD).
  apply Z.le_lt_trans with (c * (Zpos mr * 2 ^ (er + 2148)))%Z.
  { apply Zscale_le; [ exact HD | apply Z.le_min_l ]. }
  apply Z.le_lt_trans with (m' * 2 ^ (er + e' + 3222))%Z.
  { replace (c * (Zpos mr * 2 ^ (er + 2148)))%Z
      with (c * (Zpos mr * 2 ^ (er + 1074)) * 2 ^ 1074)%Z
      by (replace (er + 2148)%Z with ((er + 1074) + 1074)%Z by lia;
          rewrite (pow2_split (er + 1074) 1074) by lia; ring).
    replace (m' * 2 ^ (er + e' + 3222))%Z
      with (Zpos mt * 2 ^ (et + 1074) * 2 ^ 1074 * 2 ^ 1074)%Z.
    - apply Zscale_le; [ apply pow2_pos; lia | exact Hc ].
    - rewrite Em, <- !Z.mul_assoc, <- !pow2_split by lia. do 2 f_equal. unfold s. lia. }
  apply Z.lt_le_trans with ((q + 1) * 2 ^ j * Zpos mr * 2 ^ (er + e' + 3222))%Z.
  { apply Zscale_lt; [ apply pow2_pos; lia | ].
    assert (H1 : (q0 + 1 <= (q + 1) * 2 ^ j)%Z) by lia.
    apply Z.lt_le_trans with ((q0 + 1) * Zpos mr)%Z; [ lia | ].
    apply Z.mul_le_mono_nonneg_r; lia. }
  apply Z.eq_le_incl.
  assert (Ep : (2 ^ j * 2 ^ (er + e' + 3222) = 2 ^ (e' + j + 1074) * 2 ^ (er + 2148))%Z).
  { rewrite <- !pow2_split by lia. f_equal. lia. }
  rewrite <- !Z.mul_assoc, (Z.mul_comm (Zpos mr) (2 ^ (er + e' + 3222))), (Z.mul_assoc (2 ^ j)), Ep.
  ring.
Qed.

(** *** Sums and differences *)

Lemma shifted_normal (n : positive) (j q r : Z) :
  (1 <= j)%Z -> Zpos (digits2_pos n) = (53 + j)%Z ->
  Zpos n = (q * 2 ^ j + r)%Z -> (0 <= r < 2 ^ j)%Z -> (2 ^ 52 <= q)%Z.
Proof.
  intros Hj Hd En Hr. pose proof (digits2_bounds n) as B. rewrite Hd in B.
  replace (53 + j - 1)%Z with (52 + j)%Z in B by lia.
  rewrite (pow2_split 52 j) in B by lia.
  pose proof (pow2_pos j ltac:(lia)) as HP.
  assert (H : (2 ^ 52 * 2 ^ j < (q + 1) * 2 ^ j)%Z) by lia.
  apply Zscale_lt_inv in H; lia.
Qed.

(** A number that is not above the exact value is not above the rounded
    one. *)
Lemma round_cases_lower (n : positive) (u j q r m2 c : Z) :
  (0 <= u)%Z -> (0 <= j)%Z -> (1 <= j -> Zpos (digits2_pos n) = 53 + j)%Z ->
  Zpos n = (q * 2 ^ j + r)%Z -> (0 <= r < 2 ^ j)%Z -> (m2 = q \/ m2 = q + 1)%Z ->
  representable c -> (c <= Zpos n * 2 ^ u)%Z -> (c <= m2 * 2 ^ (u + j))%Z.
Proof.
  intros Hu Hj Hj1 En Hr H3 Hc Hle.
  pose proof (pow2_pos u Hu) as HU. pose proof (pow2_pos j Hj) as HP.
  pose proof (pow2_pos (u + j) ltac:(lia)) as HT.
  assert (ET : (2 ^ (u + j) = 2 ^ j * 2 ^ u)%Z) by (rewrite <- pow2_split by lia; f_equal; lia).
  assert (Hq : (0 <= q)%Z).
  { destruct (Z.le_gt_cases 0 q) as [ H | H ]; [ exact H | exfalso ].
    assert (q * 2 ^ j <= (-1) * 2 ^ j)%Z by (apply Zscale_le; lia). lia. }
  apply Z.le_trans with (q * 2 ^ (u + j))%Z; [ | apply Zscale_le; lia ].
  destruct (Z.eq_dec j 0) as [ E0 | N0 ].
  - subst j. change (2 ^ 0)%Z with 1%Z in *. rewrite Z.add_0_r.
    replace q with (Zpos n) by lia. exact Hle.
  - apply grid_below; auto; try lia.
    + left. apply (shifted_normal n j q r); auto; lia.
    + apply Z.le_lt_trans with (Zpos n * 2 ^ u)%Z; [ exact Hle | ].
      rewrite ET, Z.mul_assoc. apply Zscale_lt; lia.
Qed.

(** A number that is not below the exact value is not below the rounded
    one. *)
Lemma round_cases_upper (n : positive) (u j q r m2 c : Z) :
  (0 <= u)%Z -> (0 <= j)%Z -> (1 <= j -> Zpos (digits2_pos n) = 53 + j)%Z ->
  Zpos n = (q * 2 ^ j + r)%Z -> (0 <= r < 2 ^ j)%Z ->
  (2 * r < 2 ^ j -> m2 = q)%Z -> (m2 = q \/ m2 = q + 1)%Z ->
  representable c -> (Zpos n * 2 ^ u <= c)%Z -> (m2 * 2 ^ (u + j) <= c)%Z.
Proof.
  intros Hu Hj Hj1 En Hr H1 H3 Hc Hle.
  pose proof (pow2_pos u Hu) as HU. pose proof (pow2_pos j Hj) as HP.
  pose proof (pow2_pos (u + j) ltac:(lia)) as HT.
  assert (ET : (2 ^ (u + j) = 2 ^ j * 2 ^ u)%Z) by (rewrite <- pow2_split by lia; f_equal; lia).
  assert (Hq : (0 <= q)%Z).
  { destruct (Z.le_gt_cases 0 q) as [ H | H ]; [ exact H | exfalso ].
    assert (q * 2 ^ j <= (-1) * 2 ^ j)%Z by (apply Zscale_le; lia). lia. }
  assert (Hn : (q * 2 ^ (u + j) + r * 2 ^ u = Zpos n * 2 ^ u)%Z) by (rewrite ET, En; ring).
  assert (Hru : (0 <= r * 2 ^ u)%Z) by (apply Z.mul_nonneg_nonneg; lia).
  destruct H3 as [ -> | -> ]; [ lia | ].
  destruct (Z.eq_dec j 0) as [ E0 | N0 ].
  - subst j. change (2 ^ 0)%Z with 1%Z in *. specialize (H1 ltac:(lia)). lia.
  - destruct (Z.le_gt_cases ((q + 1) * 2 ^ (u + j)) c) as [ H | H ]; [ exact H | exfalso ].
    assert (Hg : (c <= q * 2 ^ (u + j))%Z).
    { apply grid_below; auto; try lia. left. apply (shifted_normal n j q r); auto; lia. }
    assert (Er : r = 0%Z).
    { destruct (Z.eq_dec r 0) as [ E | N ]; [ exact E | exfalso ].
      assert (0 < r * 2 ^ u)%Z by (apply Z.mul_pos_pos; lia). lia. }
    specialize (H1 ltac:(lia)). lia.
Qed.

Lemma rank_add_lower (a b : float) (c : Z) :
  (0 <=? a) = true -> (0 <=? b) = true -> representable c ->
  (c <= rank a + rank b)%Z ->
  (Z.min c (2 ^ 2098) <= rank (a + b))%Z.
Proof.
  pose proof (Prim2SF_valid a) as Va. pose proof (Prim2SF_valid b) as Vb.
  unfold rank. rewrite !leb_spec, add_spec. change (Prim2SF 0) with (S754_zero false).
  pose proof (Z.le_min_l c (2 ^ 2098)) as Hl. pose proof (Z.le_min_r c (2 ^ 2098)) as Hr.
  destruct (Prim2SF a) as [ [ | ] | [ | ] | | [ | ] ma ea ],
           (Prim2SF b) as [ [ | ] | [ | ] | | [ | ] mb eb ];
    try discriminate; intros _ _ Hrep Hc; try solve [ cbn [SF64add SFadd SFrank]; lia ].
  pose proof (valid_finite _ _ _ Va) as (Hea & _ & _).
  pose proof (valid_finite _ _ _ Vb) as (Heb & _ & _).
  destruct (SFadd_finite ma mb ea eb ltac:(lia) ltac:(lia))
    as (n & ez & (Hez & _ & _ & EN) & ES).
  rewrite ES.
  destruct (binary_round_cases false n ez Hez)
    as (j & q & r & m2 & (Hj & Hj1 & Hj0 & En & Hrr & H1 & H2 & H3) & HR).
  destruct HR as [ (m3 & e3 & -> & EV) | (-> & _) ]; [ | exact Hr ].
  rewrite EV. replace (ez + j + 1074)%Z with ((ez + 1074) + j)%Z by lia.
  apply (round_cases_lower n (ez + 1074) j q r m2); auto using representable_min; lia.
Qed.

Lemma rank_sub_lower (a b : float) (c : Z) :
  (0 <=? b) = true -> (b <=? a) = true -> representable c ->
  (c <= rank a - rank b)%Z ->
  (Z.min c (2 ^ 2098) <= rank (a - b))%Z.
Proof.
  pose proof (Prim2SF_valid a) as Va. pose proof (Prim2SF_valid b) as Vb.
  unfold rank. rewrite !leb_spec, sub_spec. change (Prim2SF 0) with (S754_zero false).
  pose proof (Z.le_min_l c (2 ^ 2098)) as Hl. pose proof (Z.le_min_r c (2 ^ 2098)) as Hr.
  destruct (Prim2SF a) as [ [ | ] | [ | ] | | [ | ] ma ea ],
           (Prim2SF b) as [ [ | ] | [ | ] | | [ | ] mb eb ];
    try discriminate; intros _ Hba Hrep Hc; try solve [ cbn [SF64sub SFsub SFrank]; lia ].
  pose proof (valid_finite _ _ _ Va) as (Hea & _ & _).
  pose proof (valid_finite _ _ _ Vb) as (Heb & _ & _).
  destruct (SFsub_finite false ma mb ea eb ltac:(lia) ltac:(lia))
    as (N & ez & (Hez & _ & _ & EN) & ES).
  rewrite ES. cbn [cond_Zopp] in EN.
  pose proof (pow2_pos (ez + 1074) ltac:(lia)) as HU.
  destruct N as [ | n | n ]; cbn [binary_normalize SFrank].
  - lia.
  - destruct (binary_round_cases false n ez Hez)
      as (j & q & r & m2 & (Hj & Hj1 & Hj0 & En & Hrr & H1 & H2 & H3) & HR).
    destruct HR as [ (m3 & e3 & -> & EV) | (-> & _) ]; [ | exact Hr ].
    rewrite EV. replace (ez + j + 1074)%Z with ((ez + 1074) + j)%Z by lia.
    apply (round_cases_lower n (ez + 1074) j q r m2); auto using representable_min; lia.
  - exfalso. assert (Zneg n * 2 ^ (ez + 1074) < 0)%Z by (apply Z.mul_neg_pos; lia).
    unfold SFleb in Hba. rewrite (SFcompare_valid mb ma eb ea Vb Va) in Hba.
    destruct (Z.compare_spec (Zpos mb * 2 ^ (eb + 1074)) (Zpos ma * 2 ^ (ea + 1074)));
      try discriminate; lia.
Qed.

(** A difference is not above the number subtracted from. *)
Lemma rank_sub_upper (a b : float) :
  (0 <=? b) = true -> (b <=? a) = true -> (rank (a - b) <= rank a)%Z.
Proof.
  pose proof (Prim2SF_valid a) as Va. pose proof (Prim2SF_valid b) as Vb.
  pose proof (rank_representable a) as Ra. revert Ra.
  unfold rank. rewrite !leb_spec, sub_spec. change (Prim2SF 0) with (S754_zero false).
  pose proof (pow2_pos 2098 ltac:(lia)) as Htop.
  destruct (Prim2SF a) as [ [ | ] | [ | ] | | [ | ] ma ea ],
           (Prim2SF b) as [ [ | ] | [ | ] | | [ | ] mb eb ];
    try discriminate; intros Ra _ Hba; try solve [ cbn [SF64sub SFsub SFrank]; lia ].
  pose proof (valid_finite _ _ _ Va) as (Hea & Hma & _).
  pose proof (valid_finite _ _ _ Vb) as (Heb & _ & _).
  destruct (SFsub_finite false ma mb ea eb ltac:(lia) ltac:(lia))
    as (N & ez & (Hez & _ & _ & EN) & ES).
  rewrite ES. cbn [cond_Zopp] in EN.
  pose proof (pow2_pos (ez + 1074) ltac:(lia)) as HU.
  pose proof (pow2_pos (ea + 1074) ltac:(lia)) as HA.
  pose proof (pow2_pos (eb + 1074) ltac:(lia)) as HB.
  assert (Hb0 : (0 < Zpos mb * 2 ^ (eb + 1074))%Z) by (apply Z.mul_pos_pos; lia).
  assert (Ha0 : (0 < Zpos ma * 2 ^ (ea + 1074))%Z) by (apply Z.mul_pos_pos; lia).
  destruct N as [ | n | n ]; cbn [binary_normalize SFrank]; try lia.
  - destruct (binary_round_cases false n ez Hez)
      as (j & q & r & m2 & (Hj & Hj1 & Hj0 & En & Hrr & H1 & H2 & H3) & HR).
    assert (Hup : (m2 * 2 ^ (ez + j + 1074) <= Zpos ma * 2 ^ (ea + 1074))%Z).
    { replace (ez + j + 1074)%Z with ((ez + 1074) + j)%Z by lia.
      apply (round_cases_upper n (ez + 1074) j q r m2); auto; lia. }
    destruct HR as [ (m3 & e3 & -> & EV) | (-> & Hinf) ]; cbn [SFrank].
    + rewrite EV. exact Hup.
    + pose proof (finite_below_top (Zpos ma) ea ltac:(lia) ltac:(lia)). lia.
  - destruct (binary_round_cases true n ez Hez)
      as (j & q & r & m2 & _ & [ (m3 & e3 & -> & _) | (-> & _) ]); cbn [SFrank]; lia.
Qed.

(** ** The nearest numbers of 53 bits *)

(** Every integer [>= 0] lies between two neighbours of the numbers with
    53 bits. *)
Lemma decompose (x : Z) :
  (0 <= x)%Z ->
  exists m k : Z,
    (0 <= k)%Z /\ (0 <= m < 2 ^ 53)%Z /\ (m * 2 ^ k <= x < (m + 1) * 2 ^ k)%Z /\
    (k = 0 \/ 2 ^ 52 <= m)%Z.
Proof.
  intros Hx. destruct (Z.lt_ge_cases x (2 ^ 53)) as [ Hs | Hl ].
  - exists x, 0%Z. change (2 ^ 0)%Z with 1%Z. repeat split; lia.
  - assert (Hpos : (0 < x)%Z) by lia.
    pose proof (Z.log2_spec x Hpos) as B.
    assert (Hlog : (53 <= Z.log2 x)%Z).
    { apply Z.log2_le_pow2; [ exact Hpos | exact Hl ]. }
    set (l := Z.log2 x) in *. set (k := (l - 52)%Z).
    assert (Hk : (1 <= k)%Z) by (unfold k; lia).
    pose proof (pow2_pos k ltac:(lia)) as HK.
    assert (E1 : (2 ^ l = 2 ^ 52 * 2 ^ k)%Z) by (rewrite <- pow2_split by lia; f_equal; unfold k; lia).
    assert (E2 : (2 ^ Z.succ l = 2 ^ 53 * 2 ^ k)%Z)
      by (rewrite <- pow2_split by lia; f_equal; unfold k; lia).
    rewrite E1, E2 in B.
    exists (x / 2 ^ k)%Z, k.
    pose proof (Z.div_mod x (2 ^ k) ltac:(lia)) as Ed.
    pose proof (Z.mod_pos_bound x (2 ^ k) HK) as Bm.
    assert (H52 : (2 ^ 52 <= x / 2 ^ k)%Z).
    { apply Z.div_le_lower_bound; [ exact HK | ]. rewrite Z.mul_comm. apply B. }
    assert (H53 : (x / 2 ^ k < 2 ^ 53)%Z).
    { apply Z.div_lt_upper_bound; [ exact HK | ]. rewrite Z.mul_comm. apply B. }
    repeat split; lia.
Qed.

(** The number below: within [2^-52] of [x]. *)
Lemma floor_rel (x : Z) :
  (0 <= x)%Z ->
  exists c : Z, representable c /\ (c <= x)%Z /\ (2 ^ 52 * x <= (2 ^ 52 + 1) * c)%Z.
Proof.
  intros Hx. destruct (decompose x Hx) as (m & k & Hk & Hm & Hmx & Hn).
  pose proof (pow2_pos k Hk) as HK.
  exists (m * 2 ^ k)%Z. split; [ exists m, k; repeat split; lia | ].
  split; [ lia | ].
  destruct Hn as [ -> | Hn ].
  - change (2 ^ 0)%Z with 1%Z in *. lia.
  - assert (H : (2 ^ 52 * 2 ^ k <= m * 2 ^ k)%Z) by (apply Zscale_le; lia).
    set (P := (2 ^ k)%Z) in *. set (C := (m * P)%Z) in *.
    replace ((m + 1) * P)%Z with (C + P)%Z in Hmx by (unfold C; ring). lia.
Qed.

(** The number above. *)
Lemma ceil_rel (y : Z) :
  (0 <= y)%Z ->
  exists c : Z, representable c /\ (y <= c)%Z /\ (2 ^ 52 * c <= (2 ^ 52 + 1) * y)%Z.
Proof.
  intros Hy. destruct (decompose y Hy) as (m & k & Hk & Hm & Hmy & Hn).
  pose proof (pow2_pos k Hk) as HK.
  destruct (Z.eq_dec y (m * 2 ^ k)) as [ E | N ].
  - exists y. split; [ exists m, k; repeat split; lia | lia ].
  - exists ((m + 1) * 2 ^ k)%Z. split; [ exists (m + 1)%Z, k; repeat split; lia | ].
    split; [ lia | ].
    destruct Hn as [ -> | Hn ].
    + change (2 ^ 0)%Z with 1%Z in *. lia.
    + assert (H : (2 ^ 52 * 2 ^ k <= m * 2 ^ k)%Z) by (apply Zscale_le; lia).
      set (P := (2 ^ k)%Z) in *. set (C := (m * P)%Z) in *.
      replace ((m + 1) * P)%Z with (C + P)%Z in * by (unfold C; ring). lia.
Qed.

(** The number below a quotient [N / D] that is at least [2^52]. *)
Lemma floor_rel_quotient (N D : Z) :
  (0 < D)%Z -> (2 ^ 52 * D <= N)%Z ->
  exists c : Z, representable c /\ (c * D <= N)%Z /\ (2 ^ 52 * N <= (2 ^ 52 + 1) * (c * D))%Z.
Proof.
  intros HD HN.
  pose proof (Z.div_mod N D ltac:(lia)) as Ed.
  pose proof (Z.mod_pos_bound N D HD) as Bm.
  set (x := (N / D)%Z) in *.
  assert (Hx : (2 ^ 52 <= x)%Z).
  { apply Z.div_le_lower_bound; [ exact HD | ]. rewrite Z.mul_comm. exact HN. }
  destruct (decompose x ltac:(lia)) as (m & k & Hk & Hm & Hmx & Hn).
  pose proof (pow2_pos k Hk) as HK.
  exists (m * 2 ^ k)%Z. split; [ exists m, k; repeat split; lia | ].
  assert (H52 : (2 ^ 52 * 2 ^ k <= m * 2 ^ k)%Z).
  { apply Zscale_le; [ exact HK | ]. destruct Hn as [ -> | Hn ]; [ | exact Hn ].
    change (2 ^ 0)%Z with 1%Z in *. lia. }
  set (P := (2 ^ k)%Z) in *. set (C := (m * P)%Z) in *.
  replace ((m + 1) * P)%Z with (C + P)%Z in Hmx by (unfold C; ring).
  assert (H1 : (C * D <= x * D)%Z) by (apply Zscale_le; lia).
  assert (H2 : ((x + 1) * D <= (C + P) * D)%Z) by (apply Zscale_le; lia).
  assert (H3 : (2 ^ 52 * P * D <= C * D)%Z) by (apply Zscale_le; lia).
  rewrite Z.mul_add_distr_r in H2. rewrite <- Z.mul_assoc in H3.
  set (CD := (C * D)%Z) in *. set (PD := (P * D)%Z) in *.
  replace (D * x)%Z with (x * D)%Z in Ed by ring.
  split; lia.
Qed.

(** ** Rounded sums and products against the exact ones *)

Lemma add_rel (a b : float) :
  (0 <=? a) = true -> (0 <=? b) = true -> (a + b <? infinity) = true ->
  (2 ^ 52 * (rank a + rank b) <= (2 ^ 52 + 1) * rank (a + b))%Z.
Proof.
  intros Ha Hb Hf.
  pose proof (rank_nonneg a) as Ra. pose proof (rank_nonneg b) as Rb.
  destruct (floor_rel (rank a + rank b) ltac:(lia)) as (c & Hc & Hle & Hrel).
  pose proof (rank_add_lower a b c Ha Hb Hc Hle) as Hlow.
  apply min_top in Hlow; [ | now apply rank_below_top ].
  lia.
Qed.

Lemma mul_rel (a b : float) :
  (0 <=? a) = true -> (0 <=? b) = true -> (a * b <? infinity) = true ->
  (2 ^ 52 <= rank (a * b) \/ 2 ^ 52 * 2 ^ 1074 <= rank a * rank b)%Z ->
  (2 ^ 52 * (rank a * rank b) <= (2 ^ 52 + 1) * (rank (a * b) * 2 ^ 1074))%Z.
Proof.
  intros Ha Hb Hf Hn.
  pose proof (rank_nonneg a) as Ra. pose proof (rank_nonneg b) as Rb.
  pose proof (rank_nonneg (a * b)) as Rab.
  pose proof (pow2_pos 1074 ltac:(lia)) as HW.
  assert (HN : (0 <= rank a * rank b)%Z) by (apply Z.mul_nonneg_nonneg; lia).
  destruct (Z.lt_ge_cases (rank a * rank b) (2 ^ 52 * 2 ^ 1074)) as [ Hs | Hl ].
  - destruct Hn as [ Hn | Hn ]; [ | lia ].
    assert (HrW : (2 ^ 52 * 2 ^ 1074 <= rank (a * b) * 2 ^ 1074)%Z) by (apply Zscale_le; lia).
    set (N := (rank a * rank b)%Z) in *. set (rW := (rank (a * b) * 2 ^ 1074)%Z) in *.
    set (MW := (2 ^ 52 * 2 ^ 1074)%Z) in *. lia.
  - destruct (floor_rel_quotient (rank a * rank b) (2 ^ 1074) HW Hl) as (c & Hc & Hle & Hrel).
    pose proof (rank_mul_lower a b c Ha Hb Hc Hle) as Hlow.
    apply min_top in Hlow; [ | now apply rank_below_top ].
    assert (H1 : (c * 2 ^ 1074 <= rank (a * b) * 2 ^ 1074)%Z) by (apply Zscale_le; lia).
    set (N := (rank a * rank b)%Z) in *. set (rW := (rank (a * b) * 2 ^ 1074)%Z) in *.
    set (cW := (c * 2 ^ 1074)%Z) in *. lia.
Qed.

(** ** Clamping to a finite rest *)

Lemma rank_finite (x : float) :
  (0 <=? x) = true -> (rank x < 2 ^ 2098)%Z -> (x <? infinity) = true.
Proof.
  unfold rank. rewrite leb_spec, ltb_spec. change (Prim2SF 0) with (S754_zero false).
  change (Prim2SF infinity) with (S754_infinity false).
  destruct (Prim2SF x) as [ [ | ] | [ | ] | | [ | ] m e ]; try discriminate;
    intros _ H; reflexivity.
Qed.

(** The difference of two numbers [>= 0], the smaller one subtracted from a
    finite one, is [>= 0] and finite. *)
Lemma sub_nonneg_finite (a b : float) :
  (0 <=? b) = true -> (b <=? a) = true -> (a <? infinity) = true ->
  (0 <=? a - b) = true /\ (a - b <? infinity) = true.
Proof.
  intros Hb Hba Ha.
  assert (H0 : (0 <=? a - b) = true).
  { destruct (sub_nonneg a b Hb Hba) as [ Hn | H ]; [ exfalso | exact H ].
    revert Hb Hba Ha Hn. rewrite is_nan_spec, !leb_spec, ltb_spec, sub_spec.
    change (Prim2SF 0) with (S754_zero false).
    change (Prim2SF infinity) with (S754_infinity false).
    pose proof (Prim2SF_valid a) as Va. pose proof (Prim2SF_valid b) as Vb.
    destruct (Prim2SF a) as [ [ | ] | [ | ] | | [ | ] ma ea ],
             (Prim2SF b) as [ [ | ] | [ | ] | | [ | ] mb eb ];
      try discriminate.
    intros _ _ _.
    pose proof (valid_finite _ _ _ Va) as (Hea & _ & _).
    pose proof (valid_finite _ _ _ Vb) as (Heb & _ & _).
    destruct (SFsub_finite false ma mb ea eb ltac:(lia) ltac:(lia))
      as (N & ez & (Hez & _ & _ & _) & ->).
    destruct N as [ | n | n ]; cbn [binary_normalize]; try discriminate.
    - destruct (binary_round_cases false n ez Hez)
        as (j & q & r & m2 & _ & [ (m3 & e3 & -> & _) | (-> & _) ]); discriminate.
    - destruct (binary_round_cases true n ez Hez)
        as (j & q & r & m2 & _ & [ (m3 & e3 & -> & _) | (-> & _) ]); discriminate. }
  split; [ exact H0 | ].
  apply rank_finite; [ exact H0 | ].
  pose proof (rank_sub_upper a b Hb Hba). pose proof (rank_below_top a Ha). lia.
Qed.

(** A number [>= 0] divided by a finite number [> 0] is [>= 0]. *)
Lemma div_nonneg_finite (t r : float) :
  (0 <=? t) = true -> (0 <? r) = true -> (r <? infinity) = true -> (0 <=? t / r) = true.
Proof.
  intros Ht Hr Hf.
  destruct (div_nonneg t r Ht Hr) as [ Hn | H ]; [ exfalso | exact H ].
  revert Ht Hr Hf Hn. rewrite is_nan_spec, leb_spec, !ltb_spec, div_spec.
  change (Prim2SF 0) with (S754_zero false).
  change (Prim2SF infinity) with (S754_infinity false).
  destruct (Prim2SF t) as [ [ | ] | [ | ] | | [ | ] mt et ],
           (Prim2SF r) as [ [ | ] | [ | ] | | [ | ] mr er ];
    try discriminate.
  intros _ _ _ Hn.
  pose proof (SFdiv_signed (S754_finite false mt et) (S754_finite false mr er) false false
                eq_refl eq_refl I) as S.
  rewrite Hn in S. exact S.
Qed.

Lemma fmin_le_r {build : Fmin} (p x : float) :
  is_nan p = false -> is_nan x = false -> (fmin p x <=? x) = true.
Proof.
  intros Hp Hx. destruct (p <? x) eqn:Hlt.
  - rewrite (fmin_lt _ _ Hlt), leb_cases, Hlt. reflexivity.
  - rewrite (same_number_leb_l x (fmin p x) x); [ now apply leb_refl | ].
    apply fmin_lower. now apply ltb_false_leb.
Qed.

(** A parameter [>= 0] clamped to a finite rest [>= 0] is [>= 0], and
    leaves a finite rest [>= 0]. *)
Lemma clamp_step {build : Fmin} (p x : float) :
  (0 <=? p) = true -> (0 <=? x) = true -> (x <? infinity) = true ->
  (0 <=? fmin p x) = true /\
  (0 <=? x - fmin p x) = true /\ (x - fmin p x <? infinity) = true.
Proof.
  intros Hp Hx Hf.
  assert (H0 : (0 <=? fmin p x) = true).
  { destruct (fmin_operand p x) as [ -> | -> ]; assumption. }
  split; [ exact H0 | ].
  apply sub_nonneg_finite; [ exact H0 | | exact Hf ].
  apply fmin_le_r; [ apply (leb_nan _ _ Hp) | apply (leb_nan _ _ Hx) ].
Qed.


(** ** The whole path *)

Lemma add_finite_inv (a b : float) :
  (0 <=? a) = true -> (0 <=? b) = true -> (a + b <? infinity) = true ->
  (a <? infinity) = true /\ (b <? infinity) = true.
Proof.
  rewrite !leb_spec, !ltb_spec, add_spec. change (Prim2SF 0) with (S754_zero false).
  change (Prim2SF infinity) with (S754_infinity false).
  destruct (Prim2SF a) as [ [ | ] | [ | ] | | [ | ] ma ea ],
           (Prim2SF b) as [ [ | ] | [ | ] | | [ | ] mb eb ];
    try discriminate; intros _ _ H; split; try reflexivity; try exact H.
Qed.

Lemma mul_finite_inv (a r : float) :
  (0 <=? a) = true -> (0 <? r) = true -> (a * r <? infinity) = true ->
  (a <? infinity) = true /\ (r <? infinity) = true.
Proof.
  rewrite !leb_spec, !ltb_spec, mul_spec. change (Prim2SF 0) with (S754_zero false).
  change (Prim2SF infinity) with (S754_infinity false).
  destruct (Prim2SF a) as [ [ | ] | [ | ] | | [ | ] ma ea ],
           (Prim2SF r) as [ [ | ] | [ | ] | | [ | ] mr er ];
    try discriminate; intros _ _ H; split; try reflexivity; try exact H.
Qed.

Lemma div_infinity (r : float) :
  (0 <? r) = true -> (r <? infinity) = true -> infinity / r = infinity.
Proof.
  rewrite !ltb_spec. intros H0 H1. apply Prim2SF_inj. rewrite div_spec. revert H0 H1.
  change (Prim2SF 0) with (S754_zero false).
  change (Prim2SF infinity) with (S754_infinity false).
  destruct (Prim2SF r) as [ [ | ] | [ | ] | | [ | ] mr er ]; try discriminate; reflexivity.
Qed.

(** With a finite quotient [tp = t / rho] that is at least the first
    parameter plus a number of 53 bits that is at least the sum of the other
    two, every parameter is kept. *)
Lemma whole_finite_case {build : Fmin} (p0 p1 p2 tp : float) (z : Z) :
  (0 <=? p0) = true -> (0 <=? p1) = true -> (0 <=? p2) = true ->
  (0 <=? tp) = true -> (tp <? infinity) = true ->
  representable z -> (rank p1 + rank p2 <= z)%Z -> (rank p0 + z <= rank tp)%Z ->
  same_number (fmin p0 tp) p0 /\
  same_number (fmin p1 (tp - fmin p0 tp)) p1 /\
  same_number (fmin p2 (tp - fmin p0 tp - fmin p1 (tp - fmin p0 tp))) p2.
Proof.
  intros H0 H1 H2 Ht Ft Hz Hz12 Hz0.
  pose proof (rank_nonneg p0) as R0. pose proof (rank_nonneg p1) as R1.
  pose proof (rank_nonneg p2) as R2.
  pose proof (rank_below_top tp Ft) as Tt.
  (* the first parameter *)
  assert (L0 : (p0 <=? tp) = true) by (apply rank_le_inv; auto; lia).
  assert (S0 : same_number (fmin p0 tp) p0) by (now apply fmin_upper).
  split; [ exact S0 | ].
  (* the rest after it *)
  assert (E1 : same_number (tp - fmin p0 tp) (tp - p0)).
  { apply same_number_sub; [ apply same_number_refl | exact S0 ]. }
  destruct (sub_nonneg_finite tp p0 H0 L0 Ft) as (N1 & F1).
  pose proof (rank_sub_upper tp p0 H0 L0) as U1.
  pose proof (rank_sub_lower tp p0 z H0 L0 Hz ltac:(lia)) as Lw1.
  apply min_top in Lw1; [ | lia ].
  assert (L1 : (p1 <=? tp - p0) = true) by (apply rank_le_inv; auto; lia).
  assert (L1' : (p1 <=? tp - fmin p0 tp) = true).
  { rewrite (same_number_leb_r p1 _ _ E1). exact L1. }
  assert (S1 : same_number (fmin p1 (tp - fmin p0 tp)) p1) by (now apply fmin_upper).
  split; [ exact S1 | ].
  (* the rest after the second parameter *)
  assert (E2 : same_number (tp - fmin p0 tp - fmin p1 (tp - fmin p0 tp)) (tp - p0 - p1)).
  { apply same_number_sub; assumption. }
  destruct (sub_nonneg_finite (tp - p0) p1 H1 L1 F1) as (N2 & F3).
  pose proof (rank_sub_lower (tp - p0) p1 (rank p2) H1 L1 (rank_representable p2) ltac:(lia))
    as Lw2.
  apply min_top in Lw2; [ | now apply rank_below_top ].
  assert (L2 : (p2 <=? tp - p0 - p1) = true) by (apply rank_le_inv; auto).
  apply fmin_upper. rewrite (same_number_leb_r p2 _ _ E2). exact L2.
Qed.

(** Six roundings of at most [2^-52] each are made up for by a margin of
    [2^-49]. *)
Lemma margin_chain (a0 a1 a2 s1 S L Lk t R W z c : Z) :
  (0 <= a0)%Z -> (0 <= a2)%Z -> (0 <= c)%Z -> (0 <= R)%Z -> (0 < W)%Z ->
  (2 ^ 52 * (a0 + a1) <= (2 ^ 52 + 1) * s1)%Z ->
  (2 ^ 52 * (s1 + a2) <= (2 ^ 52 + 1) * S)%Z ->
  (2 ^ 52 * (S * R) <= (2 ^ 52 + 1) * (L * W))%Z ->
  ((2 ^ 52 + 8) * L <= (2 ^ 52 + 1) * Lk)%Z ->
  (Lk <= t)%Z ->
  (2 ^ 52 * z <= (2 ^ 52 + 1) * (a1 + a2))%Z ->
  (2 ^ 52 * c <= (2 ^ 52 + 1) * (a0 + z))%Z ->
  (c * R <= t * W)%Z.
Proof.
  intros Ha0 Ha2 Hc HR HW H1 H2 H3 H4 H5 H6 H7.
  assert (A : ((2 ^ 52) ^ 4 * c <= (2 ^ 52 + 1) ^ 4 * S)%Z) by lia.
  assert (B : ((2 ^ 52) ^ 4 * (c * R) <= (2 ^ 52 + 1) ^ 4 * (S * R))%Z).
  { rewrite !Z.mul_assoc. apply Z.mul_le_mono_nonneg_r; [ exact HR | exact A ]. }
  assert (C : ((2 ^ 52 + 8) * (L * W) <= (2 ^ 52 + 1) * (t * W))%Z).
  { rewrite !Z.mul_assoc. apply Z.mul_le_mono_nonneg_r; lia. }
  assert (D : (0 <= c * R)%Z) by (apply Z.mul_nonneg_nonneg; lia).
  set (cR := (c * R)%Z) in *. set (SR := (S * R)%Z) in *.
  set (LW := (L * W)%Z) in *. set (tW := (t * W)%Z) in *.
  clearbody cR SR LW tW. clear - B C D H3. lia.
Qed.

Lemma rank_margin : rank margin = ((2 ^ 52 + 8) * 2 ^ 1022)%Z.
Proof. reflexivity. Qed.

Lemma rank_normal : rank 0x1p-1022 = (2 ^ 52)%Z.
Proof. reflexivity. Qed.

(** The length of a path against the exact sum of its parameters times
    [rho]: three roundings. *)
Lemma length_rel (p0 p1 p2 r : float) :
  (0 <=? p0) = true -> (0 <=? p1) = true -> (0 <=? p2) = true -> (0 <? r) = true ->
  (0x1p-1022 <=? (0 + p0 + p1 + p2) * r) = true ->
  ((0 + p0 + p1 + p2) * r <? infinity) = true ->
  (r <? infinity) = true /\
  (p0 <? infinity) = true /\ (p1 <? infinity) = true /\ (p2 <? infinity) = true /\
  exists s1 S : Z,
    (2 ^ 52 * (rank p0 + rank p1) <= (2 ^ 52 + 1) * s1)%Z /\
    (2 ^ 52 * (s1 + rank p2) <= (2 ^ 52 + 1) * S)%Z /\
    (2 ^ 52 * (S * rank r) <= (2 ^ 52 + 1) * (rank ((0 + p0 + p1 + p2) * r) * 2 ^ 1074))%Z.
Proof.
  intros H0 H1 H2 Hr Hn Hf.
  assert (Z0 : (0 <=? 0) = true) by reflexivity.
  pose proof (add_nonneg 0 p0 Z0 H0) as N0.
  pose proof (add_nonneg _ _ N0 H1) as N1.
  pose proof (add_nonneg _ _ N1 H2) as N2.
  assert (Hr0 : (0 <=? r) = true) by (rewrite leb_cases, Hr; reflexivity).
  destruct (mul_finite_inv _ _ N2 Hr Hf) as (FS & Fr).
  destruct (add_finite_inv _ _ N1 H2 FS) as (F1 & Fp2).
  destruct (add_finite_inv _ _ N0 H1 F1) as (F0 & Fp1).
  destruct (add_finite_inv 0 p0 Z0 H0 F0) as (_ & Fp0).
  repeat (split; [ assumption | ]).
  exists (rank (0 + p0 + p1)), (rank (0 + p0 + p1 + p2)).
  assert (E0 : rank (0 + p0) = rank p0).
  { apply rank_same, add_zero_l. exists false. reflexivity. }
  split; [ | split ].
  - rewrite <- E0. now apply add_rel.
  - now apply add_rel.
  - apply mul_rel; auto. left. rewrite <- rank_normal. now apply rank_le_any.
Qed.

(** With the margin, the finite quotient [t / rho] is at least the first
    parameter plus a number of 53 bits that is at least the sum of the other
    two. *)
Lemma quotient_bound (p0 p1 p2 r t : float) :
  (0 <=? p0) = true -> (0 <=? p1) = true -> (0 <=? p2) = true -> (0 <? r) = true ->
  (0x1p-1022 <=? (0 + p0 + p1 + p2) * r) = true ->
  ((0 + p0 + p1 + p2) * r <? infinity) = true ->
  ((0 + p0 + p1 + p2) * r * margin <=? t) = true ->
  (t / r <? infinity) = true ->
  (0 <=? t / r) = true /\
  exists z : Z,
    representable z /\ (rank p1 + rank p2 <= z)%Z /\ (rank p0 + z <= rank (t / r))%Z.
Proof.
  intros H0 H1 H2 Hr Hn Hf Hm Hq.
  destruct (length_rel p0 p1 p2 r H0 H1 H2 Hr Hn Hf)
    as (Fr & _ & _ & _ & s1 & S & A1 & A2 & A3).
  set (len := (0 + p0 + p1 + p2) * r) in *.
  assert (Z0 : (0 <=? len) = true).
  { apply leb_trans with (b := 0x1p-1022); [ reflexivity | exact Hn ]. }
  assert (Zm : (0 <=? margin) = true) by reflexivity.
  (* [t] is a number [>= 0], and finite as the quotient is *)
  assert (Zk : (0 <=? len * margin) = true).
  { apply (mul_nonneg_pos len margin Z0); reflexivity. }
  assert (Zt : (0 <=? t) = true) by (apply leb_trans with (b := len * margin); assumption).
  assert (Ft : (t <? infinity) = true).
  { destruct (t <? infinity) eqn:E; [ reflexivity | exfalso ].
    rewrite (not_below_infinity t (proj2 (leb_nan _ _ Zt)) E), (div_infinity r Hr Fr) in Hq.
    discriminate. }
  assert (Fk : (len * margin <? infinity) = true) by (apply (leb_ltb_trans _ _ _ Hm Ft)).
  split; [ now apply div_nonneg_finite | ].
  (* the margin *)
  pose proof (rank_le_any _ _ Hn) as Rn. rewrite rank_normal in Rn.
  pose proof (rank_le_any _ _ Hm) as Rt.
  pose proof (pow2_pos 1022 ltac:(lia)) as HQ.
  assert (EW : (2 ^ 1074 = 2 ^ 52 * 2 ^ 1022)%Z) by reflexivity.
  assert (A4 : ((2 ^ 52 + 8) * rank len <= (2 ^ 52 + 1) * rank (len * margin))%Z).
  { assert (H : (2 ^ 52 * (rank len * rank margin)
                 <= (2 ^ 52 + 1) * (rank (len * margin) * 2 ^ 1074))%Z).
    { apply mul_rel; auto. right. rewrite rank_margin, EW.
      apply Z.le_trans with (rank len * (2 ^ 52 * 2 ^ 1022))%Z;
        [ apply Z.mul_le_mono_nonneg_r; lia | apply Z.mul_le_mono_nonneg_l; lia ]. }
    rewrite rank_margin, EW in H.
    apply (Z.mul_le_mono_pos_r _ _ (2 ^ 52 * 2 ^ 1022)); [ lia | ].
    eapply Z.le_trans; [ | eapply Z.le_trans; [ exact H | ] ]; apply Z.eq_le_incl; ring. }
  (* the numbers of 53 bits above the sums *)
  pose proof (rank_nonneg p0) as R0. pose proof (rank_nonneg p1) as R1.
  pose proof (rank_nonneg p2) as R2.
  destruct (ceil_rel (rank p1 + rank p2) ltac:(lia)) as (z & Hz & Hz1 & Hz2).
  destruct (ceil_rel (rank p0 + z) ltac:(lia)) as (c & Hc & Hc1 & Hc2).
  exists z. split; [ exact Hz | ]. split; [ exact Hz1 | ].
  apply Z.le_trans with c; [ exact Hc1 | ].
  assert (Hlow : (Z.min c (2 ^ 2098) <= rank (t / r))%Z).
  { apply rank_div_lower; auto.
    apply (margin_chain (rank p0) (rank p1) (rank p2) s1 S (rank len) (rank (len * margin))
             (rank t) (rank r) (2 ^ 1074) z c);
      auto; try lia; try apply rank_nonneg; try (apply pow2_pos; lia). }
  apply min_top in Hlow; [ exact Hlow | now apply rank_below_top ].
Qed.

(** C6, amended.  [dubins_extract_subpath] returns 0 and a path with the
    initial configuration, [rho] and type of the original, in every build.
    On a valid path whose length is a normal number (from [2^-1022], below
    the infinity), when [t] is at least the length times [1 + 2^-49], in
    double arithmetic, the three parameters of the new path are the same
    numbers as the original ones.  ([t >= dubins_path_length path] alone
    does not give this: the sums, the product and the quotient are
    rounded.) *)
Theorem dubins_extract_subpath_clamped {build : Fmin} (path : DubinsPath) (t : float)
    (newpath : DubinsPath) :
  exists np,
    dubins_extract_subpath path t newpath
      = (0%Z, mkDubinsPath (qi path) np (rho path) (type path)) /\
    (valid_path path ->
     (0x1p-1022 <=? dubins_path_length path) = true ->
     (dubins_path_length path <? infinity) = true ->
     (dubins_path_length path * margin <=? t) = true ->
     (get0 np =? get0 (param path)) = true /\
     (get1 np =? get1 (param path)) = true /\
     (get2 np =? get2 (param path)) = true).
Proof.
  rewrite dubins_extract_subpath_eq. cbv zeta. unfold dubins_path_length.
  set (tp := t / rho path).
  set (p0 := get0 (param path)). set (p1 := get1 (param path)). set (p2 := get2 (param path)).
  set (np0 := fmin p0 tp).
  set (np1 := fmin p1 (tp - np0)).
  set (np2 := fmin p2 (tp - np0 - np1)).
  exists (np0, np1, np2). split; [ reflexivity | ].
  intros (V0 & V1 & V2 & Vr & _) Hn Hf Hm. fold p0 p1 p2 in V0, V1, V2.
  cbn [get0 get1 get2 fst snd].
  assert (S : same_number np0 p0 /\ same_number np1 p1 /\ same_number np2 p2).
  { destruct (tp <? infinity) eqn:Hq.
    - destruct (quotient_bound p0 p1 p2 (rho path) t V0 V1 V2 Vr Hn Hf Hm Hq)
        as (Zq & z & Hz & Hz1 & Hz2).
      now apply (whole_finite_case p0 p1 p2 tp z).
    - destruct (length_rel p0 p1 p2 (rho path) V0 V1 V2 Vr Hn Hf) as (Fr & F0 & F1 & F2 & _).
      assert (Zt : (0 <=? t) = true).
      { apply leb_trans with (b := (0 + p0 + p1 + p2) * rho path * margin); [ | exact Hm ].
        apply mul_nonneg_pos; [ | reflexivity | reflexivity ].
        apply leb_trans with (b := 0x1p-1022); [ reflexivity | exact Hn ]. }
      pose proof (div_nonneg_finite t (rho path) Zt Vr Fr) as Zq. fold tp in Zq.
      assert (E : tp = infinity) by (apply not_below_infinity; [ apply (leb_nan _ _ Zq) | exact Hq ]).
      destruct (subpath_params_infinity p0 p1 p2 F0 F1 (proj2 (leb_nan _ _ V2)))
        as (E0 & E1 & E2).
      unfold np2, np1, np0. rewrite E, E0, E1, E2.
      repeat split; apply same_number_refl. }
  destruct S as (S0 & S1 & S2).
  repeat split; apply same_number_eqb; try assumption.
  - rewrite (same_number_is_nan _ _ S0). apply (leb_nan _ _ V0).
  - rewrite (same_number_is_nan _ _ S1). apply (leb_nan _ _ V1).
  - rewrite (same_number_is_nan _ _ S2). apply (leb_nan _ _ V2).
Qed.

(** ** The further properties on concrete inputs *)

(** X2 at [rho] NaN. *)
Lemma dubins_init_nan_distance_witness :
  (nan <=? 0) = false /\
  dubins_init (libm := ref_libm) (0, 0, 0) (0, 0, 0) (1, 0, 0) nan stale_path
    = (EDUBNOPATH, mkDubinsPath (0, 0, 0) (param stale_path) nan (type stale_path)).
Proof.
  split; [ reflexivity | ].
  apply (dubins_init_nan_distance (libm := ref_libm)); reflexivity.
Defined.

(** X3 on the path synthesized from [(0, 0, 0)] to [(4, 0, 0)] with
    [rho = 1]. *)
Lemma dubins_init_positive_rho_witness :
  dubins_init (libm := ref_libm) (0, 0, 0) (0, 0, 0) (4, 0, 0) 1 stale_path = (EDUBOK, straight_path) /\
  (0 <? rho straight_path) = true.
Proof.
  assert (E : dubins_init (libm := ref_libm) (0, 0, 0) (0, 0, 0) (4, 0, 0) 1 stale_path
              = (EDUBOK, straight_path)) by (vm_compute; reflexivity).
  split; [ exact E | ].
  apply (dubins_init_positive_rho (libm := ref_libm) _ _ _ _ _ _ eq_refl E).
Defined.

(** X4 on the same path, whose word is LSL. *)
Lemma dubins_init_straight_segment_witness :
  dubins_init (libm := ref_libm) (0, 0, 0) (0, 0, 0) (4, 0, 0) 1 stale_path = (EDUBOK, straight_path) /\
  dubins_path_type straight_path = LSL /\
  (0 <=? get1 (param straight_path)) = true.
Proof.
  assert (E : dubins_init (libm := ref_libm) (0, 0, 0) (0, 0, 0) (4, 0, 0) 1 stale_path
              = (EDUBOK, straight_path)) by (vm_compute; reflexivity).
  split; [ exact E | ]. split; [ reflexivity | ].
  apply (dubins_init_straight_segment (libm := ref_libm) _ _ _ _ _ _ E).
  vm_compute. discriminate.
Defined.

(** X6 on a path of three unit segments with [rho = 2]. *)
Lemma dubins_path_length_nonneg_witness :
  valid_path unit_path /\
  dubins_path_length unit_path = 6 /\
  (0 <=? dubins_path_length unit_path) = true /\
  (0 <=? dubins_segment_length unit_path 1) = true.
Proof.
  assert (V : valid_path unit_path).
  { repeat split; try reflexivity; vm_compute; discriminate. }
  split; [ exact V | ]. split; [ reflexivity | ].
  destruct (dubins_path_length_nonneg unit_path V) as (_ & _ & H).
  destruct (H eq_refl) as (H1 & H2). split; [ exact H1 | apply H2 ].
Defined.

(** X7 on the straight path. *)
Lemma dubins_path_sample_nan_witness :
  valid_type (type straight_path) /\
  exists pose,
    (forall q, dubins_path_sample (libm := ref_libm) straight_path nan q = Some (EDUBOK, pose)) /\
    is_nan (get2 pose) = true.
Proof.
  assert (Hty : valid_type (type straight_path)) by (vm_compute; split; discriminate).
  split; [ exact Hty | ].
  apply (dubins_path_sample_nan (libm := ref_libm) straight_path nan Hty). reflexivity.
Defined.

(** X8 on the straight path, from two different arrays. *)
Lemma dubins_path_sample_many_uninitialised_witness :
  valid_type (type straight_path) /\
  dubins_path_sample_many (libm := ref_libm) 4 (0, 0, 0) straight_path stop_at_three 1.5 0%nat
    = dubins_path_sample_many (libm := ref_libm) 4 (7, 7, 7) straight_path stop_at_three 1.5 0%nat.
Proof.
  assert (Hty : valid_type (type straight_path)) by (vm_compute; split; discriminate).
  split; [ exact Hty | ].
  apply (dubins_path_sample_many_uninitialised (libm := ref_libm)). exact Hty.
Defined.

(** X9 on the straight path of length 4 with [stepSize = 4]: one call. *)
Lemma dubins_path_sample_many_once_witness :
  valid_type (type straight_path) /\
  (0 <? dubins_path_length straight_path) = true /\
  (4 <? dubins_path_length straight_path) = false /\
  dubins_path_sample_many (libm := ref_libm) 2 (0, 0, 0) straight_path stop_at_three 4 0%nat
    = Ret (0%Z, 1%nat).
Proof.
  assert (Hty : valid_type (type straight_path)) by (vm_compute; split; discriminate).
  split; [ exact Hty | ]. split; [ reflexivity | ]. split; [ reflexivity | ].
  destruct (dubins_path_sample_many_once (libm := ref_libm) (0, 0, 0) straight_path
              stop_at_three 4 0%nat Hty eq_refl eq_refl) as (pose & _ & H).
  rewrite (H 2%nat (le_n 2)). reflexivity.
Defined.

(** X10 on the straight path with [stepSize = -1]. *)
Lemma dubins_path_sample_many_backwards_witness :
  valid_type (type straight_path) /\
  (0 <? dubins_path_length straight_path) = true /\
  (-1 <=? 0) = true /\
  forall fuel,
    dubins_path_sample_many (libm := ref_libm) fuel (0, 0, 0) straight_path keep_going (-1) tt
      = Timeout.
Proof.
  assert (Hty : valid_type (type straight_path)) by (vm_compute; split; discriminate).
  split; [ exact Hty | ]. split; [ reflexivity | ]. split; [ reflexivity | ].
  apply (dubins_path_sample_many_backwards (libm := ref_libm) (0, 0, 0) straight_path
           keep_going (-1) tt Hty eq_refl eq_refl).
  intros q x u. reflexivity.
Defined.

(** X11 on the first half, extracted with the [fmin] of the source, of
    the path synthesized from [(0, 0, 0)] to [(4, 0, 0)]. *)
Lemma dubins_init_then_sample_witness :
  dubins_init (libm := ref_libm) (0, 0, 0) (0, 0, 0) (4, 0, 0) 1 stale_path = (EDUBOK, straight_path) /\
  snd (dubins_extract_subpath (build := msc_fmin) straight_path 2 stale_path)
    = mkDubinsPath (0, 0, 0) (0, 2, 0) 1 LSL /\
  (forall t q, exists c q',
     dubins_path_sample (libm := ref_libm)
       (snd (dubins_extract_subpath (build := msc_fmin) straight_path 2 stale_path)) t q
       = Some (c, q')) /\
  (forall q, exists c q',
     dubins_path_endpoint (libm := ref_libm)
       (snd (dubins_extract_subpath (build := msc_fmin) straight_path 2 stale_path)) q
       = Some (c, q')) /\
  (forall (U : Type) fuel q (cb : DubinsPathSamplingCallback U) stepSize u,
     dubins_path_sample_many (libm := ref_libm) fuel q
       (snd (dubins_extract_subpath (build := msc_fmin) straight_path 2 stale_path))
       cb stepSize u <> Abort).
Proof.
  assert (E : dubins_init (libm := ref_libm) (0, 0, 0) (0, 0, 0) (4, 0, 0) 1 stale_path
              = (EDUBOK, straight_path)) by (vm_compute; reflexivity).
  split; [ exact E | ]. split; [ reflexivity | ].
  apply (dubins_init_then_sample (libm := ref_libm) (build := msc_fmin) _ _ _ _ _ _ E).
  right. exists 2, stale_path. reflexivity.
Defined.

(** X13 on a path of three unit segments with [rho = 2], at [t] NaN. *)
Lemma dubins_extract_subpath_nan_witness :
  is_nan (nan / rho unit_path) = true /\
  dubins_extract_subpath (build := math_fmin) unit_path nan stale_path = (0%Z, unit_path) /\
  param (snd (dubins_extract_subpath (build := msc_fmin) unit_path nan stale_path))
    = (nan, nan, nan).
Proof.
  split; [ reflexivity | ].
  apply (dubins_extract_subpath_nan unit_path nan stale_path). reflexivity.
Defined.

(** X14 on the same path, at [t] infinite, with the [fmin] of the
    source. *)
Lemma dubins_extract_subpath_whole_witness :
  (get0 (param unit_path) <? infinity) = true /\
  (get1 (param unit_path) <? infinity) = true /\
  is_nan (get2 (param unit_path)) = false /\
  infinity / rho unit_path = infinity /\
  dubins_extract_subpath (build := msc_fmin) unit_path infinity stale_path = (0%Z, unit_path).
Proof.
  repeat (split; [ reflexivity | ]).
  apply (dubins_extract_subpath_whole (build := msc_fmin) unit_path infinity stale_path);
    reflexivity.
Defined.

(** X16 on the path synthesized from [(0, 0, 0)] to [(2^25, 0, 0)] with
    [rho = 1]: its end is refused. *)
Lemma dubins_path_endpoint_range_witness :
  dubins_init (libm := ref_libm) (0, 0, 0) (0, 0, 0) (0x1p+25, 0, 0) 1 stale_path
    = (EDUBOK, long_path) /\
  valid_type (type long_path) /\
  (0x1p+24 <? dubins_path_length long_path) = true /\
  forall q, dubins_path_endpoint (libm := ref_libm) long_path q = Some (EDUBPARAM, q).
Proof.
  assert (Hty : valid_type (type long_path)) by (vm_compute; split; discriminate).
  split; [ vm_compute; reflexivity | ].
  split; [ exact Hty | ]. split; [ reflexivity | ].
  apply (dubins_path_endpoint_range (libm := ref_libm) long_path Hty).
  right. reflexivity.
Defined.

(** X17 on the straight path of length 4 with [stepSize = 1.5]. *)
Lemma dubins_path_sample_many_terminates_witness :
  valid_type (type straight_path) /\
  (0 <? 1.5) = true /\
  (dubins_path_length straight_path <=? 1.5 * 0x1p+52) = true /\
  exists fuel r,
    dubins_path_sample_many (libm := ref_libm) fuel (0, 0, 0) straight_path keep_going 1.5 tt
      = Ret r.
Proof.
  assert (Hty : valid_type (type straight_path)) by (vm_compute; split; discriminate).
  split; [ exact Hty | ]. split; [ reflexivity | ]. split; [ reflexivity | ].
  apply (dubins_path_sample_many_terminates (libm := ref_libm) straight_path keep_going 1.5
           (0, 0, 0) tt Hty eq_refl eq_refl).
Defined.

(** X18 on the straight path with [stepSize = -1]. *)
Lemma dubins_path_sample_many_dropped_code_witness :
  valid_type (type straight_path) /\
  (-1 <? 0) = true /\
  forall n q,
    dubins_path_sample (libm := ref_libm) straight_path (sample_x (-1) (S n) 0) q
      = Some (EDUBPARAM, q).
Proof.
  assert (Hty : valid_type (type straight_path)) by (vm_compute; split; discriminate).
  split; [ exact Hty | ]. split; [ reflexivity | ].
  apply (proj2 (dubins_path_sample_many_dropped_code (libm := ref_libm) straight_path (-1) Hty)).
  reflexivity.
Defined.


(** C6 as stated fails on the valid path with parameters [(1, 2^-60, 0)]
    and [rho = 1] at [t = 1], with either [fmin]: the length
    [1 + 2^-60 + 0] rounds to 1, so [t >= length], and the second parameter
    of the result is [0]. *)
Lemma dubins_extract_subpath_rounding :
  valid_path rounded_path /\
  (dubins_path_length rounded_path <=? 1) = true /\
  dubins_extract_subpath (build := math_fmin) rounded_path 1 stale_path
    = (0%Z, mkDubinsPath (0, 0, 0) (1, 0, 0) 1 LSL) /\
  dubins_extract_subpath (build := msc_fmin) rounded_path 1 stale_path
    = (0%Z, mkDubinsPath (0, 0, 0) (1, 0, 0) 1 LSL) /\
  (0 =? get1 (param rounded_path)) = false.
Proof.
  repeat split; try reflexivity; vm_compute; discriminate.
Qed.

(** C6, amended, on the same path at [t = 1 + 2^-49], with the [fmin] of
    the source. *)
Lemma dubins_extract_subpath_clamped_witness :
  valid_path rounded_path /\
  (0x1p-1022 <=? dubins_path_length rounded_path) = true /\
  (dubins_path_length rounded_path <? infinity) = true /\
  (dubins_path_length rounded_path * margin <=? margin) = true /\
  exists np,
    dubins_extract_subpath (build := msc_fmin) rounded_path margin stale_path
      = (0%Z, mkDubinsPath (qi rounded_path) np (rho rounded_path) (type rounded_path)) /\
    (get0 np =? get0 (param rounded_path)) = true /\
    (get1 np =? get1 (param rounded_path)) = true /\
    (get2 np =? get2 (param rounded_path)) = true.
Proof.
  assert (V : valid_path rounded_path).
  { repeat split; try reflexivity; vm_compute; discriminate. }
  split; [ exact V | ]. repeat (split; [ reflexivity | ]).
  destruct (dubins_extract_subpath_clamped (build := msc_fmin) rounded_path margin stale_path)
    as (np & E & H).
  exists np. split; [ exact E | ]. apply H; [ exact V | reflexivity .. ].
Defined.

(** The length has to be a normal number: on the valid path with
    parameters [(5 * 2^-1074, 0, 0)] and [rho = 1/2] the product underflows
    to the length [2 * 2^-1074], and at [t = length * (1 + 2^-49)] the first
    parameter of the result is [4 * 2^-1074]. *)
Lemma dubins_extract_subpath_tiny_length :
  valid_path tiny_path /\
  dubins_path_length tiny_path = 0x1p-1073 /\
  dubins_path_length tiny_path * margin = 0x1p-1073 /\
  dubins_extract_subpath (build := math_fmin) tiny_path 0x1p-1073 stale_path
    = (0%Z, mkDubinsPath (0, 0, 0) (0x1p-1072, 0, 0) 0.5 LSL) /\
  dubins_extract_subpath (build := msc_fmin) tiny_path 0x1p-1073 stale_path
    = (0%Z, mkDubinsPath (0, 0, 0) (0x1p-1072, 0, 0) 0.5 LSL) /\
  (0x1p-1072 =? get0 (param tiny_path)) = false.
Proof.
  repeat split; try reflexivity; vm_compute; discriminate.
Qed.
